(** * MoveMyCode profiler: the Cachegrind/Callgrind parser, the call tree,
      the search index and the entry-point matcher

    A shallow embedding of
      - [profiler_web_prj/lib/cachegrind-parser.ts]   (CachegrindParser.parse),
      - [profiler_web_prj/lib/path-utils.ts]          (resolveSourcePath),
      - [profiler_web_prj/components/call-tree-viewer.tsx]
                                     (createNode, buildTreeFromNode, the roots
                                      of the call tree and the node map),
      - [lib/call-tree-search.ts]    (CallTreeSearchEngine),
      - [lib/entry-point-matcher.ts] (EntryPointMatcher),
    followed by the statements proved about them.

    Conventions of the embedding.
      - A JavaScript string is a [string]; the text is ASCII, so that
        [trim], [\s] and [toLowerCase] only see the ASCII white space and
        letters.
      - A JavaScript number produced by [parseInt] is [NaN] or an integer
        (type [num]).  The line numbers and counts of the parser are exact
        integers (the rounding of doubles above 2^53 is not represented
        there); the addresses that the entry-point matcher compares are
        rounded as doubles are ([JsNum.to_double], [JsNum.hex_number]).
      - A plain object used as a dictionary, and a [Map], is an association
        list in insertion order: assigning to a present key updates it in
        place, assigning to a new key appends.  [filesData] is tested by
        [filesData[path]], which also sees the properties that every object
        inherits from [Object.prototype]; [Parser.inherited] lists them.
        Function and event names are own properties throughout (no function
        or event is called by an inherited name), and no event is called
        [executed].  No file or function name is an array index (a decimal
        number below 2^32 - 1), so that [Object.entries] lists files and
        functions in insertion order; line numbers are array indices, and
        [Coverage.own_entries] lists them as JavaScript does.
      - A [Set] of call-tree nodes is a list without repetition; two nodes are
        the same object when they carry the same [id] (every node object
        draws its id from the one counter [nodeId]).
      - An uncaught [TypeError] is the result [Throw TypeError]. *)

From Stdlib Require Import String Ascii List ZArith Bool Lia Arith Sorted
  Permutation.
Import ListNotations.
Local Open Scope string_scope.
Local Open Scope list_scope.

(* ================================================================== *)
(** ** JavaScript strings *)

Module JsString.

Definition code (c : ascii) : nat := nat_of_ascii c.

Definition between (lo hi : nat) (c : ascii) : bool :=
  (lo <=? code c)%nat && (code c <=? hi)%nat.

(** White space of [trim] and of the regular-expression class [\s]. *)
Definition is_space (c : ascii) : bool :=
  between 9 13 c || (code c =? 32)%nat.

Definition is_digit (c : ascii) : bool := between 48 57 c.
Definition is_upper (c : ascii) : bool := between 65 90 c.
Definition is_lower (c : ascii) : bool := between 97 122 c.
Definition is_alnum (c : ascii) : bool := is_digit c || is_upper c || is_lower c.
Definition is_hex (c : ascii) : bool :=
  is_digit c || between 65 70 c || between 97 102 c.

Definition lower_char (c : ascii) : ascii :=
  if is_upper c then ascii_of_nat (code c + 32) else c.

Fixpoint toLowerCase (s : string) : string :=
  match s with
  | EmptyString => EmptyString
  | String c r => String (lower_char c) (toLowerCase r)
  end.

Fixpoint dropWhile (p : ascii -> bool) (s : string) : string :=
  match s with
  | EmptyString => EmptyString
  | String c r => if p c then dropWhile p r else s
  end.

Fixpoint takeWhile (p : ascii -> bool) (s : string) : string :=
  match s with
  | EmptyString => EmptyString
  | String c r => if p c then String c (takeWhile p r) else EmptyString
  end.

Fixpoint rev (s : string) : string :=
  match s with
  | EmptyString => EmptyString
  | String c r => (rev r ++ String c EmptyString)%string
  end.

Definition trimStart (s : string) : string := dropWhile is_space s.
Definition trimEnd (s : string) : string := rev (dropWhile is_space (rev s)).
Definition trim (s : string) : string := trimEnd (trimStart s).

Definition startsWith (p s : string) : bool := String.prefix p s.

Fixpoint includes (sub s : string) : bool :=
  startsWith sub s
  || match s with
     | EmptyString => false
     | String _ r => includes sub r
     end.

(** [s.substring(n)] *)
Fixpoint drop (n : nat) (s : string) : string :=
  match n, s with
  | O, _ => s
  | S n', String _ r => drop n' r
  | S _, EmptyString => EmptyString
  end.

(** [s.substring(0, n)] *)
Fixpoint take (n : nat) (s : string) : string :=
  match n, s with
  | S n', String c r => String c (take n' r)
  | _, _ => EmptyString
  end.

(** [s.substring(a, a + len)] for [a + len <= s.length] *)
Definition slice (a len : nat) (s : string) : string := take len (drop a s).

(** [s.split(sep)] for a one-character separator: at least one piece. *)
Fixpoint split_char_aux (sep : ascii) (cur : string) (s : string) : list string :=
  match s with
  | EmptyString => [cur]
  | String c r =>
      if Ascii.eqb c sep then cur :: split_char_aux sep EmptyString r
      else split_char_aux sep (cur ++ String c EmptyString)%string r
  end.

Definition split_char (sep : ascii) (s : string) : list string :=
  split_char_aux sep EmptyString s.

(** [s.split(/C+/)] for a character class [C]: a maximal run of separator
    characters is one separator; a run at either end leaves an empty piece
    there, and the empty string is one empty piece. *)
Fixpoint split_runs_aux (is_sep : ascii -> bool) (in_sep : bool) (cur : string)
         (s : string) : list string :=
  match s with
  | EmptyString => [cur]
  | String c r =>
      if is_sep c then
        if in_sep then split_runs_aux is_sep true EmptyString r
        else cur :: split_runs_aux is_sep true EmptyString r
      else split_runs_aux is_sep false (cur ++ String c EmptyString)%string r
  end.

Definition split_runs (is_sep : ascii -> bool) (s : string) : list string :=
  split_runs_aux is_sep false EmptyString s.

(** [s.split(/\s+/)] *)
Definition split_ws (s : string) : list string := split_runs is_space s.

Definition LF : ascii := ascii_of_nat 10.

(** The text whose lines are [ls] (joined by a line feed). *)
Definition unlines (ls : list string) : string := String.concat (String LF EmptyString) ls.

End JsString.

(* ================================================================== *)
(** ** JavaScript numbers as [parseInt] makes them *)

Module JsNum.
Import JsString.

Inductive num : Type :=
| NaN
| Int (z : Z).

Definition num_eqb (a b : num) : bool :=
  match a, b with
  | NaN, NaN => true
  | Int x, Int y => Z.eqb x y
  | _, _ => false
  end.

Definition add (a b : num) : num :=
  match a, b with
  | Int x, Int y => Int (x + y)
  | _, _ => NaN
  end.

(** [x > 0] *)
Definition positive (a : num) : bool :=
  match a with
  | Int x => (0 <? x)%Z
  | NaN => false
  end.

(** Truthiness of a number: [NaN] and [0] are falsy. *)
Definition truthy (a : num) : bool :=
  match a with
  | Int x => negb (x =? 0)%Z
  | NaN => false
  end.

Definition digit_value (c : ascii) : Z :=
  if is_digit c then Z.of_nat (code c - 48)
  else if between 65 70 c then Z.of_nat (code c - 55)
  else if between 97 102 c then Z.of_nat (code c - 87)
  else 0%Z.

Fixpoint digits_value (radix : Z) (acc : Z) (s : string) : Z :=
  match s with
  | EmptyString => acc
  | String c r => digits_value radix (acc * radix + digit_value c)%Z r
  end.

Definition has_hex_prefix (s : string) : bool :=
  startsWith "0x" s || startsWith "0X" s.

(** The unsigned part of [parseInt]: after white space and sign. *)
Definition parse_unsigned (radix16 : bool) (s : string) : num :=
  if has_hex_prefix s then
    let ds := takeWhile is_hex (drop 2 s) in
    match ds with
    | EmptyString => NaN
    | _ => Int (digits_value 16 0 ds)
    end
  else
    let ds := takeWhile (if radix16 then is_hex else is_digit) s in
    match ds with
    | EmptyString => NaN
    | _ => Int (digits_value (if radix16 then 16 else 10) 0 ds)
    end.

Definition negate (a : num) : num :=
  match a with
  | Int x => Int (- x)
  | NaN => NaN
  end.

Definition parse_signed (radix16 : bool) (s : string) : num :=
  match trimStart s with
  | String "-" r => negate (parse_unsigned radix16 r)
  | String "+" r => parse_unsigned radix16 r
  | t => parse_unsigned radix16 t
  end.

(** [parseInt(s)]: radix 10, or 16 after a [0x] prefix. *)
Definition parseInt (s : string) : num := parse_signed false s.

(** [parseInt(s, 16)] as an integer: the value of the digits. *)
Definition parseInt16 (s : string) : num := parse_signed true s.

(** The Number that stands for the integer [z]: the nearest double, a tie
    going to the even significand of 53 bits.  Beyond the largest double the
    Number is [Infinity], which is written [2^1024] here (or [-2^1024]): it
    is only ever compared, and lies above every double as [Infinity] does. *)
Definition to_double (z : Z) : Z :=
  let a := Z.abs z in
  let k := (Z.log2 a - 52)%Z in
  if (k <=? 0)%Z then z
  else
    let q := Z.shiftr a k in
    let r := Z.land a (Z.ones k) in
    let half := Z.shiftl 1 (k - 1) in
    let q' := if (half <? r)%Z || ((r =? half)%Z && Z.odd q) then (q + 1)%Z else q in
    let m := Z.shiftl q' k in
    (Z.sgn z * (if (2 ^ 1024 <=? m)%Z then 2 ^ 1024 else m))%Z.

(** [parseInt(s, 16)] as the Number that JavaScript computes with: for the
    radix 16 the value of the digits is taken exactly and then rounded. *)
Definition hex_number (s : string) : num :=
  match parseInt16 s with
  | Int z => Int (to_double z)
  | NaN => NaN
  end.

End JsNum.

(* ================================================================== *)
(** ** Dictionaries in insertion order *)

Module Dict.
Section WithKey.
Context {K V : Type} (eqb : K -> K -> bool).

Fixpoint lookup (k : K) (d : list (K * V)) : option V :=
  match d with
  | [] => None
  | (k', v) :: r => if eqb k k' then Some v else lookup k r
  end.

(** [d[k] = v]: in place when [k] is present, appended otherwise. *)
Fixpoint put (k : K) (v : V) (d : list (K * V)) : list (K * V) :=
  match d with
  | [] => [(k, v)]
  | (k', v') :: r => if eqb k k' then (k', v) :: r else (k', v') :: put k v r
  end.

Definition keys (d : list (K * V)) : list K := map fst d.
End WithKey.
End Dict.

Definition sget {V : Type} : string -> list (string * V) -> option V :=
  Dict.lookup String.eqb.
Definition sput {V : Type} : string -> V -> list (string * V) -> list (string * V) :=
  Dict.put String.eqb.

(* ================================================================== *)
(** ** The parser: [CachegrindParser.parse] *)

Module Parser.
Import JsString JsNum.

(** [types/profiler.ts] *)
Record CallInfo : Type := mkCallInfo {
  targetFile : option string;
  targetFunction : option string;
  count : Z;
  sourcePc : string
}.

Record LineData : Type := mkLineData {
  line_events : list (string * num);
  line_executed : bool
}.

Record PcLineData : Type := mkPcLineData {
  pc : string;
  line : num;
  events : list (string * num);
  executed : bool
}.

(** The coverage fields ([coveredLines], [uncoveredLines],
    [coveragePercentage]) are filled by the post-processing from [lines]
    alone and are left out. *)
Record FunctionData : Type := mkFunctionData {
  lines : list (num * LineData);
  totals : list (string * num);
  pcData : option (list (string * PcLineData));
  calls : option (list CallInfo)
}.

Record FileInfo : Type := mkFileInfo {
  functions : list (string * FunctionData);
  objectFile : option string
}.

Inductive exn : Type := TypeError.

Inductive result (A : Type) : Type :=
| Ok (a : A)
| Throw (e : exn).
Arguments Ok {A} a.
Arguments Throw {A} e.

(** The fields of the parser object together with the locals of [parse]. *)
Record state : Type := mkState {
  st_events : list string;
  st_cmd : string;
  st_pid : string;
  st_filesData : list (string * FileInfo);
  st_summary : list (string * num);
  st_isCallgrind : bool;
  st_currentObjectFile : option string;
  st_positions : string;
  st_pendingCallFile : option string;
  st_pendingCallFunction : option string;
  currentFile : option string;
  currentFunction : option string
}.

Definition initial (isCallgrind : bool) : state :=
  mkState [] "" "" [] [] isCallgrind None "line" None None None None.

(** A string in a condition: [null], [undefined] and [''] are falsy. *)
Definition truthy_str (o : option string) : option string :=
  match o with
  | Some "" => None
  | other => other
  end.

Definition nth_str (n : nat) (l : list string) : string := nth n l "".

(** [Object.fromEntries(events.map(e => [e, v e idx]))] *)
Fixpoint from_entries_aux (idx : nat) (v : nat -> num) (evs : list string)
         (acc : list (string * num)) : list (string * num) :=
  match evs with
  | [] => acc
  | e :: r => from_entries_aux (S idx) v r (sput e (v idx) acc)
  end.

Definition from_entries (v : nat -> num) (evs : list string) : list (string * num) :=
  from_entries_aux 0 v evs [].

(** [eventCounts.forEach((count, idx) => upd(events[idx], count))] on a
    dictionary of numbers.  [events[idx]] beyond the vocabulary is
    [undefined], whose property name is ["undefined"]. *)
Definition event_at (evs : list string) (idx : nat) : string :=
  nth idx evs "undefined".

Fixpoint for_each_count (upd : option num -> num -> num) (evs : list string)
         (idx : nat) (counts : list num) (d : list (string * num)) : list (string * num) :=
  match counts with
  | [] => d
  | c :: r =>
      let e := event_at evs idx in
      for_each_count upd evs (S idx) r (sput e (upd (sget e d) c) d)
  end.

(** [d[e] = count] *)
Definition assign (_ : option num) (c : num) : num := c.

(** [d[e] = (d[e] || 0) + count] *)
Definition add_or_zero (old : option num) (c : num) : num :=
  match old with
  | Some o => if truthy o then add o c else add (Int 0) c
  | None => add (Int 0) c
  end.

(** [d[e] += count]: an absent entry is [undefined], and
    [undefined + count] is [NaN]. *)
Definition add_assign (old : option num) (c : num) : num :=
  match old with
  | Some o => add o c
  | None => NaN
  end.

Definition fresh_function (st : state) : FunctionData :=
  mkFunctionData [] (from_entries (fun _ => Int 0) (st_events st))
                 (if st_isCallgrind st then Some [] else None) None.

Definition set_filesData (st : state) (fd : list (string * FileInfo)) : state :=
  mkState (st_events st) (st_cmd st) (st_pid st) fd (st_summary st)
          (st_isCallgrind st) (st_currentObjectFile st) (st_positions st)
          (st_pendingCallFile st) (st_pendingCallFunction st)
          (currentFile st) (currentFunction st).

(** [this.filesData[file].functions[fn]]; [None] where JavaScript reads a
    property of [undefined] (a [TypeError]) or finds no such function. *)
Definition function_of (st : state) (file fn : string) : option FunctionData :=
  match sget file (st_filesData st) with
  | Some fi => sget fn (functions fi)
  | None => None
  end.

(** Write back a function record that was found by [function_of]. *)
Definition store_function (st : state) (file fn : string) (f : FunctionData) : state :=
  match sget file (st_filesData st) with
  | Some fi =>
      set_filesData st
        (sput file (mkFileInfo (sput fn f (functions fi)) (objectFile fi))
              (st_filesData st))
  | None => st
  end.

(** The kinds of line, in the order in which [parse] tests them. *)
Inductive directive : Type :=
| Skip            (* blank, [#] comment outside callgrind, part:, cob=, fi=, fe=, jfi= *)
| Events | Cmd | Pid | Positions
| Ob | Fl | Fn | Cfi | Cfn | Calls | Jump | Summary
| DataRow.

Definition classify (isCallgrind : bool) (t : string) : directive :=
  if String.eqb t "" then Skip
  else if startsWith "#" t && negb isCallgrind then Skip
  else if startsWith "events:" t then Events
  else if startsWith "cmd:" t then Cmd
  else if startsWith "pid:" t then Pid
  else if startsWith "positions:" t then Positions
  else if startsWith "part:" t then Skip
  else if startsWith "ob=" t then Ob
  else if startsWith "cob=" t then Skip
  else if startsWith "fl=" t then Fl
  else if startsWith "fi=" t || startsWith "fe=" t then Skip
  else if startsWith "fn=" t then Fn
  else if startsWith "cfi=" t then Cfi
  else if startsWith "cfn=" t then Cfn
  else if startsWith "calls=" t then Calls
  else if startsWith "jcnd=" t || startsWith "jump=" t then Jump
  else if startsWith "jfi=" t then Skip
  else if startsWith "summary:" t then Summary
  else DataRow.

(** [t.split(':')[1].trim()] for a line that contains a colon. *)
Definition after_colon (t : string) : string :=
  trim (nth_str 1 (split_char ":" t)).

(** [s.match(/^(0x[0-9a-fA-F]+)/)]: the captured prefix. *)
Definition match_pc (s : string) : option string :=
  if startsWith "0x" s then
    match takeWhile is_hex (drop 2 s) with
    | EmptyString => None
    | ds => Some ("0x" ++ ds)%string
    end
  else None.

(** [s.match(/^0x[0-9a-fA-F]/)] *)
Definition looks_like_pc (s : string) : bool :=
  match match_pc s with Some _ => true | None => false end.

Definition some_positive (counts : list num) : bool := existsb positive counts.

(** *** Field updates *)

Definition set_header (st : state) (evs : list string) (cmd pid positions : string)
           (summary : list (string * num)) : state :=
  mkState evs cmd pid (st_filesData st) summary
          (st_isCallgrind st) (st_currentObjectFile st) positions
          (st_pendingCallFile st) (st_pendingCallFunction st)
          (currentFile st) (currentFunction st).

Definition set_events (st : state) (evs : list string) : state :=
  set_header st evs (st_cmd st) (st_pid st) (st_positions st) (st_summary st).
Definition set_cmd (st : state) (c : string) : state :=
  set_header st (st_events st) c (st_pid st) (st_positions st) (st_summary st).
Definition set_pid (st : state) (p : string) : state :=
  set_header st (st_events st) (st_cmd st) p (st_positions st) (st_summary st).
Definition set_positions (st : state) (p : string) : state :=
  set_header st (st_events st) (st_cmd st) (st_pid st) p (st_summary st).
Definition set_summary (st : state) (s : list (string * num)) : state :=
  set_header st (st_events st) (st_cmd st) (st_pid st) (st_positions st) s.

Definition set_scope (st : state) (ob pcf pcfn file fn : option string) : state :=
  mkState (st_events st) (st_cmd st) (st_pid st) (st_filesData st) (st_summary st)
          (st_isCallgrind st) ob (st_positions st) pcf pcfn file fn.

Definition set_currentObjectFile (st : state) (ob : option string) : state :=
  set_scope st ob (st_pendingCallFile st) (st_pendingCallFunction st)
            (currentFile st) (currentFunction st).
Definition set_pending (st : state) (pcf pcfn : option string) : state :=
  set_scope st (st_currentObjectFile st) pcf pcfn (currentFile st) (currentFunction st).
Definition set_currentFile (st : state) (f : option string) : state :=
  set_scope st (st_currentObjectFile st) (st_pendingCallFile st)
            (st_pendingCallFunction st) f (currentFunction st).
Definition set_currentFunction (st : state) (f : option string) : state :=
  set_scope st (st_currentObjectFile st) (st_pendingCallFile st)
            (st_pendingCallFunction st) (currentFile st) f.

(** *** The branches of the loop body *)

(** The properties that the object [filesData] inherits from
    [Object.prototype]: for these names [filesData[name]] is a built-in
    value, which is truthy and has no [functions]. *)
Definition inherited (name : string) : bool :=
  existsb (String.eqb name)
          ["__proto__"; "constructor"; "hasOwnProperty"; "isPrototypeOf";
           "propertyIsEnumerable"; "toLocaleString"; "toString"; "valueOf";
           "__defineGetter__"; "__defineSetter__";
           "__lookupGetter__"; "__lookupSetter__"].

(** [fl=PATH] (lines 93-109).  For an inherited name the test
    [!this.filesData[currentFile]] fails, so that no record is ever made for
    it (the object file, if any, is then written on the built-in value).
    For the name [__proto__] the built-in value is [Object.prototype]
    itself, and that write would give every object of the process a property
    [objectFile]; [Object.prototype] is taken here as the language defines
    it, throughout this parse and the ones before it. *)
Definition do_fl (st : state) (t : string) : state :=
  let file := drop 3 t in
  let fd := st_filesData st in
  let fd' :=
    if inherited file then fd
    else
      match sget file fd with
      | None => sput file (mkFileInfo [] (truthy_str (st_currentObjectFile st))) fd
      | Some fi =>
          match truthy_str (st_currentObjectFile st) with
          | Some ob => sput file (mkFileInfo (functions fi) (Some ob)) fd
          | None => fd
          end
      end in
  set_currentFile (set_filesData st fd') (Some file).

(** [fn=NAME] (lines 117-130) *)
Definition do_fn (st : state) (t : string) : result state :=
  let fn := drop 3 t in
  let st1 := set_currentFunction st (Some fn) in
  match truthy_str (currentFile st), truthy_str (Some fn) with
  | Some file, Some _ =>
      match sget file (st_filesData st) with
      | Some _ => Ok (store_function st1 file fn (fresh_function st))
      | None => Throw TypeError
      end
  | _, _ => Ok st1
  end.

(** [parseInt(parts[0]) || 1] *)
Definition call_count (parts : list string) : Z :=
  match parseInt (nth_str 0 parts) with
  | Int z => if (z =? 0)%Z then 1%Z else z
  | NaN => 1%Z
  end.

Definition push_call (f : FunctionData) (c : CallInfo) : FunctionData :=
  mkFunctionData (lines f) (totals f) (pcData f)
                 (Some (match calls f with Some cs => cs | None => [] end ++ [c])).

(** [calls=N ...] (lines 145-172): the line that follows is consumed as the
    source row of the edge, whatever it is. *)
Definition do_calls (st : state) (t : string) (next : option string)
  : result (state * bool) :=
  let callCount := call_count (split_ws (drop 6 t)) in
  match next with
  | None => Ok (st, false)
  | Some nl =>
      match match_pc (trim nl), truthy_str (currentFunction st),
            truthy_str (currentFile st) with
      | Some sourcePc, Some fn, Some file =>
          match function_of st file fn with
          | None => Throw TypeError
          | Some f =>
              let c := mkCallInfo (st_pendingCallFile st) (st_pendingCallFunction st)
                                  callCount sourcePc in
              Ok (set_pending (store_function st file fn (push_call f c)) None None,
                  true)
          end
      | _, _, _ => Ok (st, true)
      end
  end.

(** [summary: V1 V2 ...] (lines 189-195) *)
Definition do_summary (st : state) (t : string) : state :=
  let values := split_ws (after_colon t) in
  let value idx :=
    match nth_error values idx with
    | Some v => parseInt (if String.eqb v "" then "0" else v)
    | None => Int 0
    end in
  set_summary st (from_entries value (st_events st)).

(** The event vector of a callgrind row: trailing counts that are not
    written are 0 (lines 209-213). *)
Definition fill_counts (evs : list string) (provided : list num) : list num :=
  map (fun idx => nth idx provided (Int 0)) (seq 0 (length evs)).

(** The callgrind row [PC LINE counts...] on its function (lines 206-255). *)
Definition callgrind_row (evs : list string) (parts : list string)
           (f : FunctionData) : FunctionData :=
  let pc := nth_str 0 parts in
  let lineNum := parseInt (nth_str 1 parts) in
  let eventCounts := fill_counts evs (map parseInt (skipn 2 parts)) in
  let executed := some_positive eventCounts in
  let pcLineData :=
    mkPcLineData pc lineNum (for_each_count assign evs 0 eventCounts []) executed in
  let existing :=
    match Dict.lookup num_eqb lineNum (lines f) with
    | Some l => l
    | None => mkLineData [] false
    end in
  let existing' :=
    mkLineData (for_each_count add_or_zero evs 0 eventCounts (line_events existing))
               (line_executed existing || executed) in
  mkFunctionData
    (Dict.put num_eqb lineNum existing' (lines f))
    (for_each_count add_assign evs 0 eventCounts (totals f))
    (option_map (sput pc pcLineData) (pcData f))
    (calls f).

(** The cachegrind row [LINE counts...] on its function (lines 264-278). *)
Definition cachegrind_row (evs : list string) (parts : list string)
           (f : FunctionData) : FunctionData :=
  let lineNum := parseInt (nth_str 0 parts) in
  let eventCounts := map parseInt (firstn (length evs) (skipn 1 parts)) in
  let lineData :=
    mkLineData (for_each_count assign evs 0 eventCounts [])
               (some_positive eventCounts) in
  mkFunctionData
    (Dict.put num_eqb lineNum lineData (lines f))
    (for_each_count add_assign evs 0 eventCounts (totals f))
    (pcData f)
    (calls f).

(** A data row (lines 198-284).  Inside [try], reading the record of a
    function that does not exist raises a [TypeError] before anything is
    written; [catch] then goes on with the next line. *)
Definition do_data_row (st : state) (t : string) : state :=
  match truthy_str (currentFile st), truthy_str (currentFunction st) with
  | Some file, Some fn =>
      let parts := split_ws t in
      if st_isCallgrind st && includes "instr" (st_positions st) then
        if startsWith "0x" (nth_str 0 parts) && (3 <=? length parts)%nat then
          match function_of st file fn with
          | Some f => store_function st file fn (callgrind_row (st_events st) parts f)
          | None => st
          end
        else st
      else
        if (length (st_events st) + 1 <=? length parts)%nat then
          match function_of st file fn with
          | Some f => store_function st file fn (cachegrind_row (st_events st) parts f)
          | None => st
          end
        else st
  | _, _ => st
  end.

(** One turn of the [for] loop on the trimmed line [t]; [next] is the line
    after it, when there is one.  The boolean tells whether the turn also
    consumed [next] (the [i++] of [calls=] and [jump=]). *)
Definition step (st : state) (t : string) (next : option string)
  : result (state * bool) :=
  match classify (st_isCallgrind st) t with
  | Skip => Ok (st, false)
  | Events => Ok (set_events st (split_ws (after_colon t)), false)
  | Cmd => Ok (set_cmd st (after_colon t), false)
  | Pid => Ok (set_pid st (after_colon t), false)
  | Positions => Ok (set_positions st (after_colon t), false)
  | Ob => Ok (set_currentObjectFile st (Some (drop 3 t)), false)
  | Fl => Ok (do_fl st t, false)
  | Fn => match do_fn st t with
          | Ok st' => Ok (st', false)
          | Throw e => Throw e
          end
  | Cfi => Ok (set_pending st (Some (drop 4 t)) (st_pendingCallFunction st), false)
  | Cfn => Ok (set_pending st (st_pendingCallFile st) (Some (drop 4 t)), false)
  | Calls => do_calls st t next
  | Jump => Ok (st, match next with
                    | Some nl => looks_like_pc (trim nl)
                    | None => false
                    end)
  | Summary => Ok (do_summary st t, false)
  | DataRow => Ok (do_data_row st t, false)
  end.

(** The [for] loop over the lines that remain. *)
Fixpoint loop (st : state) (ls : list string) : result state :=
  match ls with
  | [] => Ok st
  | l :: rest =>
      match step st (trim l) (hd_error rest) with
      | Throw e => Throw e
      | Ok (st', consumed) =>
          if consumed then
            match rest with
            | [] => Ok st'
            | _ :: rest' => loop st' rest'
            end
          else loop st' rest
      end
  end.

(** The value [parse] returns.  [fileCoverage] keeps, per file, the function
    records and the object file; the coverage figures derived from them in
    the post-processing are left out. *)
Record CachegrindData : Type := mkCachegrindData {
  projectName : string;
  isCallgrind : bool;
  pid_of : string;
  events_of : list string;
  fileCoverage : list (string * FileInfo);
  summaryTotals : list (string * num)
}.

Definition finish (st : state) : CachegrindData :=
  mkCachegrindData (if String.eqb (st_cmd st) "" then "Unknown" else st_cmd st)
                   (st_isCallgrind st) (st_pid st) (st_events st)
                   (st_filesData st) (st_summary st).

Definition parse_lines (ls : list string) : result CachegrindData :=
  let cg := String.eqb (trim (nth_str 0 ls)) "# callgrind format" in
  match loop (initial cg) ls with
  | Ok st => Ok (finish st)
  | Throw e => Throw e
  end.

(** [new CachegrindParser(content).parse()] *)
Definition parse (content : string) : result CachegrindData :=
  parse_lines (split_char LF content).

(** [data.fileCoverage[file].functions[fn]] *)
Definition function_in (d : CachegrindData) (file fn : string) : option FunctionData :=
  match sget file (fileCoverage d) with
  | Some fi => sget fn (functions fi)
  | None => None
  end.

End Parser.

(* ================================================================== *)
(** ** The call tree: [createNode] and [buildTreeFromNode] *)

Module CallTree.
Import JsString JsNum.

(** The ids [`node-${nodeId++}`] and [`stub-${nodeId++}`]. *)
Inductive node_id : Type :=
| node_ (n : nat)
| stub_ (n : nat).

Definition id_eqb (a b : node_id) : bool :=
  match a, b with
  | node_ x, node_ y => Nat.eqb x y
  | stub_ x, stub_ y => Nat.eqb x y
  | _, _ => false
  end.

(** [CallTreeNode] of [types/profiler.ts] *)
#[warnings="-register-all"]
Inductive CallTreeNode : Type := mkNode {
  id : node_id;
  functionName : string;
  fileName : string;
  pcStart : string;
  pcEnd : string;
  callCount : Z;
  totalTime : Z;
  selfTime : Z;
  children : list CallTreeNode;
  calls : option (list Parser.CallInfo)
}.

Definition same_node (a b : CallTreeNode) : bool := id_eqb (id a) (id b).

(** An entry of [functionMap]. *)
Record FuncInfo : Type := mkFuncInfo {
  fi_fileName : string;
  fi_funcName : string;
  funcData : Parser.FunctionData
}.

(** [`${file}:${fn}`] *)
Definition key_of (file fn : string) : string := (file ++ ":" ++ fn)%string.

(** The function map built from the parsed data (lines 53-59). *)
Definition functionMap_of (d : Parser.CachegrindData) : list (string * FuncInfo) :=
  fold_left
    (fun m '(filename, fileData) =>
       fold_left
         (fun m '(funcName, fd) =>
            sput (key_of filename funcName) (mkFuncInfo filename funcName fd) m)
         (Parser.functions fileData) m)
    (Parser.fileCoverage d) [].

(** [a || b || 0] on two optional counters. *)
Definition first_truthy (a b : option num) : Z :=
  match a with
  | Some (Int x) => if (x =? 0)%Z then
                      match b with
                      | Some (Int y) => y
                      | _ => 0%Z
                      end
                    else x
  | _ => match b with
         | Some (Int y) => y
         | _ => 0%Z
         end
  end.

(** [Object.keys(funcData.pcData || {})]: the PCs are strings that start
    with [0x], which an object lists in insertion order. *)
Definition pcAddresses (fd : Parser.FunctionData) : list string :=
  match Parser.pcData fd with
  | Some d => Dict.keys d
  | None => []
  end.

(** [createNode] (lines 67-87); [nid] is the counter [nodeId]. *)
Definition createNode (fileName funcName : string) (fd : Parser.FunctionData)
           (nid : nat) : CallTreeNode * nat :=
  let pcs := pcAddresses fd in
  let selfCycles :=
    first_truthy (sget "Cy" (Parser.totals fd)) (sget "Ir" (Parser.totals fd)) in
  (mkNode (node_ nid) funcName fileName
          (hd "" pcs) (last pcs "")
          1 selfCycles selfCycles [] (Parser.calls fd),
   S nid).

Definition stub (nid : nat) (fn file : string) (cnt : Z) : CallTreeNode :=
  mkNode (stub_ nid) fn file "" "" cnt 0 0 [] None.

(** [call.count || 1] *)
Definition count_or_one (c : Z) : Z := if (c =? 0)%Z then 1%Z else c.

Definition with_callCount (n : CallTreeNode) (c : Z) : CallTreeNode :=
  mkNode (id n) (functionName n) (fileName n) (pcStart n) (pcEnd n) c
         (totalTime n) (selfTime n) (children n) (calls n).

Definition with_children (n : CallTreeNode) (cs : list CallTreeNode) : CallTreeNode :=
  mkNode (id n) (functionName n) (fileName n) (pcStart n) (pcEnd n) (callCount n)
         (totalTime n) (selfTime n) cs (calls n).

Definition mem (k : string) (s : list string) : bool := existsb (String.eqb k) s.

(** The body of [funcInfo.funcData.calls.forEach] (lines 139-166); [rec] is
    the recursive call [buildTreeFromNode(childKey, new Set(visited))]. *)
Fixpoint each_call (rec : string -> nat -> option (option CallTreeNode * nat))
         (parentFile : string) (cs : list Parser.CallInfo) (nid : nat)
         (acc : list CallTreeNode) : option (list CallTreeNode * nat) :=
  match cs with
  | [] => Some (acc, nid)
  | call :: rest =>
      match Parser.truthy_str (Parser.targetFunction call) with
      | None => each_call rec parentFile rest nid acc
      | Some tfn =>
          let targetFile :=
            match Parser.truthy_str (Parser.targetFile call) with
            | Some f => f
            | None => parentFile
            end in
          let cnt := count_or_one (Parser.count call) in
          match rec (key_of targetFile tfn) nid with
          | None => None
          | Some (Some child, nid') =>
              each_call rec parentFile rest nid' (acc ++ [with_callCount child cnt])
          | Some (None, nid') =>
              each_call rec parentFile rest (S nid')
                        (acc ++ [stub nid' tfn targetFile cnt])
          end
      end
  end.

Definition calls_or_empty (fd : Parser.FunctionData) : list Parser.CallInfo :=
  match Parser.calls fd with
  | Some cs => cs
  | None => []
  end.

Section Build.
Variable functionMap : list (string * FuncInfo).

(** [buildTreeFromNode] (lines 122-170).  [visited] is the set the callee
    owns: every call on a child receives a copy ([new Set(visited)]) taken
    after the parent's key was added.  The recursion of the source is
    bounded here by [fuel]; the outer [None] means that the fuel ran out,
    the inner [None] is the [null] of the source. *)
Fixpoint buildTreeFromNode (fuel : nat) (functionKey : string)
         (visited : list string) (nid : nat)
  : option (option CallTreeNode * nat) :=
  match fuel with
  | O => None
  | S fuel' =>
      if mem functionKey visited then Some (None, nid)
      else
        let visited' := functionKey :: visited in
        match sget functionKey functionMap with
        | None => Some (None, nid)
        | Some info =>
            let '(node, nid1) :=
              createNode (fi_fileName info) (fi_funcName info) (funcData info) nid in
            match each_call (fun k n => buildTreeFromNode fuel' k visited' n)
                            (fi_fileName info) (calls_or_empty (funcData info))
                            nid1 [] with
            | None => None
            | Some (kids, nid2) => Some (Some (with_children node kids), nid2)
            end
        end
  end.

(** Fuel that always suffices: one more than the number of functions. *)
Definition enough_fuel : nat := S (length functionMap).

(** [buildTreeFromNode(entry)] with a fresh visited set. *)
Definition subtree_from (entry : string) (nid : nat)
  : option (option CallTreeNode * nat) :=
  buildTreeFromNode enough_fuel entry [] nid.
End Build.

(** A node made by [createNode] (an expansion), as opposed to a stub. *)
Definition is_expansion (n : CallTreeNode) : bool :=
  match id n with
  | node_ _ => true
  | stub_ _ => false
  end.


(** The largest number of expansions on one path from the root. *)
Fixpoint expansion_depth (n : CallTreeNode) : nat :=
  match n with
  | mkNode i _ _ _ _ _ _ _ kids _ =>
      (match i with node_ _ => 1 | stub_ _ => 0 end)
      + list_max (map expansion_depth kids)
  end.

End CallTree.

(* ================================================================== *)
(** ** Sets of nodes and of strings *)

Module NodeSet.
Import CallTree.

Definition has (s : list CallTreeNode) (n : CallTreeNode) : bool :=
  existsb (same_node n) s.

Definition add (n : CallTreeNode) (s : list CallTreeNode) : list CallTreeNode :=
  if has s n then s else s ++ [n].

(** [from.forEach(node => s.add(node))] *)
Definition add_all (from s : list CallTreeNode) : list CallTreeNode :=
  fold_left (fun acc n => add n acc) from s.

Definition add_str (t : string) (s : list string) : list string :=
  if existsb (String.eqb t) s then s else s ++ [t].

End NodeSet.

(* ================================================================== *)
(** ** The search index: [CallTreeSearchEngine] *)

Module Search.
Import JsString CallTree.

Record SearchIndex : Type := mkIndex {
  termToNodes : list (string * list CallTreeNode);
  nodeToTerms : list (CallTreeNode * list string)
}.

Definition empty : SearchIndex := mkIndex [] [].

(** [addToIndex] (lines 104-114) *)
Definition addToIndex (term : string) (node : CallTreeNode) (ix : SearchIndex)
  : SearchIndex :=
  let nodes := match sget term (termToNodes ix) with
               | Some s => s
               | None => []
               end in
  let terms := match Dict.lookup same_node node (nodeToTerms ix) with
               | Some s => s
               | None => []
               end in
  mkIndex (sput term (NodeSet.add node nodes) (termToNodes ix))
          (Dict.put same_node node (NodeSet.add_str term terms) (nodeToTerms ix)).

(** [s.replace(/([a-z])([A-Z])/g, '$1 $2')] *)
Fixpoint split_camel (s : string) : string :=
  match s with
  | EmptyString => EmptyString
  | String a t =>
      match t with
      | EmptyString => s
      | String b r =>
          if is_lower a && is_upper b
          then String a (String " " (String b (split_camel r)))
          else String a (split_camel t)
      end
  end.

(** [s.replace(/_/g, ' ')] *)
Fixpoint underscores_to_spaces (s : string) : string :=
  match s with
  | EmptyString => EmptyString
  | String c r =>
      String (if Ascii.eqb c "_" then " "%char else c) (underscores_to_spaces r)
  end.

(** The words of a name (lines 45-49). *)
Definition words (name : string) : list string :=
  filter (fun w => (1 <? String.length w)%nat)
         (split_runs (fun c => negb (is_alnum c))
                     (underscores_to_spaces (split_camel name))).

(** [lo, lo+1, ..., hi] *)
Definition range (lo hi : nat) : list nat := seq lo (S hi - lo).

(** The terms under which a name is indexed, in the order of the calls of
    [addToIndex] (lines 38-79). *)
Definition terms_of (name : string) : list string :=
  let lower := toLowerCase name in
  let n := String.length lower in
  [lower]
  ++ map toLowerCase (words name)
  ++ map (fun len => take len lower) (range 1 (Nat.min n 12))
  ++ (if (3 <? n)%nat
      then map (fun len => drop (n - len) lower) (range 3 (Nat.min n 8))
      else [])
  ++ (if (n <=? 8)%nat
      then flat_map
             (fun start =>
                map (fun len => slice start len lower)
                    (range 2 (Nat.min 4 (n - start))))
             (range 1 (n - 2))
      else []).

Definition index_terms (node : CallTreeNode) (ix : SearchIndex) : SearchIndex :=
  fold_left (fun acc t => addToIndex t node acc) (terms_of (functionName node)) ix.

Definition visited_has (i : node_id) (v : list node_id) : bool :=
  existsb (id_eqb i) v.

(** [indexNode] (lines 30-92): the state is the [visited] set of ids and the
    index. *)
Fixpoint indexNode (node : CallTreeNode) (depth : nat)
         (st : list node_id * SearchIndex) {struct node}
  : list node_id * SearchIndex :=
  match node with
  | mkNode i _ _ _ _ _ _ _ kids _ =>
      if (100 <? depth)%nat || visited_has i (fst st) then st
      else
        let st1 := (i :: fst st, index_terms node (snd st)) in
        fold_left (fun st child => indexNode child (S depth) st) kids st1
  end.

(** [buildIndex] (lines 22-102) *)
Definition buildIndex (nodes : list CallTreeNode) : SearchIndex :=
  snd (fold_left (fun st n => indexNode n 0 st) nodes ([], empty)).

(** The nodes that were indexed: the keys of [nodeToTerms]. *)
Definition indexed (ix : SearchIndex) : list CallTreeNode :=
  Dict.keys (nodeToTerms ix).

(** [termToNodes.forEach((nodes, term) => { if (sel term) add all nodes })] *)
Definition collect (sel : string -> bool) (ix : SearchIndex)
           (results : list CallTreeNode) : list CallTreeNode :=
  fold_left
    (fun acc '(term, nodes) => if sel term then NodeSet.add_all nodes acc else acc)
    (termToNodes ix) results.

(** [search] (lines 120-155) *)
Definition search (ix : SearchIndex) (searchTerm : string) : list CallTreeNode :=
  if String.eqb searchTerm "" || String.eqb (trim searchTerm) "" then []
  else
    let termLower := trim (toLowerCase searchTerm) in
    let direct := match sget termLower (termToNodes ix) with
                  | Some s => NodeSet.add_all s []
                  | None => []
                  end in
    let withPrefix :=
      if (length direct <? 10)%nat
      then collect (fun t => startsWith termLower t) ix direct
      else direct in
    if (length withPrefix <? 5)%nat
    then collect (fun t => negb (startsWith termLower t) && includes termLower t)
                 ix withPrefix
    else withPrefix.

End Search.

(* ================================================================== *)
(** ** The entry-point matcher: [EntryPointMatcher] *)

Module Matcher.
Import JsString JsNum CallTree.

Record PcRange : Type := mkRange {
  r_start : Z;
  r_end : Z;
  r_node : CallTreeNode
}.

Record EntryPointIndex : Type := mkEntryIndex {
  byName : list (string * CallTreeNode);
  byPcStart : list (string * CallTreeNode);
  byPartialName : list (string * list CallTreeNode);
  pcRanges : list PcRange
}.

Definition empty : EntryPointIndex := mkEntryIndex [] [] [] [].

(** [byPartialName.get(k).add(node)], creating the set when absent. *)
Definition add_partial (k : string) (node : CallTreeNode)
           (m : list (string * list CallTreeNode)) : list (string * list CallTreeNode) :=
  sput k (NodeSet.add node (match sget k m with Some s => s | None => [] end)) m.

Definition add_partials (ks : list string) (node : CallTreeNode)
           (m : list (string * list CallTreeNode)) : list (string * list CallTreeNode) :=
  fold_left (fun acc k => add_partial k node acc) ks m.

(** The keys of the partial-name index for one name, in the order in which
    they are added (lines 41-68). *)
Definition partial_keys (nameLower : string) : list string :=
  map (fun len => take len nameLower)
      (Search.range 3 (Nat.min (String.length nameLower) 8))
  ++ flat_map
       (fun word =>
          if (3 <=? String.length word)%nat
          then word :: map (fun len => take len word)
                           (Search.range 3 (Nat.min (String.length word) 6))
          else [])
       (split_runs (fun c => negb (is_digit c || is_lower c)) nameLower).

(** The PC range of a node, when it has one (lines 76-83); its two ends are
    Numbers. *)
Definition range_of (node : CallTreeNode) : option PcRange :=
  if String.eqb (pcStart node) "" || String.eqb (pcEnd node) "" then None
  else
    match hex_number (pcStart node), hex_number (pcEnd node) with
    | Int s, Int e => if (s <=? e)%Z then Some (mkRange s e node) else None
    | _, _ => None
    end.

(** The body of [nodeMap.forEach] (lines 27-84). *)
Definition index_node (ix : EntryPointIndex) (node : CallTreeNode) : EntryPointIndex :=
  let nameLower := toLowerCase (functionName node) in
  let nameWithoutPrefix :=
    toLowerCase (dropWhile (Ascii.eqb "_") (functionName node)) in
  let byName1 := sput nameLower node (byName ix) in
  let byName2 := if String.eqb nameWithoutPrefix nameLower then byName1
                 else sput nameWithoutPrefix node byName1 in
  mkEntryIndex
    byName2
    (if String.eqb (pcStart node) "" then byPcStart ix
     else sput (toLowerCase (pcStart node)) node (byPcStart ix))
    (add_partials (partial_keys nameLower) node (byPartialName ix))
    (match range_of node with
     | Some r => pcRanges ix ++ [r]
     | None => pcRanges ix
     end).

(** [pcRanges.sort((a, b) => a.start - b.start)]: a stable sort. *)
Fixpoint insert_range (r : PcRange) (sorted : list PcRange) : list PcRange :=
  match sorted with
  | [] => [r]
  | x :: rest =>
      if (r_start x <=? r_start r)%Z then x :: insert_range r rest
      else r :: sorted
  end.

Definition sort_ranges (rs : list PcRange) : list PcRange :=
  fold_left (fun acc r => insert_range r acc) rs [].

(** [buildIndex] (lines 21-95) on the values of [nodeMap], in its order. *)
Definition buildIndex (nodes : list CallTreeNode) : EntryPointIndex :=
  let ix := fold_left index_node nodes empty in
  mkEntryIndex (byName ix) (byPcStart ix) (byPartialName ix)
               (sort_ranges (pcRanges ix)).

(** The [while] loop of [findByPcRange] (lines 158-171); the outer [None]
    means that the fuel ran out. *)
Fixpoint bsearch (fuel : nat) (ranges : list PcRange) (address left right : Z)
  : option (option CallTreeNode) :=
  if (right <? left)%Z then Some None
  else
    match fuel with
    | O => None
    | S fuel' =>
        let mid := ((left + right) / 2)%Z in
        match nth_error ranges (Z.to_nat mid) with
        | None => Some None
        | Some range =>
            if (r_start range <=? address)%Z && (address <=? r_end range)%Z
            then Some (Some (r_node range))
            else if (address <? r_start range)%Z
                 then bsearch fuel' ranges address left (mid - 1)%Z
                 else bsearch fuel' ranges address (mid + 1)%Z right
        end
    end.

(** [findByPcRange] (lines 151-174) *)
Definition findByPcRange (ix : EntryPointIndex) (address : Z) : option CallTreeNode :=
  match bsearch (S (length (pcRanges ix))) (pcRanges ix) address 0
                (Z.of_nat (length (pcRanges ix)) - 1)%Z with
  | Some r => r
  | None => None
  end.

(** [s.match(/^(0x)?[0-9a-fA-F]+$/)] *)
Definition all_hex (s : string) : bool :=
  negb (String.eqb s "") && String.eqb (dropWhile is_hex s) "".

Definition looks_like_address (s : string) : bool :=
  (startsWith "0x" s && all_hex (drop 2 s)) || all_hex s.

(** The address with its [0x] prefix (line 114). *)
Definition with_0x (s : string) : string :=
  if startsWith "0x" s then s else ("0x" ++ s)%string.

(** The first entry of [byName] whose key starts with [p] (lines 137-141). *)
Definition first_starting_with (p : string) (m : list (string * CallTreeNode))
  : option CallTreeNode :=
  match filter (fun kv => startsWith p (fst kv)) m with
  | (_, node) :: _ => Some node
  | [] => None
  end.

(** Step 3 of [findEntryNode] (lines 129-144). *)
Definition find_partial (ix : EntryPointIndex) (trimmedLower : string)
  : option CallTreeNode :=
  if (3 <=? String.length trimmedLower)%nat then
    match sget trimmedLower (byPartialName ix) with
    | Some (first :: _) => Some first
    | _ => first_starting_with trimmedLower (byName ix)
    end
  else None.

(** [findEntryNode] (lines 101-145) on a built index. *)
Definition findEntryNode (ix : EntryPointIndex) (entryPoint : string)
  : option CallTreeNode :=
  if String.eqb entryPoint "" then None
  else
    let trimmed := trim entryPoint in
    let trimmedLower := toLowerCase trimmed in
    match sget trimmedLower (byName ix) with
    | Some node => Some node
    | None =>
        if looks_like_address trimmed then
          let pcAddress := with_0x trimmed in
          match sget (toLowerCase pcAddress) (byPcStart ix) with
          | Some node => Some node
          | None =>
              match hex_number pcAddress with
              | Int addr => findByPcRange ix addr
              | NaN => find_partial ix trimmedLower
              end
          end
        else find_partial ix trimmedLower
    end.

End Matcher.

(* ================================================================== *)
(** ** Vocabulary of the statements about the parser *)

Module ParserSpec.
Import JsString JsNum Parser.

(** Some line of the text is an [events:] header. *)
Definition has_events_line (ls : list string) : bool :=
  existsb (fun l => startsWith "events:" (trim l)) ls.

(** Some [fl=] line of the text names a property inherited from
    [Object.prototype]. *)
Definition has_inherited_file (ls : list string) : bool :=
  existsb (fun l => startsWith "fl=" (trim l) && inherited (drop 3 (trim l))) ls.

(** Some line of the text is a [calls=] directive. *)
Definition has_calls_line (ls : list string) : bool :=
  existsb (fun l => startsWith "calls=" (trim l)) ls.

(** The current file, when there is one, has a record in [filesData]. *)
Definition file_known (st : state) : Prop :=
  match truthy_str (currentFile st) with
  | Some file => sget file (st_filesData st) <> None
  | None => True
  end.

(** The record of function [fn] of [file] in the parsed text, if any. *)
Definition parsed_function (content : string) (file fn : string)
  : option FunctionData :=
  match parse content with
  | Ok d => function_in d file fn
  | Throw _ => None
  end.

(** The count of event [e] on a line record ([undefined] reads as absent). *)
Definition line_count (l : LineData) (e : string) : option num :=
  sget e (line_events l).

(** The sum over the line records of [f] of their count for [e]. *)
Definition line_sum (f : FunctionData) (e : string) : num :=
  fold_left
    (fun acc '(_, l) =>
       add acc (match line_count l e with Some c => c | None => Int 0 end))
    (lines f) (Int 0).

(** The line record of line [n] of [f]. *)
Definition line_record (f : FunctionData) (n : Z) : option LineData :=
  Dict.lookup num_eqb (Int n) (lines f).

(** The PC record of [p] in [f]. *)
Definition pc_record (f : FunctionData) (p : string) : option PcLineData :=
  match pcData f with
  | Some d => sget p d
  | None => None
  end.

(** The state is in instruction-level callgrind mode. *)
Definition instr_mode (st : state) : Prop :=
  st_isCallgrind st = true /\ includes "instr" (st_positions st) = true.

(** The trimmed line [t] is an instruction-level data row for PC [p]. *)
Definition pc_row (t p : string) : Prop :=
  classify true t = DataRow
  /\ nth_str 0 (split_ws t) = p
  /\ startsWith "0x" p = true
  /\ (3 <= length (split_ws t))%nat.

(** The PC that the row [r] carries: its first field. *)
Definition pc_of (r : string) : string := nth_str 0 (split_ws (trim r)).

(** The rows are instruction-level data rows. *)
Definition pc_rows (rows : list string) : Prop :=
  Forall (fun r => pc_row (trim r) (pc_of r)) rows.

(** The PCs in the order in which they come first: [seen], then each new
    PC of [pcs] at the end. *)
Definition note_pc (seen : list string) (p : string) : list string :=
  if existsb (String.eqb p) seen then seen else seen ++ [p].

Definition first_seen (seen pcs : list string) : list string :=
  fold_left note_pc pcs seen.

(** The PC record that the row [t] alone describes. *)
Definition record_of_row (evs : list string) (t : string) : PcLineData :=
  let parts := split_ws t in
  let counts := fill_counts evs (map parseInt (skipn 2 parts)) in
  mkPcLineData (nth_str 0 parts) (parseInt (nth_str 1 parts))
               (for_each_count assign evs 0 counts [])
               (some_positive counts).

(** Inputs of the scenarios. *)
Definition scenario1 : string :=
  unlines ["# callgrind format"; "events: Ir Cy"; "positions: instr line";
           "fl=a.c"; "fn=f"; "0x1000 10 2 3"; "0x1004 10 4 5"; "summary: 6 8"].

Definition scenario2 : string :=
  unlines ["events: Ir"; "fl=x.c"; "fn=g"; "5 100"; "7 0"].

Definition rows_without_events : string :=
  unlines ["fl=x.c"; "fn=g"; "5 1"].

Definition inherited_file_name : string :=
  unlines ["fl=constructor"; "fn=f"].

Definition calls_without_function : string :=
  unlines ["events: Ir"; "fl=a.c"; "fn=f"; "fl=b.c"; "calls=1 0"; "0x10 1 1"].

Definition repeated_line : string :=
  unlines ["events: Ir"; "fl=a.c"; "fn=f"; "5 1"; "5 2"].

Definition scenario3 : string :=
  unlines ["# callgrind format"; "events: Ir Cy"; "positions: instr line";
           "fl=a.c"; "fn=f";
           "cfi=b.c"; "cfn=h"; "calls=3 0x2000"; "0x2000 20 12 0"].

(** The parser state inside function [f] of [a.c], in instruction-level
    callgrind mode with the vocabulary [Ir Cy]. *)
Definition inside_f : state :=
  mkState ["Ir"; "Cy"] "" ""
          [("a.c", mkFileInfo [("f", mkFunctionData [] [("Ir", Int 0); ("Cy", Int 0)]
                                                    (Some []) None)]
                              None)]
          [] true None "instr line" None None (Some "a.c") (Some "f").

Definition repeated_pc : string :=
  unlines ["# callgrind format"; "events: Ir Cy"; "positions: instr line";
           "fl=a.c"; "fn=f"; "0x1000 10 2 3"; "0x1000 10 4 5"].


End ParserSpec.

(* ================================================================== *)
(** ** Vocabulary of the statements about the call tree *)

Module CallTreeSpec.
Import JsString JsNum CallTree.






(** The functions of [functionMap] whose key is not in [visited]. *)
Definition unvisited (functionMap : list (string * FuncInfo))
           (visited : list string) : nat :=
  length (filter (fun kv => negb (mem (fst kv) visited)) functionMap).

(** No path of the tree has more than [bound] expansions. *)
Definition depth_within (bound : nat) (t : CallTreeNode) : Prop :=
  (expansion_depth t <= bound)%nat.



(** The parser state inside function [f] of [a.c], after a row of [f] for PC
    [0x2000]. *)
Definition after_first_pc : Parser.state :=
  match Parser.loop ParserSpec.inside_f ["0x2000 10 1 1"] with
  | Parser.Ok st => st
  | Parser.Throw _ => ParserSpec.inside_f
  end.

(** A callgrind text in which [f] calls [g] from two places. *)
Definition two_calls_of_g : string :=
  unlines ["# callgrind format"; "events: Ir"; "positions: instr line";
           "fl=a.c";
           "fn=g"; "0x2000 5 1";
           "fn=f"; "0x1000 1 1";
           "cfn=g"; "calls=1 0x2000"; "0x1004 2 5";
           "cfn=g"; "calls=1 0x2000"; "0x1008 3 5"].

Definition two_calls_map : list (string * FuncInfo) :=
  match Parser.parse two_calls_of_g with
  | Parser.Ok d => functionMap_of d
  | Parser.Throw _ => []
  end.

End CallTreeSpec.

(* ================================================================== *)
(** ** Vocabulary of the statements about the search index *)

Module SearchSpec.
Import JsString CallTree Search.

(** A node without children called [name]. *)
Definition leaf (i : nat) (name : string) : CallTreeNode :=
  mkNode (node_ i) name "a.c" "" "" 1 0 0 [] None.

(** The set [termToNodes.get(t)], empty when absent. *)
Definition nodes_for (ix : SearchIndex) (t : string) : list CallTreeNode :=
  match sget t (termToNodes ix) with
  | Some s => s
  | None => []
  end.

(** The node has an entry in [nodeToTerms]. *)
Definition known (ix : SearchIndex) (n : CallTreeNode) : Prop :=
  Dict.lookup same_node n (nodeToTerms ix) <> None.

(** Every indexed node is listed under its lowercase name. *)
Definition listed_by_name (ix : SearchIndex) : Prop :=
  forall m, In m (indexed ix) ->
            NodeSet.has (nodes_for ix (toLowerCase (functionName m))) m = true.

(** A function [" f"] (its [fn=] line has a blank after the [=]) among five
    functions whose names start with [f]. *)
Definition spaced_name_nodes : list CallTreeNode :=
  [leaf 0 " f"; leaf 1 "f1"; leaf 2 "f2"; leaf 3 "f3"; leaf 4 "f4"; leaf 5 "f5"].

(** The nodes of scenario 5. *)
Definition scenario5_nodes : list CallTreeNode :=
  [leaf 0 "handle_timer_interrupt"; leaf 1 "handle_io_complete";
   leaf 2 "update_system_timers"].

End SearchSpec.

(* ================================================================== *)
(** ** Vocabulary of the statements about the entry-point matcher *)

Module MatcherSpec.
Import JsString JsNum CallTree Matcher.

(** A node called [name] with the PC range [[s, e]]. *)
Definition ranged (i : nat) (name s e : string) : CallTreeNode :=
  mkNode (node_ i) name "a.c" s e 1 0 0 [] None.

(** [addr] lies in the range. *)
Definition contains (r : PcRange) (addr : Z) : Prop :=
  (r_start r <= addr <= r_end r)%Z.

(** [addr] lies in [[n.pcStart, n.pcEnd]], both non-empty and read as
    hexadecimal Numbers. *)
Definition covers (n : CallTreeNode) (addr : Z) : bool :=
  match range_of n with
  | Some r => (r_start r <=? addr)%Z && (addr <=? r_end r)%Z
  | None => false
  end.

(** The ranges of the nodes that have one, in the order of the nodes. *)
Definition ranges_of (nodes : list CallTreeNode) : list PcRange :=
  flat_map (fun n => match range_of n with Some r => [r] | None => [] end) nodes.

Definition valid (r : PcRange) : Prop := (r_start r <= r_end r)%Z.

Definition disjoint (a b : PcRange) : Prop :=
  (r_end a < r_start b)%Z \/ (r_end b < r_start a)%Z.

(** The first range ends before the second starts. *)
Definition before (a b : PcRange) : Prop := (r_end a < r_start b)%Z.

(** No two of the indexed ranges share an address. *)
Definition ranges_disjoint (nodes : list CallTreeNode) : Prop :=
  ForallOrdPairs disjoint (ranges_of nodes).

(** The string [x] is an address, the Number [addr]. *)
Definition address_query (x : string) (addr : Z) : Prop :=
  x <> ""
  /\ looks_like_address (trim x) = true
  /\ hex_number (with_0x (trim x)) = Int addr.

(** The key under which [x] is looked up in [byPcStart]. *)
Definition normalized (x : string) : string := toLowerCase (with_0x (trim x)).

(** The node that was indexed last among those whose [pcStart], in lower
    case, is [k]. *)
Definition last_with_pcStart (k : string) (nodes : list CallTreeNode)
  : option CallTreeNode :=
  find (fun n => negb (String.eqb (pcStart n) "")
                 && String.eqb (toLowerCase (pcStart n)) k)
       (List.rev nodes).

(** Scenario 4. *)
Definition node_f : CallTreeNode := ranged 0 "f" "0x1000" "0x1010".
Definition node_g : CallTreeNode := ranged 1 "g" "0x2000" "0x2040".

(** A function without symbol, which callgrind names by an address. *)
Definition named_0x1008 : CallTreeNode := ranged 2 "0x1008" "0x3000" "0x3010".

(** Two functions that start at the same address. *)
Definition node_f2 : CallTreeNode := ranged 3 "f2" "0x1000" "0x1004".

(** Addresses of 64 bits, which no double tells apart. *)
Definition node_k : CallTreeNode :=
  ranged 4 "k" "0xffffffffffffff00" "0xffffffffffffff10".

(** A function whose range encloses the ranges of two others. *)
Definition outer : CallTreeNode := ranged 0 "outer" "0x1000" "0x1100".
Definition inner1 : CallTreeNode := ranged 1 "inner1" "0x1010" "0x1020".
Definition inner2 : CallTreeNode := ranged 2 "inner2" "0x1030" "0x1040".

End MatcherSpec.

(* ================================================================== *)
(** ** Further vocabulary about the parser *)

Module ParserProps.
Import JsString JsNum Parser ParserSpec.

(** Every [fl=] line of the text is directly followed by an [fn=] line (an
    [fl=] line may also be the last line). *)
Fixpoint fl_then_fn (ls : list string) : bool :=
  match ls with
  | l :: (next :: _) as rest =>
      (negb (startsWith "fl=" (trim l)) || startsWith "fn=" (trim next))
      && fl_then_fn rest
  | _ => true
  end.

(** The current function, when there is one inside a current file, has a
    record in that file. *)
Definition function_known (st : state) : Prop :=
  forall file fn,
    truthy_str (currentFile st) = Some file ->
    truthy_str (currentFunction st) = Some fn ->
    function_of st file fn <> None.

(** The two states agree on everything but the function records. *)
Definition same_scope (st st' : state) : Prop :=
  st_events st' = st_events st
  /\ st_isCallgrind st' = st_isCallgrind st
  /\ st_positions st' = st_positions st
  /\ currentFile st' = currentFile st
  /\ currentFunction st' = currentFunction st.

(** The counts of a function record: all of it but its call list. *)
Definition counts_of (f : FunctionData)
  : list (num * LineData) * list (string * num) * option (list (string * PcLineData)) :=
  (lines f, totals f, pcData f).

(** The two states hold the same counts in every function record. *)
Definition same_counts (st st' : state) : Prop :=
  forall file fn,
    option_map counts_of (function_of st' file fn)
    = option_map counts_of (function_of st file fn).

(** The counts written on a callgrind row, after the PC and the line. *)
Definition written_counts (t : string) : list num :=
  map parseInt (skipn 2 (split_ws t)).

(** A well-formed text: a file and a function, then a call. *)
Definition paired_text : list string :=
  ["events: Ir"; "fl=a.c"; "fn=f"; "fl=b.c"; "fn=g"; "cfn=f"; "calls=1 0";
   "0x10 1 1"].

End ParserProps.

(* ================================================================== *)
(** ** Further vocabulary about the call tree *)

Module CallTreeProps.
Import JsString JsNum CallTree.

(** The number drawn from the counter [nodeId] for an id. *)
Definition id_num (i : node_id) : nat :=
  match i with
  | node_ n => n
  | stub_ n => n
  end.

(** The ids of a tree, the node before its children, the children in
    order. *)
Fixpoint ids (n : CallTreeNode) : list node_id :=
  match n with
  | mkNode i _ _ _ _ _ _ _ kids _ => i :: flat_map ids kids
  end.

(** The calls that name a target function: those that give a child. *)
Definition targeted (cs : list Parser.CallInfo) : list Parser.CallInfo :=
  filter (fun c => match Parser.truthy_str (Parser.targetFunction c) with
                   | Some _ => true
                   | None => false
                   end) cs.

(** The recursive call numbers its tree from the counter on, in order. *)
Definition numbers_in_order
           (rec : string -> nat -> option (option CallTreeNode * nat)) : Prop :=
  forall k n r n',
    rec k n = Some (r, n') ->
    match r with
    | Some t => (n < n')%nat /\ map id_num (ids t) = seq n (n' - n)
    | None => n' = n
    end.

End CallTreeProps.

(* ================================================================== *)
(** ** The roots of the call tree and the node map *)

Module CallForest.
Import JsString JsNum CallTree CallTreeProps.

(** [call.targetFile || filename] *)
Definition target_file (call : Parser.CallInfo) (filename : string) : string :=
  match Parser.truthy_str (Parser.targetFile call) with
  | Some f => f
  | None => filename
  end.

(** The body of [funcData.calls.forEach] in the collection of the
    parent-child relationships (lines 98-110). *)
Definition note_call (filename parentKey : string)
           (m : list (string * list string)) (call : Parser.CallInfo)
  : list (string * list string) :=
  match Parser.truthy_str (Parser.targetFunction call) with
  | Some tfn =>
      let childKey := key_of (target_file call filename) tfn in
      sput childKey
           (match sget childKey m with Some ps => ps | None => [] end ++ [parentKey])
           m
  | None => m
  end.

(** [childToParentMap] (lines 90-113) *)
Definition childToParentMap (d : Parser.CachegrindData) : list (string * list string) :=
  fold_left
    (fun m '(filename, fileData) =>
       fold_left
         (fun m '(funcName, fd) =>
            fold_left (note_call filename (key_of filename funcName))
                      (calls_or_empty fd) m)
         (Parser.functions fileData) m)
    (Parser.fileCoverage d) [].

(** [rootFunctionKeys] (lines 116-118): the functions that are never
    called. *)
Definition rootFunctionKeys (d : Parser.CachegrindData) : list string :=
  filter (fun key => negb (mem key (Dict.keys (childToParentMap d))))
         (Dict.keys (functionMap_of d)).

(** The body of [rootFunctionKeys.forEach] (lines 173-179): a root without
    self time is left out, the counter goes on. *)
Definition add_root (fm : list (string * FuncInfo))
           (st : list CallTreeNode * nat) (rootKey : string)
  : list CallTreeNode * nat :=
  match subtree_from fm rootKey (snd st) with
  | Some (Some rootTree, nid') =>
      if (0 <? selfTime rootTree)%Z then (fst st ++ [rootTree], nid')
      else (fst st, nid')
  | Some (None, nid') => (fst st, nid')
  | None => st
  end.

(** [rootNodes], with the counter [nodeId] after them. *)
Definition build_roots (fm : list (string * FuncInfo)) (roots : list string)
  : list CallTreeNode * nat :=
  fold_left (add_root fm) roots ([], 0%nat).

(** [callTreeData] *)
Definition callTreeData (d : Parser.CachegrindData) : list CallTreeNode :=
  fst (build_roots (functionMap_of d) (rootFunctionKeys d)).

Definition node_key (n : CallTreeNode) : string :=
  key_of (fileName n) (functionName n).

(** [addToNodeMap] (lines 182-188): the first node met under a key stays. *)
Fixpoint addToNodeMap (node : CallTreeNode) (m : list (string * CallTreeNode))
  : list (string * CallTreeNode) :=
  match node with
  | mkNode _ fn file _ _ _ _ _ kids _ =>
      let key := key_of file fn in
      let m1 := match sget key m with
                | Some _ => m
                | None => sput key node m
                end in
      fold_left (fun acc child => addToNodeMap child acc) kids m1
  end.

(** [nodeMap] (line 190).  The totals that [calculateTotalCycles] then
    writes on its nodes are their self times: a call of the parser carries
    no inclusive events. *)
Definition nodeMap_of (roots : list CallTreeNode) : list (string * CallTreeNode) :=
  fold_left (fun acc root => addToNodeMap root acc) roots [].

(** The nodes of a tree, the node before its children. *)
Fixpoint nodes_of (n : CallTreeNode) : list CallTreeNode :=
  match n with
  | mkNode _ _ _ _ _ _ _ _ kids _ => n :: flat_map nodes_of kids
  end.

(** Some call of the profile targets [key]. *)
Definition called (d : Parser.CachegrindData) (key : string) : Prop :=
  exists filename fileData funcName fd call tfn,
    In (filename, fileData) (Parser.fileCoverage d)
    /\ In (funcName, fd) (Parser.functions fileData)
    /\ In call (calls_or_empty fd)
    /\ Parser.truthy_str (Parser.targetFunction call) = Some tfn
    /\ key = key_of (target_file call filename) tfn.

(** [key] is the key of a function of the profile. *)
Definition profiled (d : Parser.CachegrindData) (key : string) : Prop :=
  exists filename fileData funcName fd,
    In (filename, fileData) (Parser.fileCoverage d)
    /\ In (funcName, fd) (Parser.functions fileData)
    /\ key = key_of filename funcName.

(** A profile in which [main] calls [work] and [work] calls itself. *)
Definition recursive_profile : string :=
  unlines ["# callgrind format"; "events: Ir"; "positions: instr line";
           "fl=a.c";
           "fn=work"; "0x2000 5 1";
           "cfn=work"; "calls=1 0x2000"; "0x2004 6 9";
           "fn=main"; "0x1000 1 1";
           "cfn=work"; "calls=1 0x2000"; "0x1004 2 5"].

Definition recursive_data : Parser.CachegrindData :=
  match Parser.parse recursive_profile with
  | Parser.Ok d => d
  | Parser.Throw _ => Parser.finish (Parser.initial false)
  end.

(** What holds of the trees built so far and of the counter. *)
Definition forest_ok (fm : list (string * FuncInfo)) (roots : list string)
           (st : list CallTreeNode * nat) : Prop :=
  (forall t, In t (fst st) ->
             (0 < selfTime t)%Z
             /\ exists key nid nid',
                 In key roots /\ subtree_from fm key nid = Some (Some t, nid'))
  /\ NoDup (map id_num (flat_map ids (fst st)))
  /\ (forall x, In x (map id_num (flat_map ids (fst st))) -> (x < snd st)%nat).

(** How [m'] extends [m] by the nodes [nodes]. *)
Definition map_ok (nodes : list CallTreeNode)
           (m m' : list (string * CallTreeNode)) : Prop :=
  (forall k, sget k m <> None -> sget k m' = sget k m)
  /\ (forall k v, sget k m' = Some v ->
                  sget k m = Some v \/ (In v nodes /\ k = node_key v))
  /\ (forall x, In x nodes -> sget (node_key x) m' <> None).

End CallForest.

(* ================================================================== *)
(** ** Vocabulary about strings *)

Module StringSpec.
Import JsString.

(** [t] occurs in [s] as a contiguous part. *)
Definition part_of (t s : string) : Prop :=
  exists a b, s = (a ++ t ++ b)%string.

(** Every character of [s] satisfies [p]. *)
Fixpoint all_chars (p : ascii -> bool) (s : string) : bool :=
  match s with
  | EmptyString => true
  | String c r => p c && all_chars p r
  end.

(** [s'] is [s] where some characters were replaced by a blank and some
    blanks were put in. *)
Inductive spaced : string -> string -> Prop :=
| spaced_nil : spaced EmptyString EmptyString
| spaced_keep c s s' : spaced s s' -> spaced (String c s) (String c s')
| spaced_blank c s s' : spaced s s' -> spaced (String c s) (String " " s')
| spaced_insert s s' : spaced s s' -> spaced s (String " " s').

End StringSpec.

(* ================================================================== *)
(** ** Further vocabulary about the search index *)

Module SearchProps.
Import JsString CallTree Search.

(** Every node listed under a term has that term among the terms of its
    own name. *)
Definition terms_sound (ix : SearchIndex) : Prop :=
  forall t s n, In (t, s) (termToNodes ix) -> In n s ->
                In t (terms_of (functionName n)).

End SearchProps.

(* ================================================================== *)
(** ** The ancestors to expand: [getAncestorsToExpand] *)

Module Ancestors.
Import JsString CallTree.

(** [buildParentMap] (lines 166-178): the map from the id of a node to the
    id of its parent. *)
Fixpoint buildParentMap (node : CallTreeNode) (parentId : option node_id)
         (pm : list (node_id * node_id)) : list (node_id * node_id) :=
  match node with
  | mkNode i _ _ _ _ _ _ _ kids _ =>
      let pm1 := match parentId with
                 | Some p => Dict.put id_eqb i p pm
                 | None => pm
                 end in
      fold_left (fun acc child => buildParentMap child (Some i) acc) kids pm1
  end.

(** The parent map of all root nodes (lines 181-185). *)
Definition parentMap_of (allNodes : list CallTreeNode) : list (node_id * node_id) :=
  fold_left (fun acc root => buildParentMap root None acc) allNodes [].

(** [toExpand.add(id)] *)
Definition add_id (i : node_id) (s : list node_id) : list node_id :=
  if existsb (id_eqb i) s then s else s ++ [i].

(** The [while] loop (lines 194-199), with [left] turns left of its 20. *)
Fixpoint walk_up (pm : list (node_id * node_id)) (left : nat) (currentId : node_id)
         (toExpand : list node_id) : list node_id :=
  match left with
  | O => toExpand
  | S left' =>
      match Dict.lookup id_eqb currentId pm with
      | Some parentId => walk_up pm left' parentId (add_id parentId toExpand)
      | None => toExpand
      end
  end.

(** [getAncestorsToExpand] (lines 161-203) *)
Definition getAncestorsToExpand (matches allNodes : list CallTreeNode)
  : list node_id :=
  let pm := parentMap_of allNodes in
  fold_left (fun acc m => walk_up pm 20 (id m) acc) (firstn 30 matches) [].

(** [i] is the id of a node of the trees that has a child. *)
Definition parent_id (allNodes : list CallTreeNode) (i : node_id) : Prop :=
  exists p c, In p (flat_map CallForest.nodes_of allNodes)
              /\ In c (children p) /\ id p = i.

(** Every entry of the parent map leads from a child to its parent. *)
Definition parents_ok (allNodes : list CallTreeNode)
           (pm : list (node_id * node_id)) : Prop :=
  forall c p, Dict.lookup id_eqb c pm = Some p -> parent_id allNodes p.

End Ancestors.

(* ================================================================== *)
(** ** Suggestions of the entry-point matcher: [getSuggestions] *)

Module Suggestions.
Import JsString JsNum CallTree Matcher.

Record Suggestion : Type := mkSuggestion {
  value : string;
  label : string;
  node : CallTreeNode
}.

(** A [for ... of] loop over the entries of a map that stops as soon as
    [limit] suggestions are there and adds [make key node] for every key
    that includes the query (lines 191-201 and 205-215). *)
Fixpoint suggest_from (limit : nat) (partialLower : string)
         (make : string -> CallTreeNode -> Suggestion)
         (entries : list (string * CallTreeNode)) (suggestions : list Suggestion)
  : list Suggestion :=
  match entries with
  | [] => suggestions
  | (key, n) :: rest =>
      if (limit <=? length suggestions)%nat then suggestions
      else suggest_from limit partialLower make rest
             (if includes partialLower key
              then suggestions ++ [make key n]
              else suggestions)
  end.

(** [getSuggestions] (lines 180-219) on a built index; [limit] is a natural
    number. *)
Definition getSuggestions (ix : EntryPointIndex) (partial : string) (limit : nat)
  : list Suggestion :=
  if String.eqb partial "" then []
  else
    let partialLower := trim (toLowerCase partial) in
    let names :=
      suggest_from limit partialLower
                   (fun _ n => mkSuggestion (functionName n)
                                            (functionName n ++ " (function)")%string n)
                   (byName ix) [] in
    if looks_like_address partial then
      suggest_from limit partialLower
                   (fun pc n => mkSuggestion pc (pc ++ " - " ++ functionName n)%string n)
                   (byPcStart ix) names
    else names.

(** The first range does not start after the second. *)
Definition start_le (a b : PcRange) : Prop := (r_start a <= r_start b)%Z.

(** The name without its leading underscores. *)
Definition without_underscores (name : string) : string :=
  dropWhile (Ascii.eqb "_") name.

(** The key [k] is a name of [n]: its lowercase name, with or without the
    leading underscores. *)
Definition names_node (k : string) (n : CallTreeNode) : Prop :=
  k = toLowerCase (functionName n)
  \/ k = toLowerCase (without_underscores (functionName n)).

End Suggestions.

(* ================================================================== *)
(** ** The source resolver: [resolveSourcePath] of [lib/path-utils.ts] *)

Module PathUtils.
Import JsString.

(** What [resolveSourcePath] returns: the content of a source file, [null],
    or, when the path itself names a property that every object inherits
    from [Object.prototype], that built-in value. *)
Inductive resolved : Type :=
| Content (c : string)
| BuiltIn
| Absent.

(** [p.split('/').filter(part => part.length > 0)] *)
Definition path_parts (p : string) : list string :=
  filter (fun part => negb (String.eqb part "")) (split_char "/" p).

(** [parts.join('/')] *)
Definition join (parts : list string) : string := String.concat "/" parts.

(** [sourceFiles[k]] in a condition: the content when it is there and is
    not empty. *)
Definition truthy_content (sourceFiles : list (string * string)) (k : string)
  : option string :=
  match sget k sourceFiles with
  | Some "" => None
  | other => other
  end.

(** The first of the candidates that has a non-empty content. *)
Fixpoint first_hit (sourceFiles : list (string * string)) (candidates : list string)
  : option string :=
  match candidates with
  | [] => None
  | k :: rest =>
      match truthy_content sourceFiles k with
      | Some c => Some c
      | None => first_hit sourceFiles rest
      end
  end.

(** The candidates of algorithms 1 and 3 (lines 32-40 and 49-57): the
    suffixes of the path that have at least two components, the longest
    first, under [prefix]. *)
Definition suffix_candidates (prefix : string) (pathParts : list string)
  : list string :=
  map (fun i => (prefix ++ "/" ++ join (skipn i pathParts))%string)
      (seq 0 (length pathParts - 1)).

(** [parts.slice(-n)] *)
Definition last_parts (n : nat) (parts : list string) : list string :=
  skipn (length parts - n) parts.

(** The last component, [undefined] for no component. *)
Definition base_name (parts : list string) : option string :=
  match parts with
  | [] => None
  | _ => Some (last parts "")
  end.

(** The test on one key of [sourceFiles] in the last loop (lines 63-80). *)
Definition name_matches (filename : string) (keyParts : list string) : bool :=
  match base_name keyParts with
  | Some b => String.eqb b filename
  | None => false
  end.

Definition suffix_matches (pathParts keyParts : list string) : bool :=
  (2 <=? length pathParts)%nat
  && existsb (fun minMatch =>
                String.eqb (join (last_parts minMatch pathParts))
                           (join (last_parts minMatch keyParts)))
             (seq 2 (Nat.min (length pathParts) (length keyParts) - 1)).

Definition key_matches (pathParts : list string) (filename key : string) : bool :=
  name_matches filename (path_parts key)
  || suffix_matches pathParts (path_parts key).

(** The candidates that are tried with a chosen directory (lines 25-58). *)
Definition probes (srcSubdir : option string) (pathParts : list string)
           (filename : string) : list string :=
  match Parser.truthy_str srcSubdir with
  | Some dir =>
      suffix_candidates dir pathParts
      ++ [(dir ++ "/" ++ filename)%string]
      ++ suffix_candidates ("src/" ++ dir) pathParts
  | None => []
  end.

(** Lines 16-85: what is tried when the path itself is no key. *)
Definition resolve_by_parts (srcSubdir : option string) (filePath : string)
           (files : list (string * string)) : resolved :=
  let pathParts := path_parts filePath in
  match base_name pathParts with
  | None => Absent
  | Some filename =>
      match first_hit files (probes srcSubdir pathParts filename) with
      | Some c => Content c
      | None =>
          match filter (fun kv => key_matches pathParts filename (fst kv)) files with
          | (_, content) :: _ => Content content
          | [] => Absent
          end
      end
  end.

(** [resolveSourcePath] (lines 3-86); [srcSubdir] is the directory chosen in
    the browser ([null] on the server), [sourceFiles] the files that are at
    hand ([undefined] when there are none).  File names are not array
    indices, so that the entries come in insertion order. *)
Definition resolveSourcePath (srcSubdir : option string) (filePath : string)
           (sourceFiles : option (list (string * string))) : resolved :=
  match sourceFiles with
  | None => Absent
  | Some files =>
      match sget filePath files with
      | Some EmptyString => resolve_by_parts srcSubdir filePath files
      | Some c => Content c
      | None =>
          if Parser.inherited filePath then BuiltIn
          else resolve_by_parts srcSubdir filePath files
      end
  end.

(** The files of scenario 6. *)
Definition scenario6_files : list (string * string) :=
  [("sub/main.c", "int main(void);"); ("src/sub/main.c", "int main(void) {}")].

(** *** For the statements *)

(** [s] has no slash. *)
Definition slash_free (s : string) : bool :=
  StringSpec.all_chars (fun c => negb (Ascii.eqb c "/")) s.

(** The content of the first file whose last component is that of
    [filePath]. *)
Definition by_base_name (filePath : string) (files : list (string * string))
  : resolved :=
  match base_name (path_parts filePath) with
  | None => Absent
  | Some filename =>
      match find (fun kv => name_matches filename (path_parts (fst kv))) files with
      | Some (_, content) => Content content
      | None => Absent
      end
  end.

End PathUtils.

(* ================================================================== *)
(** ** The post-processing of [parse]: the coverage figures *)

Module Coverage.
Import JsString JsNum Parser PathUtils.

(** [set.add(n)] on a [Set<number>]: in insertion order, [NaN] being the
    same value as [NaN]. *)
Definition set_add (n : num) (s : list num) : list num :=
  if existsb (num_eqb n) s then s else s ++ [n].

(** [Math.max(a, b)] *)
Definition max (a b : num) : num :=
  match a, b with
  | Int x, Int y => Int (Z.max x y)
  | _, _ => NaN
  end.

(** A key that is an array index: these come first, in ascending order,
    when the own properties of an object are listed. *)
Definition is_index (n : num) : bool :=
  match n with
  | Int z => (0 <=? z)%Z && (z <? 4294967295)%Z
  | NaN => false
  end.

Definition index_leb (a b : num) : bool :=
  match a, b with
  | Int x, Int y => (x <=? y)%Z
  | _, _ => true
  end.

Fixpoint insert_entry {V : Type} (e : num * V) (l : list (num * V))
  : list (num * V) :=
  match l with
  | [] => [e]
  | x :: r => if index_leb (fst e) (fst x) then e :: l else x :: insert_entry e r
  end.

(** [Object.entries(funcData.lines)], the keys read back by [parseInt]. *)
Definition own_entries {V : Type} (d : list (num * V)) : list (num * V) :=
  fold_right insert_entry [] (filter (fun e => is_index (fst e)) d)
  ++ filter (fun e => negb (is_index (fst e))) d.

(** The locals of one turn of the loop over the files (lines 293-295). *)
Record scan : Type := mkScan {
  coveredLineNumbers : list num;
  uncoveredLineNumbers : list num;
  maxLine : num
}.

(** The coverage fields of a function record; [coveragePercentage], a
    quotient of doubles, is left out. *)
Record FunctionCoverage : Type := mkFunctionCoverage {
  fn_coveredLines : list num;
  fn_uncoveredLines : list num
}.

(** One line of a function (lines 299-310). *)
Definition scan_line (acc : scan * FunctionCoverage) (e : num * LineData)
  : scan * FunctionCoverage :=
  let (sc, fc) := acc in
  let lineNum := fst e in
  let m := max (maxLine sc) lineNum in
  if line_executed (snd e) then
    (mkScan (set_add lineNum (coveredLineNumbers sc)) (uncoveredLineNumbers sc) m,
     mkFunctionCoverage (fn_coveredLines fc ++ [lineNum]) (fn_uncoveredLines fc))
  else
    (mkScan (coveredLineNumbers sc) (set_add lineNum (uncoveredLineNumbers sc)) m,
     mkFunctionCoverage (fn_coveredLines fc) (fn_uncoveredLines fc ++ [lineNum])).

(** One function of a file (lines 298-318); its arrays [coveredLines] and
    [uncoveredLines] are empty before. *)
Definition scan_function (acc : scan * list (string * FunctionCoverage))
           (nf : string * FunctionData)
  : scan * list (string * FunctionCoverage) :=
  let (sc, done) := acc in
  let (sc', fc) :=
    fold_left scan_line (own_entries (lines (snd nf)))
              (sc, mkFunctionCoverage [] []) in
  (sc', done ++ [(fst nf, fc)]).

Definition scan_file (fi : FileInfo) : scan * list (string * FunctionCoverage) :=
  fold_left scan_function (functions fi) (mkScan [] [] (Int 0), []).

(** An entry of [fileCoverage] (lines 336-348).  The two sets are kept as
    they are before they are sorted; the percentage is left out. *)
Record FileCoverage : Type := mkFileCoverage {
  sourceFilePath : string;
  totalLines : num;
  compiledLines : nat;
  coveredLines : nat;
  coveredLineSet : list num;
  uncoveredLineSet : list num;
  sourceCode : string;
  function_coverage : list (string * FunctionCoverage);
  fc_objectFile : option string
}.

(** One turn of the loop over the files (lines 292-349).  A source that is a
    built-in value has no [split]. *)
Definition file_coverage (srcSubdir : option string)
           (sourceFiles : list (string * string))
           (entry : string * FileInfo) : result FileCoverage :=
  let (filePath, fileInfo) := entry in
  let (sc, fcs) := scan_file fileInfo in
  let covered := length (coveredLineNumbers sc) in
  let compiled := (covered + length (uncoveredLineNumbers sc))%nat in
  let make total source :=
    mkFileCoverage filePath total compiled covered
                   (coveredLineNumbers sc) (uncoveredLineNumbers sc)
                   source fcs (objectFile fileInfo) in
  match resolveSourcePath srcSubdir filePath (Some sourceFiles) with
  | BuiltIn => Throw TypeError
  | Content (String a r) =>
      let c := String a r in
      Ok (make (Int (Z.of_nat (length (split_char LF c)))) c)
  | _ => Ok (make (maxLine sc) "Source code not available")
  end.

(** What the post-processing adds to the data that [parse] returns: the
    coverage of each file and the totals of the project (lines 288-364; the
    percentage is left out).  File names are not array indices, so that
    [Object.entries] lists them in insertion order. *)
Record ProjectCoverage : Type := mkProjectCoverage {
  project_files : list (string * FileCoverage);
  totalProjectLines : nat;
  totalProjectCoveredLines : nat
}.

Definition add_file (srcSubdir : option string)
           (sourceFiles : list (string * string))
           (acc : result ProjectCoverage) (entry : string * FileInfo)
  : result ProjectCoverage :=
  match acc with
  | Throw e => Throw e
  | Ok p =>
      match file_coverage srcSubdir sourceFiles entry with
      | Throw e => Throw e
      | Ok fc =>
          Ok (mkProjectCoverage
                (project_files p ++ [(fst entry, fc)])
                (totalProjectLines p + compiledLines fc)
                (totalProjectCoveredLines p + coveredLines fc))
      end
  end.

Definition post_process (srcSubdir : option string)
           (sourceFiles : list (string * string))
           (filesData : list (string * FileInfo)) : result ProjectCoverage :=
  fold_left (add_file srcSubdir sourceFiles) filesData
            (Ok (mkProjectCoverage [] 0 0)).

(** [Object.keys(fileCoverage).length] *)
Definition filesAnalyzed (p : ProjectCoverage) : nat := length (project_files p).

(** *** For the statements *)

(** No file of [filesData] goes by a name that objects inherit. *)
Definition own_names (filesData : list (string * FileInfo)) : Prop :=
  forall k, In k (Dict.keys filesData) -> inherited k = false.

(** Some function among [fs] has a record for line [n] that is, or is not,
    executed. *)
Definition seen (fs : list (string * FunctionData)) (executed : bool) (n : num)
  : Prop :=
  exists fn f ld,
    In (fn, f) fs /\ In (n, ld) (lines f) /\ line_executed ld = executed.






End Coverage.

(* ================================================================== *)
(** * Theorems *)

(** ** Dictionaries *)

Module DictFacts.

Lemma sget_sput_same {V : Type} (k : string) (v : V) (d : list (string * V)) :
  sget k (sput k v d) = Some v.
Proof.
  unfold sget, sput.
  induction d as [|[k' v'] d IH]; simpl.
  - now rewrite String.eqb_refl.
  - destruct (String.eqb k k') eqn:E; simpl; rewrite E; auto.
Qed.

Lemma sget_sput_other {V : Type} (k k' : string) (v : V) (d : list (string * V)) :
  k <> k' -> sget k (sput k' v d) = sget k d.
Proof.
  intros Hne. unfold sget, sput.
  induction d as [|[k0 v0] d IH]; simpl.
  - apply String.eqb_neq in Hne. now rewrite Hne.
  - destruct (String.eqb k' k0) eqn:E; simpl.
    + apply String.eqb_eq in E. subst k0.
      apply String.eqb_neq in Hne. now rewrite Hne.
    + now rewrite IH.
Qed.

Lemma sget_sput_known {V : Type} (k k' : string) (v : V) (d : list (string * V)) :
  sget k d <> None -> sget k (sput k' v d) <> None.
Proof.
  intros H. destruct (String.eqb k k') eqn:E.
  - apply String.eqb_eq in E. subst. now rewrite sget_sput_same.
  - apply String.eqb_neq in E. now rewrite sget_sput_other.
Qed.

End DictFacts.

(* ================================================================== *)
(** ** The parser *)

Module ParserFacts.
Import JsString JsNum Parser ParserSpec DictFacts.

(** *** What a turn of the loop leaves alone *)

Lemma store_function_events st file fn f :
  st_events (store_function st file fn f) = st_events st.
Proof. unfold store_function. now destruct (sget file (st_filesData st)). Qed.

Lemma store_function_currentFile st file fn f :
  currentFile (store_function st file fn f) = currentFile st.
Proof. unfold store_function. now destruct (sget file (st_filesData st)). Qed.

Lemma do_data_row_events st t : st_events (do_data_row st t) = st_events st.
Proof.
  unfold do_data_row.
  destruct (truthy_str (currentFile st)) as [file|]; auto.
  destruct (truthy_str (currentFunction st)) as [fn|]; auto.
  destruct (function_of st file fn);
    repeat match goal with
           | |- context [if ?c then _ else _] => destruct c
           end; auto using store_function_events.
Qed.

Lemma classify_events cg t : classify cg t = Events -> startsWith "events:" t = true.
Proof.
  unfold classify.
  repeat match goal with
         | |- context [if ?c then _ else _] => destruct c eqn:?
         end; try discriminate; auto.
Qed.

Lemma classify_fl cg t : classify cg t = Fl -> startsWith "fl=" t = true.
Proof.
  unfold classify.
  repeat match goal with
         | |- context [if ?c then _ else _] => destruct c eqn:?
         end; try discriminate; auto.
Qed.

Lemma classify_calls cg t : classify cg t = Calls -> startsWith "calls=" t = true.
Proof.
  unfold classify.
  repeat match goal with
         | |- context [if ?c then _ else _] => destruct c eqn:?
         end; try discriminate; auto.
Qed.

Lemma step_keeps_events st t next st' b :
  startsWith "events:" t = false ->
  step st t next = Ok (st', b) -> st_events st' = st_events st.
Proof.
  intros Hev. unfold step.
  destruct (classify (st_isCallgrind st) t) eqn:C;
    try (intros [= <- <-]; reflexivity).
  - apply classify_events in C. congruence.
  - unfold do_fn.
    destruct (truthy_str (currentFile st)) as [file|];
      [destruct (truthy_str (Some (drop 3 t)));
       [destruct (sget file (st_filesData st))|]|];
      intros [= <- <-]; try rewrite store_function_events; reflexivity.
  - unfold do_calls.
    destruct next as [nl|]; [|intros [= <- <-]; reflexivity].
    destruct (match_pc (trim nl)), (truthy_str (currentFunction st)) as [fn|],
      (truthy_str (currentFile st)) as [file|];
      try (intros [= <- <-]; reflexivity).
    destruct (function_of st file fn); intros [= <- <-].
    simpl. now rewrite store_function_events.
  - intros [= <- <-]. apply do_data_row_events.
Qed.

(** *** The current file always has a record *)

Lemma store_function_known st file fn f k :
  sget k (st_filesData st) <> None ->
  sget k (st_filesData (store_function st file fn f)) <> None.
Proof.
  unfold store_function. destruct (sget file (st_filesData st)); simpl; auto.
  apply sget_sput_known.
Qed.

Lemma store_function_file_known st file fn f :
  file_known st -> file_known (store_function st file fn f).
Proof.
  unfold file_known. rewrite store_function_currentFile.
  destruct (truthy_str (currentFile st)); auto using store_function_known.
Qed.

Lemma do_fl_file_known st t :
  inherited (drop 3 t) = false -> file_known (do_fl st t).
Proof.
  unfold file_known, do_fl.
  generalize (drop 3 t) as file. intros file Hinh. rewrite Hinh.
  cbn [currentFile set_currentFile set_scope st_filesData set_filesData].
  destruct file as [|c r]; [exact I|].
  cbn [truthy_str]. set (file := String c r) in *.
  destruct (sget file (st_filesData st)) eqn:G.
  - destruct (truthy_str (st_currentObjectFile st)).
    + now rewrite sget_sput_same.
    + now rewrite G.
  - now rewrite sget_sput_same.
Qed.

Lemma do_data_row_file_known st t : file_known st -> file_known (do_data_row st t).
Proof.
  intros H. unfold do_data_row.
  destruct (truthy_str (currentFile st)) as [file|]; auto.
  destruct (truthy_str (currentFunction st)) as [fn|]; auto.
  destruct (function_of st file fn);
    repeat match goal with
           | |- context [if ?c then _ else _] => destruct c
           end; auto using store_function_file_known.
Qed.

Lemma step_returns st t next :
  startsWith "calls=" t = false ->
  startsWith "fl=" t && inherited (drop 3 t) = false ->
  file_known st ->
  exists st' b, step st t next = Ok (st', b) /\ file_known st'.
Proof.
  intros Hc Hfl K. unfold step.
  destruct (classify (st_isCallgrind st) t) eqn:C;
    try (eexists; eexists; split; [reflexivity | exact K]).
  - eexists; eexists; split; [reflexivity | apply do_fl_file_known].
    apply classify_fl in C. now rewrite C in Hfl.
  - unfold do_fn. unfold file_known in K.
    destruct (truthy_str (currentFile st)) as [file|] eqn:F.
    + destruct (truthy_str (Some (drop 3 t))).
      * destruct (sget file (st_filesData st)) eqn:G; [|congruence].
        eexists; eexists; split; [reflexivity|].
        apply store_function_file_known. unfold file_known. simpl.
        rewrite F. congruence.
      * eexists; eexists; split; [reflexivity|].
        unfold file_known. simpl. rewrite F. exact K.
    + eexists; eexists; split; [reflexivity|].
      unfold file_known. simpl. now rewrite F.
  - apply classify_calls in C. congruence.
  - eexists; eexists; split; [reflexivity | now apply do_data_row_file_known].
Qed.

(** *** The loop without an [events:] line *)

Lemma loop_without_events n :
  forall ls st, (length ls <= n)%nat -> has_events_line ls = false ->
    (forall st', loop st ls = Ok st' -> st_events st' = st_events st)
    /\ (has_calls_line ls = false -> has_inherited_file ls = false ->
        file_known st ->
        exists st', loop st ls = Ok st').
Proof.
  induction n as [|n IH]; intros ls st Hlen Hev.
  - destruct ls; [|simpl in Hlen; lia].
    split; [now intros st' [= <-] | intros; now exists st].
  - destruct ls as [|l rest].
    { split; [now intros st' [= <-] | intros; now exists st]. }
    simpl in Hlen. simpl in Hev. apply orb_false_iff in Hev as [Hl Hrest].
    assert (Hrest' : forall x r, rest = x :: r -> has_events_line r = false).
    { intros x r ->. simpl in Hrest. now apply orb_false_iff in Hrest. }
    split.
    + intros st'. simpl.
      destruct (step st (trim l) (hd_error rest)) as [[st1 b]|] eqn:S; [|discriminate].
      apply (step_keeps_events _ _ _ _ _ Hl) in S.
      destruct b.
      * destruct rest as [|x r]; [intros [= <-]; exact S|].
        intros L. rewrite <- S.
        apply (proj1 (IH r st1 ltac:(simpl in Hlen; lia) (Hrest' _ _ eq_refl)) _ L).
      * intros L. rewrite <- S.
        apply (proj1 (IH rest st1 ltac:(lia) Hrest) _ L).
    + intros Hcalls Hinh K. cbn [has_calls_line existsb] in Hcalls.
      cbn [has_inherited_file existsb] in Hinh.
      apply orb_false_iff in Hcalls as [Hcl Hcrest].
      apply orb_false_iff in Hinh as [Hil Hirest].
      destruct (step_returns st (trim l) (hd_error rest) Hcl Hil K)
        as (st1 & b & S & K1).
      cbn [loop]. rewrite S. destruct b.
      * destruct rest as [|x r]; [now exists st1|].
        cbn [existsb] in Hcrest, Hirest.
        apply orb_false_iff in Hcrest as [_ Hcr].
        apply orb_false_iff in Hirest as [_ Hir].
        apply (proj2 (IH r st1 ltac:(simpl in Hlen; lia) (Hrest' _ _ eq_refl))
                     Hcr Hir K1).
      * apply (proj2 (IH rest st1 ltac:(lia) Hrest) Hcrest Hirest K1).
Qed.

(** *** Parsing without a vocabulary *)

(** C1, as stated, fails: this text has a data row inside a function and no
    [events:] line, and [parse] returns a profile (with the empty
    vocabulary, the row recorded as a line without counts) instead of
    failing. *)
Lemma rows_without_events_parse :
  parse rows_without_events
  = Ok (mkCachegrindData "Unknown" false "" []
          [("x.c", mkFileInfo
                     [("g", mkFunctionData [(Int 5, mkLineData [] false)] [] None None)]
                     None)]
          []).
Proof. vm_compute. reflexivity. Qed.

(** C1 (amended): when the text has no [events:] line, parsing does not
    fail for want of a vocabulary: every profile that [parse] returns has the
    empty vocabulary, and [parse] does return a profile when, moreover, the
    text has no [calls=] line and no [fl=] line that names a property
    inherited from [Object.prototype] (the two places where [parse] can
    raise a [TypeError]). *)
Theorem parse_without_events_line (content : string) :
  has_events_line (split_char LF content) = false ->
  (forall d, parse content = Ok d -> events_of d = [])
  /\ (has_calls_line (split_char LF content) = false ->
      has_inherited_file (split_char LF content) = false ->
      exists d, parse content = Ok d).
Proof.
  intros Hev. unfold parse, parse_lines.
  set (ls := split_char LF content) in *.
  set (st0 := initial _).
  destruct (loop_without_events (length ls) ls st0 (le_n _) Hev) as [Hkeep Hret].
  split.
  - intros d. destruct (loop st0 ls) as [st|] eqn:L; [|discriminate].
    intros [= <-]. simpl. now rewrite (Hkeep st eq_refl).
  - intros Hc Hi. destruct (Hret Hc Hi I) as [st L]. rewrite L. now eexists.
Qed.

Lemma parse_without_events_line_witness :
  has_events_line (split_char LF rows_without_events) = false
  /\ (forall d, parse rows_without_events = Ok d -> events_of d = [])
  /\ exists d, parse rows_without_events = Ok d.
Proof.
  split; [reflexivity|].
  destruct (parse_without_events_line rows_without_events eq_refl) as [H1 H2].
  split; [exact H1 | apply H2; reflexivity].
Defined.

(** A path that names an inherited property gets no record: the [fn=] line
    that follows reads [functions] of a built-in value. *)
Example inherited_file_name_throws :
  parse inherited_file_name = Throw TypeError.
Proof. vm_compute. reflexivity. Qed.

(** *** Exceptions *)

(** C2 at its failing input: after [fl=b.c] the current function [f] has no
    record in [b.c]; the [calls=] branch reads [.calls] of [undefined]
    outside any [try], and [parse] raises a [TypeError]. *)
Theorem calls_without_function_throws :
  parse calls_without_function = Throw TypeError.
Proof. vm_compute. reflexivity. Qed.

(** *** Totals and line records *)

(** Scenario 1: in instruction-level callgrind mode the two rows of line 10
    are summed into its line record and into the totals, and each PC has its
    own record. *)
Example scenario1_function :
  parsed_function scenario1 "a.c" "f"
  = Some (mkFunctionData
            [(Int 10, mkLineData [("Ir", Int 6); ("Cy", Int 8)] true)]
            [("Ir", Int 6); ("Cy", Int 8)]
            (Some [("0x1000", mkPcLineData "0x1000" (Int 10)
                                           [("Ir", Int 2); ("Cy", Int 3)] true);
                   ("0x1004", mkPcLineData "0x1004" (Int 10)
                                           [("Ir", Int 4); ("Cy", Int 5)] true)])
            None)
  /\ match parse scenario1 with
     | Ok d => events_of d = ["Ir"; "Cy"]
               /\ summaryTotals d = [("Ir", Int 6); ("Cy", Int 8)]
     | Throw _ => False
     end.
Proof. split; vm_compute; [reflexivity | split; reflexivity]. Qed.

(** Scenario 2: line 5 is executed, line 7 is not. *)
Example scenario2_function :
  parsed_function scenario2 "x.c" "g"
  = Some (mkFunctionData
            [(Int 5, mkLineData [("Ir", Int 100)] true);
             (Int 7, mkLineData [("Ir", Int 0)] false)]
            [("Ir", Int 100)] None None).
Proof. vm_compute. reflexivity. Qed.

(** C3 at its failing input: a cachegrind text with two rows for line 5 of
    one function.  The second row replaces the line record while both rows
    are added to the totals: the total of [Ir] is 3, the sum over the line
    records is 2. *)
Theorem repeated_line_totals_differ :
  option_map (fun f => (sget "Ir" (totals f), line_sum f "Ir"))
             (parsed_function repeated_line "a.c" "f")
  = Some (Some (Int 3), Int 2).
Proof. vm_compute. reflexivity. Qed.

(** *** Call edges *)

(** C4, as stated, fails: in scenario 3 the function [a.c:f] has no line
    record for line 20. *)
Lemma scenario3_line20_absent :
  option_map (fun f => line_record f 20) (parsed_function scenario3 "a.c" "f")
  = Some None.
Proof. vm_compute. reflexivity. Qed.

(** C4 (amended): in scenario 3 the function [a.c:f] has exactly one
    outgoing call edge, with target file [b.c], target function [h], count 3
    and source PC [0x2000]; the row after [calls=] is consumed as the source
    row of the edge, so that the function has no line record (none for line
    20), no PC record, and totals 0. *)
Theorem scenario3_call_edge :
  parsed_function scenario3 "a.c" "f"
  = Some (mkFunctionData [] [("Ir", Int 0); ("Cy", Int 0)] (Some [])
            (Some [mkCallInfo (Some "b.c") (Some "h") 3 "0x2000"])).
Proof. vm_compute. reflexivity. Qed.

(** *** PC records *)

Lemma function_of_store st file fn f f' :
  function_of st file fn = Some f ->
  function_of (store_function st file fn f') file fn = Some f'.
Proof.
  unfold function_of, store_function.
  destruct (sget file (st_filesData st)) as [fi|] eqn:G; [|discriminate].
  intros _. simpl. rewrite sget_sput_same. simpl. apply sget_sput_same.
Qed.

Lemma pc_row_step st file fn f t p next :
  instr_mode st ->
  currentFile st = Some file -> file <> "" ->
  currentFunction st = Some fn -> fn <> "" ->
  function_of st file fn = Some f ->
  pc_row t p ->
  step st t next
  = Ok (store_function st file fn (callgrind_row (st_events st) (split_ws t) f),
        false).
Proof.
  intros [Hcg Hin] Hfile Hf Hfn Hn Hfun (Hc & Hp & H0x & Hlen).
  unfold step. rewrite Hcg, Hc. unfold do_data_row.
  rewrite Hfile, Hfn.
  destruct file; [congruence|]. destruct fn; [congruence|].
  apply Nat.leb_le in Hlen. cbn [truthy_str].
  now rewrite Hcg, Hin, Hp, H0x, Hfun, Hlen.
Qed.

Lemma pc_record_callgrind_row evs t f d :
  pcData f = Some d ->
  pc_record (callgrind_row evs (split_ws t) f) (nth_str 0 (split_ws t))
  = Some (record_of_row evs t).
Proof.
  intros Hd. unfold pc_record, callgrind_row. cbn [pcData].
  rewrite Hd. cbn [option_map]. now rewrite sget_sput_same.
Qed.


Lemma store_function_inside st file fn f :
  instr_mode st ->
  instr_mode (store_function st file fn f)
  /\ currentFile (store_function st file fn f) = currentFile st
  /\ currentFunction (store_function st file fn f) = currentFunction st
  /\ st_events (store_function st file fn f) = st_events st.
Proof.
  intros Hm. unfold store_function, instr_mode.
  destruct (sget file (st_filesData st)); simpl; destruct Hm; auto.
Qed.

Lemma keys_sput_note {V : Type} (k : string) (v : V) (d : list (string * V)) :
  Dict.keys (sput k v d) = note_pc (Dict.keys d) k.
Proof.
  unfold Dict.keys, sput, note_pc.
  induction d as [|[k' v'] d IH]; simpl; [reflexivity|].
  destruct (String.eqb k k'); simpl; [reflexivity|].
  rewrite IH. now destruct (existsb (String.eqb k) (map fst d)).
Qed.

(** A run of instruction-level rows inside a function: the loop goes
    through them, stays inside the function, and the PC table of the function
    takes the new PCs in the order in which they come. *)
Lemma pc_rows_loop file fn rows : forall st f d rest,
  instr_mode st ->
  currentFile st = Some file -> file <> "" ->
  currentFunction st = Some fn -> fn <> "" ->
  function_of st file fn = Some f -> pcData f = Some d ->
  pc_rows rows ->
  exists st' f' d',
    loop st (rows ++ rest) = loop st' rest
    /\ instr_mode st'
    /\ currentFile st' = Some file
    /\ currentFunction st' = Some fn
    /\ st_events st' = st_events st
    /\ function_of st' file fn = Some f'
    /\ pcData f' = Some d'
    /\ Dict.keys d' = first_seen (Dict.keys d) (map pc_of rows).
Proof.
  induction rows as [|r rows IH]; intros st f d rest Hm Hfile Hf Hfn Hn Hfun Hd Hrows.
  - exists st, f, d. repeat split; auto; apply Hm.
  - inversion Hrows as [|? ? Hr Hrest]; subst.
    set (f1 := callgrind_row (st_events st) (split_ws (trim r)) f).
    set (st1 := store_function st file fn f1).
    destruct (store_function_inside st file fn f1 Hm) as (Hm1 & Hfile1 & Hfn1 & Hev1).
    fold st1 in Hm1, Hfile1, Hfn1, Hev1.
    assert (Hfun1 : function_of st1 file fn = Some f1)
      by (eapply function_of_store; eauto).
    assert (Hd1 : exists rec, pcData f1 = Some (sput (pc_of r) rec d)).
    { unfold f1, callgrind_row. cbn [pcData]. rewrite Hd. eexists. reflexivity. }
    destruct Hd1 as [rec Hd1].
    destruct (IH st1 f1 (sput (pc_of r) rec d) rest Hm1)
      as (st' & f' & d' & L & M & F1 & F2 & E & G & D & K);
      try congruence; try assumption.
    exists st', f', d'. split; [|repeat split; try assumption; try apply M].
    + cbn [app loop].
      rewrite (pc_row_step st file fn f (trim r) (pc_of r) _ Hm Hfile Hf Hfn Hn Hfun Hr).
      fold f1. fold st1. exact L.
    + congruence.
    + rewrite K, keys_sput_note. reflexivity.
Qed.


Lemma pc_row_own t p : pc_row (trim t) p -> pc_row (trim t) (pc_of t).
Proof. intros (A & <- & B & C). unfold pc_of. repeat split; assumption. Qed.

(** C5, as stated, fails: two rows for PC [0x1000] with counts (2,3) and
    (4,5) leave the PC record with (4,5), not with the sums (6,8). *)
Lemma repeated_pc_not_summed :
  option_map (fun f => option_map events (pc_record f "0x1000"))
             (parsed_function repeated_pc "a.c" "f")
  = Some (Some [("Ir", Int 4); ("Cy", Int 5)]).
Proof. vm_compute. reflexivity. Qed.

(** C5 (amended): in instruction-level callgrind mode, when two data rows of
    the current function (which has its record, with a PC table, in the
    current file) carry the same PC, with nothing but data rows of that
    function between them, then after the later row the PC record of that PC
    holds the line and the event counts of the later row alone: the later row
    replaces the record of the earlier one, the counts are not summed.  The
    loop goes on from there with the lines that remain. *)
Theorem repeated_pc_keeps_last_row
        (st : state) (file fn : string) (f : FunctionData)
        (d : list (string * PcLineData)) (r1 r2 p : string)
        (between rest : list string) :
  instr_mode st ->
  currentFile st = Some file -> file <> "" ->
  currentFunction st = Some fn -> fn <> "" ->
  function_of st file fn = Some f -> pcData f = Some d ->
  pc_row (trim r1) p -> pc_rows between -> pc_row (trim r2) p ->
  exists st' f',
    loop st (r1 :: between ++ r2 :: rest) = loop st' rest
    /\ function_of st' file fn = Some f'
    /\ pc_record f' p = Some (record_of_row (st_events st) (trim r2)).
Proof.
  intros Hm Hfile Hf Hfn Hn Hfun Hd H1 Hb H2.
  destruct (pc_rows_loop file fn (r1 :: between) st f d (r2 :: rest))
    as (st1 & f1 & d1 & L & Hm1 & Hfile1 & Hfn1 & Hev1 & Hfun1 & Hd1 & _);
    try assumption.
  { constructor; [now apply (pc_row_own r1 p)|exact Hb]. }
  set (f2 := callgrind_row (st_events st1) (split_ws (trim r2)) f1).
  exists (store_function st1 file fn f2), f2.
  split; [|split].
  - change (r1 :: between ++ r2 :: rest) with ((r1 :: between) ++ r2 :: rest).
    rewrite L. cbn [loop].
    now rewrite (pc_row_step st1 file fn f1 (trim r2) p _ Hm1 Hfile1 Hf Hfn1 Hn Hfun1 H2).
  - eapply function_of_store; eauto.
  - unfold f2. rewrite Hev1.
    destruct H2 as (_ & <- & _).
    now apply (pc_record_callgrind_row _ _ f1 d1).
Qed.

Lemma repeated_pc_keeps_last_row_witness :
  exists st' f',
    loop inside_f ("0x1000 10 2 3" :: ["0x1004 11 1 1"] ++ "0x1000 12 4 5" :: ["fn=g"])
    = loop st' ["fn=g"]
    /\ function_of st' "a.c" "f" = Some f'
    /\ pc_record f' "0x1000"
       = Some (record_of_row (st_events inside_f) (trim "0x1000 12 4 5")).
Proof.
  apply (repeated_pc_keeps_last_row
           inside_f "a.c" "f" (mkFunctionData [] [("Ir", Int 0); ("Cy", Int 0)]
                                              (Some []) None)
           [] "0x1000 10 2 3" "0x1000 12 4 5" "0x1000" ["0x1004 11 1 1"] ["fn=g"]);
    try reflexivity; try discriminate;
    try (constructor; [|constructor]);
    repeat split; try reflexivity; vm_compute; lia.
Defined.

(** *** Rows outside a function *)

(** C10: a data row met while the current file or the current function is
    not established (null, or the empty name) is discarded: the loop goes on
    from the same state, so that no record is created, no total changes and
    no error is raised, and the rest of the text is parsed as if the row were
    not there. *)
Theorem data_row_outside_function_discarded
        (st : state) (l : string) (rest : list string) :
  classify (st_isCallgrind st) (trim l) = DataRow ->
  truthy_str (currentFile st) = None \/ truthy_str (currentFunction st) = None ->
  loop st (l :: rest) = loop st rest.
Proof.
  intros Hc Hno. cbn [loop]. unfold step. rewrite Hc.
  unfold do_data_row.
  destruct Hno as [-> | Hfn]; [reflexivity|].
  rewrite Hfn. now destruct (truthy_str (currentFile st)).
Qed.

Lemma data_row_outside_function_discarded_witness :
  loop (initial false) ["5 100"; "fl=a.c"; "fn=f"; "7 1"]
  = loop (initial false) ["fl=a.c"; "fn=f"; "7 1"].
Proof.
  apply (data_row_outside_function_discarded (initial false) "5 100").
  - reflexivity.
  - left. reflexivity.
Defined.

End ParserFacts.

(* ================================================================== *)
(** ** The call tree *)

Module CallTreeFacts.
Import JsString JsNum CallTree CallTreeSpec.

(** *** The PC range of a node *)










(** The table is started again by a second [fn=f]: the PC [0x2000], which
    came first in the text, is then the last of the table. *)
Example restarted_function_range :
  option_map (fun fd => pcAddresses fd)
             (match Parser.loop after_first_pc
                                ["fn=f"; "0x1000 11 1 1"; "0x2000 10 1 1"] with
              | Parser.Ok st => Parser.function_of st "a.c" "f"
              | Parser.Throw _ => None
              end)
  = Some ["0x1000"; "0x2000"].
Proof. vm_compute. reflexivity. Qed.

(** *** Subtree materialization *)

Lemma filter_length_le {A : Type} (p q : A -> bool) (l : list A) :
  (forall x, p x = true -> q x = true) ->
  (length (filter p l) <= length (filter q l))%nat.
Proof.
  intros Hpq. induction l as [|x l IH]; simpl; [lia|].
  destruct (p x) eqn:P.
  - rewrite (Hpq x P). simpl. lia.
  - destruct (q x); simpl; lia.
Qed.

Lemma filter_length_lt {A : Type} (p q : A -> bool) (l : list A) (x : A) :
  (forall y, p y = true -> q y = true) ->
  In x l -> p x = false -> q x = true ->
  (length (filter p l) < length (filter q l))%nat.
Proof.
  intros Hpq Hin Hp Hq. induction l as [|y l IH]; simpl; [contradiction|].
  destruct Hin as [-> | Hin].
  - rewrite Hp, Hq. simpl.
    pose proof (filter_length_le p q l Hpq). lia.
  - specialize (IH Hin). destruct (p y) eqn:P.
    + rewrite (Hpq y P). simpl. lia.
    + destruct (q y); simpl; lia.
Qed.

Lemma sget_in {V : Type} (k : string) (v : V) (d : list (string * V)) :
  sget k d = Some v -> In (k, v) d.
Proof.
  unfold sget. induction d as [|[k' v'] d IH]; simpl; [discriminate|].
  destruct (String.eqb k k') eqn:E.
  - apply String.eqb_eq in E. subst. intros [= ->]. now left.
  - intros H. right. now apply IH.
Qed.

(** Visiting a function that is in the map and was not visited leaves
    strictly fewer unvisited functions. *)
Lemma unvisited_decreases fm key visited info :
  sget key fm = Some info -> mem key visited = false ->
  (unvisited fm (key :: visited) < unvisited fm visited)%nat.
Proof.
  intros Hget Hmem. unfold unvisited.
  apply (filter_length_lt _ _ fm (key, info)).
  - intros [k v]. cbn [fst mem existsb].
    rewrite !negb_true_iff. intros H. now apply orb_false_iff in H.
  - now apply sget_in.
  - cbn [fst mem existsb]. now rewrite String.eqb_refl.
  - cbn [fst]. now rewrite Hmem.
Qed.

Lemma expansion_depth_with_callCount n c :
  expansion_depth (with_callCount n c) = expansion_depth n.
Proof. now destruct n. Qed.

(** The loop over the calls returns when every recursive call does, and
    keeps the children within the bound of the recursive calls. *)
Lemma each_call_returns rec pf bound :
  (forall k n, exists r n', rec k n = Some (r, n')
                            /\ forall t, r = Some t -> depth_within bound t) ->
  forall cs nid acc, Forall (depth_within bound) acc ->
    exists kids nid', each_call rec pf cs nid acc = Some (kids, nid')
                      /\ Forall (depth_within bound) kids.
Proof.
  intros Hrec. induction cs as [|call rest IH]; intros nid acc Hacc.
  - now exists acc, nid.
  - cbn [each_call].
    destruct (Parser.truthy_str (Parser.targetFunction call)) as [tfn|]; [|now apply IH].
    match goal with
    | |- context [rec ?k nid] => destruct (Hrec k nid) as (r & n' & -> & Hr)
    end.
    destruct r as [child|]; apply IH; apply Forall_app; split; auto;
      constructor; auto; unfold depth_within.
    + rewrite expansion_depth_with_callCount. now apply Hr.
    + cbn. lia.
Qed.

(** With more fuel than unvisited functions, [buildTreeFromNode] returns, and
    no path of the tree has more expansions than there were unvisited
    functions. *)
Lemma buildTreeFromNode_returns fm :
  forall fuel key visited nid, (unvisited fm visited < fuel)%nat ->
    exists r nid', buildTreeFromNode fm fuel key visited nid = Some (r, nid')
                   /\ forall t, r = Some t -> depth_within (unvisited fm visited) t.
Proof.
  induction fuel as [|fuel IH]; intros key visited nid Hfuel; [lia|].
  cbn [buildTreeFromNode].
  destruct (mem key visited) eqn:Hmem.
  { exists None, nid. split; [reflexivity | discriminate]. }
  destruct (sget key fm) as [info|] eqn:Hget.
  2:{ exists None, nid. split; [reflexivity | discriminate]. }
  pose proof (unvisited_decreases fm key visited info Hget Hmem) as Hdec.
  cbn [createNode].
  destruct (each_call_returns
              (fun k n => buildTreeFromNode fm fuel k (key :: visited) n)
              (fi_fileName info) (unvisited fm (key :: visited))
              (fun k n => IH k (key :: visited) n ltac:(lia))
              (calls_or_empty (funcData info)) (S nid) [] (Forall_nil _))
    as (kids & nid' & -> & Hkids).
  eexists; eexists; split; [reflexivity|].
  intros t [= <-]. unfold depth_within. cbn.
  assert (list_max (map expansion_depth kids) <= unvisited fm (key :: visited))%nat.
  { apply list_max_le. apply Forall_map. exact Hkids. }
  lia.
Qed.



End CallTreeFacts.

(* ================================================================== *)
(** ** The search index *)

Module SearchFacts.
Import JsString CallTree Search SearchSpec DictFacts.

(** *** Strings *)

Lemma is_space_lower_char c : is_space (lower_char c) = is_space c.
Proof. destruct c as [[] [] [] [] [] [] [] []]; reflexivity. Qed.

Lemma toLowerCase_dropWhile_space s :
  toLowerCase (dropWhile is_space s) = dropWhile is_space (toLowerCase s).
Proof.
  induction s as [|c r IH]; [reflexivity|].
  cbn [dropWhile toLowerCase]. rewrite is_space_lower_char.
  now destruct (is_space c).
Qed.

Lemma toLowerCase_app a b :
  toLowerCase (a ++ b) = (toLowerCase a ++ toLowerCase b)%string.
Proof. induction a as [|c r IH]; simpl; [reflexivity | now rewrite IH]. Qed.

Lemma toLowerCase_rev s : toLowerCase (rev s) = rev (toLowerCase s).
Proof.
  induction s as [|c r IH]; [reflexivity|].
  cbn [rev toLowerCase]. now rewrite toLowerCase_app, IH.
Qed.

Lemma trim_toLowerCase s : trim (toLowerCase s) = toLowerCase (trim s).
Proof.
  unfold trim, trimEnd, trimStart.
  now rewrite toLowerCase_rev, toLowerCase_dropWhile_space, toLowerCase_rev,
    toLowerCase_dropWhile_space.
Qed.

(** *** Sets of nodes *)

Lemma id_eqb_eq a b : id_eqb a b = true <-> a = b.
Proof.
  destruct a, b; simpl; rewrite ?Nat.eqb_eq; split; intros H;
    try discriminate; try (now f_equal); now inversion H.
Qed.

Lemma same_node_refl n : same_node n n = true.
Proof. unfold same_node. now apply id_eqb_eq. Qed.

Lemma has_same_id s m x : same_node m x = true -> NodeSet.has s m = NodeSet.has s x.
Proof.
  unfold same_node. intros H. apply id_eqb_eq in H.
  unfold NodeSet.has, same_node. now rewrite H.
Qed.

Lemma has_add_same n s : NodeSet.has (NodeSet.add n s) n = true.
Proof.
  unfold NodeSet.add. destruct (NodeSet.has s n) eqn:H; [exact H|].
  unfold NodeSet.has. rewrite existsb_app. simpl.
  now rewrite same_node_refl, orb_true_r.
Qed.

Lemma has_add_mono n m s :
  NodeSet.has s m = true -> NodeSet.has (NodeSet.add n s) m = true.
Proof.
  intros H. unfold NodeSet.add. destruct (NodeSet.has s n); [exact H|].
  unfold NodeSet.has in *. now rewrite existsb_app, H.
Qed.

Lemma has_add_all_acc from : forall acc m,
  NodeSet.has acc m = true -> NodeSet.has (NodeSet.add_all from acc) m = true.
Proof.
  unfold NodeSet.add_all.
  induction from as [|x r IH]; intros acc m H; [exact H|].
  cbn [fold_left]. apply IH. now apply has_add_mono.
Qed.

Lemma has_add_all_from from : forall acc m,
  NodeSet.has from m = true -> NodeSet.has (NodeSet.add_all from acc) m = true.
Proof.
  induction from as [|x r IH]; intros acc m H; [discriminate|].
  unfold NodeSet.has in H. cbn [existsb] in H.
  apply orb_true_iff in H as [H | H].
  - unfold NodeSet.add_all. cbn [fold_left].
    apply (has_add_all_acc r). rewrite (has_same_id _ m x H).
    apply has_add_same.
  - unfold NodeSet.add_all. cbn [fold_left]. now apply IH.
Qed.

Lemma collect_mono sel ix acc m :
  NodeSet.has acc m = true -> NodeSet.has (collect sel ix acc) m = true.
Proof.
  unfold collect. revert acc.
  induction (termToNodes ix) as [|[t s] r IH]; intros acc H; [exact H|].
  cbn [fold_left]. apply IH.
  destruct (sel t); [now apply has_add_all_acc | exact H].
Qed.

(** *** The index lists every indexed node under its name *)

Lemma lookup_put_same {V : Type} n (v : V) d :
  Dict.lookup same_node n (Dict.put same_node n v d) = Some v.
Proof.
  induction d as [|[k w] d IH]; simpl.
  - now rewrite same_node_refl.
  - destruct (same_node n k) eqn:E; simpl; now rewrite E.
Qed.

Lemma keys_put_known {V : Type} n (v : V) d :
  Dict.lookup same_node n d <> None ->
  Dict.keys (Dict.put same_node n v d) = Dict.keys d.
Proof.
  unfold Dict.keys. induction d as [|[k w] d IH]; simpl; [congruence|].
  destruct (same_node n k); simpl; [reflexivity|].
  intros H. now rewrite IH.
Qed.

Lemma keys_put_new {V : Type} n (v : V) d :
  Dict.lookup same_node n d = None ->
  Dict.keys (Dict.put same_node n v d) = Dict.keys d ++ [n].
Proof.
  unfold Dict.keys. induction d as [|[k w] d IH]; simpl; [reflexivity|].
  destruct (same_node n k); simpl; [discriminate|].
  intros H. now rewrite IH.
Qed.

Lemma nodes_for_addToIndex t n ix t' m :
  NodeSet.has (nodes_for ix t') m = true ->
  NodeSet.has (nodes_for (addToIndex t n ix) t') m = true.
Proof.
  unfold nodes_for, addToIndex. cbn [termToNodes].
  destruct (String.eqb t' t) eqn:E.
  - apply String.eqb_eq in E. subst t'. rewrite sget_sput_same.
    apply has_add_mono.
  - apply String.eqb_neq in E. now rewrite sget_sput_other.
Qed.

Lemma nodes_for_addToIndex_same t n ix :
  NodeSet.has (nodes_for (addToIndex t n ix) t) n = true.
Proof.
  unfold nodes_for, addToIndex. cbn [termToNodes].
  rewrite sget_sput_same. apply has_add_same.
Qed.

Lemma addToIndex_known t n ix : known (addToIndex t n ix) n.
Proof.
  unfold known, addToIndex. cbn [nodeToTerms].
  now rewrite lookup_put_same.
Qed.

Lemma addToIndex_listed t n ix :
  listed_by_name ix ->
  t = toLowerCase (functionName n) \/ known ix n ->
  listed_by_name (addToIndex t n ix).
Proof.
  intros J Hpre m Hm.
  destruct (Dict.lookup same_node n (nodeToTerms ix)) eqn:L.
  - apply nodes_for_addToIndex. apply J.
    unfold indexed, addToIndex in *. cbn [nodeToTerms] in Hm.
    rewrite keys_put_known in Hm by congruence. exact Hm.
  - unfold indexed, addToIndex in Hm. cbn [nodeToTerms] in Hm.
    rewrite keys_put_new in Hm by exact L.
    apply in_app_or in Hm as [Hm | [<- | []]].
    + apply nodes_for_addToIndex. now apply J.
    + destruct Hpre as [-> | K]; [apply nodes_for_addToIndex_same|].
      unfold known in K. congruence.
Qed.

Lemma add_terms_listed n ts : forall ix,
  listed_by_name ix -> known ix n ->
  listed_by_name (fold_left (fun acc t => addToIndex t n acc) ts ix).
Proof.
  induction ts as [|t r IH]; intros ix J K; [exact J|].
  cbn [fold_left]. apply IH.
  - apply addToIndex_listed; auto.
  - apply addToIndex_known.
Qed.

Lemma index_terms_listed n ix :
  listed_by_name ix -> listed_by_name (index_terms n ix).
Proof.
  intros J. unfold index_terms, terms_of.
  cbn [app fold_left]. apply add_terms_listed.
  - apply addToIndex_listed; auto.
  - apply addToIndex_known.
Qed.

(** Induction on a call tree, with the hypothesis on all children. *)
Lemma node_induction (P : CallTreeNode -> Prop) :
  (forall i fn file ps pe cc tt st kids cs,
      Forall P kids -> P (mkNode i fn file ps pe cc tt st kids cs)) ->
  forall n, P n.
Proof.
  intros H. fix IH 1. intros [i fn file ps pe cc tt st kids cs].
  apply H. induction kids as [|k r IHr]; constructor; [apply IH | exact IHr].
Qed.

Lemma indexNode_listed n :
  forall depth st, listed_by_name (snd st) ->
                   listed_by_name (snd (indexNode n depth st)).
Proof.
  induction n as [i fn file ps pe cc tt stime kids cs IH] using node_induction.
  intros depth st J. cbn [indexNode].
  destruct ((100 <? depth)%nat || visited_has i (fst st)); [exact J|].
  set (st1 := (i :: fst st, index_terms _ (snd st))).
  assert (J1 : listed_by_name (snd st1)) by (apply index_terms_listed; exact J).
  clearbody st1. revert st1 J1.
  induction IH as [|k r Hk _ IHr]; intros st1 J1; [exact J1|].
  cbn [fold_left]. apply IHr. now apply Hk.
Qed.

Lemma buildIndex_listed nodes : listed_by_name (buildIndex nodes).
Proof.
  unfold buildIndex.
  assert (J0 : listed_by_name (snd (@nil node_id, empty))) by (intros m []).
  revert J0. generalize (@nil node_id, empty).
  induction nodes as [|n r IH]; intros st J; [exact J|].
  cbn [fold_left]. apply IH. now apply indexNode_listed.
Qed.

(** C8, as stated, fails: the function named [" f"] (length 2) is indexed,
    but searching for its exact name returns the five functions found under
    the trimmed query ["f"] and not the function itself. *)
Lemma spaced_name_not_found :
  existsb (same_node (leaf 0 " f")) (indexed (buildIndex spaced_name_nodes)) = true
  /\ map functionName (search (buildIndex spaced_name_nodes) " f")
     = ["f1"; "f2"; "f3"; "f4"; "f5"]
  /\ NodeSet.has (search (buildIndex spaced_name_nodes) " f") (leaf 0 " f") = false.
Proof. repeat split; vm_compute; reflexivity. Qed.

(** C8 (amended): searching for the empty query returns the empty set, and
    for every indexed node whose function name is not empty and has no white
    space at either end (whatever its length), searching for that exact name
    returns a set that contains the node. *)
Theorem search_finds_indexed_name :
  (forall ix, search ix "" = [])
  /\ (forall nodes n,
         In n (indexed (buildIndex nodes)) ->
         functionName n <> "" ->
         trim (functionName n) = functionName n ->
         NodeSet.has (search (buildIndex nodes) (functionName n)) n = true).
Proof.
  split; [reflexivity|].
  intros nodes n Hin Hne Htrim.
  pose proof (buildIndex_listed nodes n Hin) as Hl.
  set (ix := buildIndex nodes) in *.
  unfold search.
  apply String.eqb_neq in Hne. rewrite Htrim, Hne. cbn [orb].
  rewrite trim_toLowerCase, Htrim.
  unfold nodes_for in Hl.
  set (direct := match sget (toLowerCase (functionName n)) (termToNodes ix) with
                 | Some s => NodeSet.add_all s []
                 | None => []
                 end).
  assert (Hd : NodeSet.has direct n = true).
  { unfold direct.
    destruct (sget (toLowerCase (functionName n)) (termToNodes ix));
      [now apply has_add_all_from | discriminate]. }
  clearbody direct.
  repeat match goal with
         | |- context [if ?c then _ else _] => destruct c
         end; auto using collect_mono.
Qed.

Lemma search_finds_indexed_name_witness :
  NodeSet.has (search (buildIndex scenario5_nodes) "handle_io_complete")
              (leaf 1 "handle_io_complete") = true.
Proof.
  apply (proj2 search_finds_indexed_name scenario5_nodes (leaf 1 "handle_io_complete")).
  - vm_compute. right. left. reflexivity.
  - discriminate.
  - reflexivity.
Defined.

(** Scenario 5: the prefix and the word searches. *)
Example scenario5_search :
  map functionName (search (buildIndex scenario5_nodes) "handle")
  = ["handle_timer_interrupt"; "handle_io_complete"]
  /\ map functionName (search (buildIndex scenario5_nodes) "timer")
     = ["handle_timer_interrupt"; "update_system_timers"]
  /\ search (buildIndex scenario5_nodes) "" = [].
Proof. repeat split; vm_compute; reflexivity. Qed.

End SearchFacts.

(* ================================================================== *)
(** ** The entry-point matcher *)

Module MatcherFacts.
Import JsString JsNum CallTree Matcher MatcherSpec DictFacts.

(** *** What the index holds *)

Lemma range_of_spec n r :
  range_of n = Some r ->
  r_node r = n /\ valid r
  /\ hex_number (pcStart n) = Int (r_start r)
  /\ hex_number (pcEnd n) = Int (r_end r).
Proof.
  unfold range_of, valid.
  destruct (String.eqb (pcStart n) "" || String.eqb (pcEnd n) ""); [discriminate|].
  destruct (hex_number (pcStart n)) as [|s]; [discriminate|].
  destruct (hex_number (pcEnd n)) as [|e]; [discriminate|].
  destruct (s <=? e)%Z eqn:L; [|discriminate].
  intros [= <-]. apply Z.leb_le in L. simpl. auto.
Qed.

Lemma pcRanges_fold nodes : forall ix,
  pcRanges (fold_left index_node nodes ix) = pcRanges ix ++ ranges_of nodes.
Proof.
  induction nodes as [|n r IH]; intros ix.
  - simpl. now rewrite app_nil_r.
  - cbn [fold_left]. rewrite IH. unfold index_node, ranges_of.
    cbn [pcRanges flat_map].
    destruct (range_of n); [now rewrite <- app_assoc | reflexivity].
Qed.

Lemma in_ranges_of r nodes :
  In r (ranges_of nodes) <-> exists n, In n nodes /\ range_of n = Some r.
Proof.
  unfold ranges_of. rewrite in_flat_map. split.
  - intros (n & Hn & Hr). exists n. split; [exact Hn|].
    destruct (range_of n); [|contradiction].
    destruct Hr as [-> | []]. reflexivity.
  - intros (n & Hn & Hr). exists n. split; [exact Hn|].
    rewrite Hr. now left.
Qed.

Lemma byPcStart_fold k m nodes : forall ix,
  sget k (byPcStart (fold_left index_node nodes ix)) = Some m ->
  sget k (byPcStart ix) = Some m
  \/ (In m nodes /\ toLowerCase (pcStart m) = k).
Proof.
  induction nodes as [|n r IH]; intros ix H; [now left|].
  cbn [fold_left] in H. apply IH in H as [H | [Hin Hk]].
  - unfold index_node in H. cbn [byPcStart] in H.
    destruct (String.eqb (pcStart n) ""); [now left|].
    destruct (String.eqb k (toLowerCase (pcStart n))) eqn:E.
    + apply String.eqb_eq in E. subst k. rewrite sget_sput_same in H.
      inversion H. subst. right. split; [now left | reflexivity].
    + apply String.eqb_neq in E. rewrite sget_sput_other in H by exact E.
      now left.
  - right. split; [now right | exact Hk].
Qed.

(** *** The sorted array *)

Lemma in_insert_range x r l : In x (insert_range r l) <-> x = r \/ In x l.
Proof.
  induction l as [|y l IH]; simpl.
  - intuition.
  - destruct (r_start y <=? r_start r)%Z; simpl; rewrite ?IH; intuition.
Qed.

Lemma in_fold_insert x rs : forall acc,
  In x (fold_left (fun acc r => insert_range r acc) rs acc) <-> In x acc \/ In x rs.
Proof.
  induction rs as [|r rs IH]; intros acc; simpl.
  - intuition.
  - rewrite IH, in_insert_range. intuition.
Qed.

Lemma in_sort_ranges x rs : In x (sort_ranges rs) <-> In x rs.
Proof. unfold sort_ranges. rewrite in_fold_insert. simpl. intuition. Qed.

Lemma disjoint_sym a b : disjoint a b -> disjoint b a.
Proof. unfold disjoint. intuition. Qed.

Lemma insert_range_sorted r l :
  valid r -> Forall valid l -> Forall (disjoint r) l ->
  StronglySorted before l -> StronglySorted before (insert_range r l).
Proof.
  intros Vr Vl Dl Sl. induction Sl as [|x l Sl IH Hx]; simpl.
  - constructor; constructor.
  - inversion Vl as [|? ? Vx Vl']; subst. inversion Dl as [|? ? Dx Dl']; subst.
    destruct (r_start x <=? r_start r)%Z eqn:L.
    + apply Z.leb_le in L. constructor; [now apply IH|].
      apply Forall_forall. intros y Hy. apply in_insert_range in Hy as [-> | Hy].
      * unfold before, disjoint, valid in *. lia.
      * rewrite Forall_forall in Hx. now apply Hx.
    + apply Z.leb_gt in L. constructor; [now constructor|].
      assert (Hrx : before r x) by (unfold before, disjoint, valid in *; lia).
      constructor; [exact Hrx|].
      apply Forall_forall. intros y Hy. rewrite Forall_forall in Hx.
      specialize (Hx y Hy). unfold before, valid in *. lia.
Qed.

Lemma fold_insert_sorted rs : forall acc,
  StronglySorted before acc ->
  Forall valid acc -> Forall valid rs ->
  (forall a r, In a acc -> In r rs -> disjoint r a) ->
  ForallOrdPairs disjoint rs ->
  StronglySorted before (fold_left (fun acc r => insert_range r acc) rs acc).
Proof.
  induction rs as [|r rs IH]; intros acc Sa Va Vr Dar Dr; [exact Sa|].
  cbn [fold_left].
  inversion Vr as [|? ? Vr0 Vrs]; subst. inversion Dr as [|? ? Dr0 Drs]; subst.
  apply IH; auto.
  - apply insert_range_sorted; auto.
    apply Forall_forall. intros a Ha. apply Dar; [exact Ha | now left].
  - apply Forall_forall. intros a Ha. apply in_insert_range in Ha as [-> | Ha]; auto.
    rewrite Forall_forall in Va. now apply Va.
  - intros a r' Ha Hr'. apply in_insert_range in Ha as [-> | Ha].
    + apply disjoint_sym. rewrite Forall_forall in Dr0. now apply Dr0.
    + apply Dar; [exact Ha | now right].
Qed.

Lemma sort_ranges_sorted rs :
  Forall valid rs -> ForallOrdPairs disjoint rs ->
  StronglySorted before (sort_ranges rs).
Proof.
  intros V D. unfold sort_ranges. apply fold_insert_sorted; auto.
  - constructor.
  - intros a r [].
Qed.

Lemma sorted_nth_error {A : Type} (R : A -> A -> Prop) (l : list A) :
  StronglySorted R l ->
  forall i j a b, (i < j)%nat -> nth_error l i = Some a -> nth_error l j = Some b ->
                  R a b.
Proof.
  induction 1 as [|x l Sl IH Hx]; intros i j a b Hij Hi Hj.
  - now destruct i.
  - destruct j as [|j]; [lia|]. simpl in Hj.
    destruct i as [|i]; simpl in Hi.
    + inversion Hi. subst. rewrite Forall_forall in Hx.
      apply Hx. eapply nth_error_In; eauto.
    + apply (IH i j); auto. lia.
Qed.

(** *** The binary search *)

Lemma mid_bounds (left right : Z) :
  (left <= right)%Z -> (left <= (left + right) / 2 <= right)%Z.
Proof.
  intros H. split.
  - apply Z.div_le_lower_bound; lia.
  - apply Z.div_le_upper_bound; lia.
Qed.

(** With as much fuel as the interval has entries, the loop ends by itself. *)
Lemma bsearch_fuel_suffices ranges address :
  forall fuel left right,
    (0 <= left)%Z -> (right - left + 1 <= Z.of_nat fuel)%Z ->
    bsearch fuel ranges address left right <> None.
Proof.
  induction fuel as [|fuel IH]; intros left right H0 Hf.
  - simpl. destruct (right <? left)%Z eqn:E; [discriminate|].
    apply Z.ltb_ge in E. lia.
  - cbn [bsearch]. destruct (right <? left)%Z eqn:E; [discriminate|].
    apply Z.ltb_ge in E. pose proof (mid_bounds left right E) as Hm.
    destruct (nth_error ranges _) as [range|]; [|discriminate].
    destruct (_ && _); [discriminate|].
    destruct (address <? r_start range)%Z; apply IH; lia.
Qed.

Lemma bsearch_sound ranges address n :
  forall fuel left right,
    bsearch fuel ranges address left right = Some (Some n) ->
    exists r, In r ranges /\ r_node r = n /\ contains r address.
Proof.
  induction fuel as [|fuel IH]; intros left right; cbn [bsearch];
    destruct (right <? left)%Z; try discriminate.
  destruct (nth_error ranges _) as [range|] eqn:N; [|discriminate].
  destruct ((r_start range <=? address)%Z && (address <=? r_end range)%Z) eqn:C.
  - intros [= <-]. exists range. split; [eapply nth_error_In; eauto|].
    split; [reflexivity|].
    apply andb_true_iff in C as [C1 C2].
    apply Z.leb_le in C1, C2. unfold contains. lia.
  - destruct (address <? r_start range)%Z; apply IH.
Qed.

Lemma bsearch_finds ranges address k rk :
  StronglySorted before ranges -> Forall valid ranges ->
  nth_error ranges k = Some rk -> contains rk address ->
  forall fuel left right,
    (0 <= left <= Z.of_nat k)%Z -> (Z.of_nat k <= right)%Z ->
    (right < Z.of_nat (length ranges))%Z ->
    (right - left + 1 <= Z.of_nat fuel)%Z ->
    bsearch fuel ranges address left right = Some (Some (r_node rk)).
Proof.
  intros Sorted Valid Hk Hc.
  induction fuel as [|fuel IH]; intros left right Hl Hr Hlen Hf; [lia|].
  cbn [bsearch]. destruct (right <? left)%Z eqn:E; [apply Z.ltb_lt in E; lia|].
  apply Z.ltb_ge in E. pose proof (mid_bounds left right E) as Hm.
  set (mid := ((left + right) / 2)%Z) in *.
  destruct (nth_error ranges (Z.to_nat mid)) as [rm|] eqn:N.
  2:{ apply nth_error_None in N. lia. }
  assert (Vm : valid rm).
  { rewrite Forall_forall in Valid. apply Valid. eapply nth_error_In; eauto. }
  assert (Hlt : (Z.to_nat mid < k)%nat -> before rm rk)
    by (intros; eapply (sorted_nth_error before); eauto).
  assert (Hgt : (k < Z.to_nat mid)%nat -> before rk rm)
    by (intros; eapply (sorted_nth_error before); eauto).
  unfold before, contains, valid in *.
  destruct ((r_start rm <=? address)%Z && (address <=? r_end rm)%Z) eqn:C.
  - apply andb_true_iff in C as [C1 C2]. apply Z.leb_le in C1, C2.
    assert (Z.to_nat mid = k) as Heq by lia.
    rewrite Heq in N. congruence.
  - apply andb_false_iff in C.
    destruct (address <? r_start rm)%Z eqn:A.
    + apply Z.ltb_lt in A.
      assert (Z.to_nat mid <> k) by (intros Heq; rewrite Heq in N;
                                     assert (rm = rk) by congruence; subst; lia).
      apply IH; lia.
    + apply Z.ltb_ge in A.
      assert (r_end rm < address)%Z
        by (destruct C as [C | C]; [apply Z.leb_gt in C | apply Z.leb_gt in C]; lia).
      assert (Z.to_nat mid <> k) by (intros Heq; rewrite Heq in N;
                                     assert (rm = rk) by congruence; subst; lia).
      apply IH; lia.
Qed.

(** *** Resolution of an address *)

Lemma buildIndex_pcRanges nodes :
  pcRanges (buildIndex nodes) = sort_ranges (ranges_of nodes).
Proof. unfold buildIndex. cbn [pcRanges]. now rewrite pcRanges_fold. Qed.

Lemma ranges_of_valid nodes : Forall valid (ranges_of nodes).
Proof.
  apply Forall_forall. intros r Hr.
  apply in_ranges_of in Hr as (n & _ & Hn). now apply range_of_spec in Hn.
Qed.

Lemma covers_contains n addr :
  covers n addr = true <-> exists r, range_of n = Some r /\ contains r addr.
Proof.
  unfold covers, contains. split.
  - destruct (range_of n) as [r|]; [|discriminate].
    intros H. apply andb_true_iff in H as [H1 H2]. apply Z.leb_le in H1, H2.
    now exists r.
  - intros (r & -> & H1 & H2). apply andb_true_iff. now rewrite !Z.leb_le.
Qed.

Lemma findByPcRange_sound nodes addr n :
  findByPcRange (buildIndex nodes) addr = Some n ->
  In n nodes /\ covers n addr = true.
Proof.
  unfold findByPcRange. rewrite buildIndex_pcRanges.
  destruct (bsearch _ _ _ _ _) as [[n'|]|] eqn:B; try discriminate.
  intros [= ->].
  apply bsearch_sound in B as (r & Hin & Hnode & Hc).
  apply (proj1 (in_sort_ranges _ _)) in Hin.
  apply (proj1 (in_ranges_of _ _)) in Hin as (m & Hm & Hr).
  pose proof (range_of_spec m r Hr) as (Hrm & _).
  assert (m = n) as -> by congruence.
  split; [exact Hm|]. apply covers_contains. now exists r.
Qed.

Lemma findByPcRange_complete nodes addr n :
  ranges_disjoint nodes ->
  In n nodes -> covers n addr = true ->
  findByPcRange (buildIndex nodes) addr = Some n.
Proof.
  intros Hd Hn Hc. apply covers_contains in Hc as (r & Hr & Hc).
  pose proof (range_of_spec n r Hr) as (Hrn & _).
  assert (Hin : In r (sort_ranges (ranges_of nodes))).
  { apply in_sort_ranges, in_ranges_of. now exists n. }
  apply In_nth_error in Hin as (k & Hk).
  assert (Hlt : (k < length (sort_ranges (ranges_of nodes)))%nat).
  { apply nth_error_Some. congruence. }
  assert (Hs : StronglySorted before (sort_ranges (ranges_of nodes)))
    by (apply sort_ranges_sorted; [apply ranges_of_valid | exact Hd]).
  assert (Hv : Forall valid (sort_ranges (ranges_of nodes))).
  { apply Forall_forall. intros y Hy. apply (proj1 (in_sort_ranges _ _)) in Hy.
    pose proof (ranges_of_valid nodes) as V. rewrite Forall_forall in V.
    now apply V. }
  unfold findByPcRange. rewrite buildIndex_pcRanges.
  rewrite (bsearch_finds _ addr k r Hs Hv Hk Hc); [now rewrite Hrn | lia ..].
Qed.

(** A Number holds every integer up to 2^53 as it is. *)
Lemma to_double_exact (z : Z) : (Z.abs z <= 2 ^ 53)%Z -> to_double z = z.
Proof.
  intros H. destruct (Z.eq_dec (Z.abs z) (2 ^ 53)) as [E|E].
  - destruct (Z.abs_eq_or_opp z) as [A|A]; rewrite A in E.
    + subst z. vm_compute. reflexivity.
    + assert (z = (- 2 ^ 53)%Z) as -> by lia. vm_compute. reflexivity.
  - unfold to_double.
    assert (L : (Z.log2 (Z.abs z) - 52 <= 0)%Z).
    { destruct (Z.eq_dec (Z.abs z) 0) as [Z0|Z0]; [rewrite Z0; simpl; lia|].
      assert (Z.log2 (Z.abs z) < 53)%Z; [|lia].
      apply Z.log2_lt_pow2; lia. }
    apply Z.leb_le in L. now rewrite L.
Qed.

Lemma byPcStart_fold_last nodes : forall ix k,
  sget k (byPcStart (fold_left index_node nodes ix))
  = match last_with_pcStart k nodes with
    | Some n => Some n
    | None => sget k (byPcStart ix)
    end.
Proof.
  unfold last_with_pcStart.
  induction nodes as [|n nodes IH] using rev_ind; intros ix k; [reflexivity|].
  rewrite fold_left_app, rev_app_distr. cbn [fold_left List.rev app find].
  unfold index_node at 1. cbn [byPcStart].
  destruct (String.eqb (pcStart n) "") eqn:E; cbn [negb andb]; [apply IH|].
  destruct (String.eqb (toLowerCase (pcStart n)) k) eqn:K.
  - apply String.eqb_eq in K. subst k. apply sget_sput_same.
  - apply String.eqb_neq in K.
    rewrite sget_sput_other by congruence. apply IH.
Qed.

Lemma byPcStart_last nodes k :
  sget k (byPcStart (buildIndex nodes)) = last_with_pcStart k nodes.
Proof.
  unfold buildIndex. cbn [byPcStart]. rewrite byPcStart_fold_last.
  now destruct (last_with_pcStart k nodes).
Qed.

Lemma last_with_pcStart_some k nodes m :
  last_with_pcStart k nodes = Some m ->
  In m nodes /\ pcStart m <> "" /\ toLowerCase (pcStart m) = k.
Proof.
  unfold last_with_pcStart. intros H. apply find_some in H as [Hin H].
  apply andb_true_iff in H as [H1 H2].
  apply negb_true_iff, String.eqb_neq in H1. apply String.eqb_eq in H2.
  split; [now apply in_rev|auto].
Qed.

Lemma findEntryNode_address nodes x addr :
  address_query x addr ->
  sget (toLowerCase (trim x)) (byName (buildIndex nodes)) = None ->
  (forall m,
      last_with_pcStart (normalized x) nodes = Some m ->
      findEntryNode (buildIndex nodes) x = Some m
      /\ In m nodes /\ toLowerCase (pcStart m) = normalized x)
  /\ (last_with_pcStart (normalized x) nodes = None ->
      (forall n, findEntryNode (buildIndex nodes) x = Some n ->
                 In n nodes /\ covers n addr = true)
      /\ (ranges_disjoint nodes ->
          forall n, In n nodes -> covers n addr = true ->
                    findEntryNode (buildIndex nodes) x = Some n)).
Proof.
  intros (Hne & Haddr & Hparse) Hname.
  apply String.eqb_neq in Hne.
  unfold findEntryNode. rewrite Hne, Hname, Haddr.
  fold (normalized x). rewrite byPcStart_last.
  split.
  - intros m Hm. rewrite Hm. split; [reflexivity|].
    now apply last_with_pcStart_some in Hm.
  - intros ->. rewrite Hparse. split.
    + intros n. apply findByPcRange_sound.
    + intros Hd n. now apply findByPcRange_complete.
Qed.

(** C6, as stated, fails: callgrind names a function without symbol by an
    address, and a name is looked up before any address (step 1 of
    [findEntryNode]).  The function named [0x1008] lies at
    [0x3000-0x3010]; asked for ["0x1008"], [findEntryNode] returns it, though
    the address is outside its range and inside the range of [f]. *)
Lemma name_shadows_address :
  findEntryNode (buildIndex [node_f; named_0x1008]) "0x1008" = Some named_0x1008
  /\ hex_number "0x1008" = Int 4104
  /\ covers named_0x1008 4104 = false
  /\ covers node_f 4104 = true.
Proof. repeat split; vm_compute; reflexivity. Qed.

(** Where two ranges overlap, the binary search can miss a range that holds
    the address: the range of [outer] contains [0x1050] and the range of no
    other node does, but the search goes right past [inner1] and [inner2] and
    finds nothing. *)
Example enclosing_range_missed :
  covers outer 4176 = true
  /\ hex_number "0x1050" = Int 4176
  /\ findEntryNode (buildIndex [outer; inner1; inner2]) "0x1050" = None.
Proof. repeat split; vm_compute; reflexivity. Qed.

(** Of two nodes with the same [pcStart], the one indexed last is found. *)
Example same_start_last_wins :
  findEntryNode (buildIndex [node_f; node_f2; node_g]) "0x1000" = Some node_f2.
Proof. vm_compute. reflexivity. Qed.

(** Addresses are compared as Numbers: beyond 2^53 neighbours coincide, and
    [0xffffffffffffff20] is found in the range that ends at
    [0xffffffffffffff10]. *)
Example rounded_addresses_coincide :
  findEntryNode (buildIndex [node_k]) "0xffffffffffffff20" = Some node_k
  /\ hex_number "0xffffffffffffff20" = Int (2 ^ 64)
  /\ range_of node_k = Some (mkRange (2 ^ 64) (2 ^ 64) node_k).
Proof. repeat split; vm_compute; reflexivity. Qed.

(** C6 (amended): for a built index and an address string [x] that is not
    itself a key of the index of names: when some indexed node has [x], in
    lower case and with its [0x], as its [pcStart], [findEntryNode] returns the
    one of these nodes that was indexed last, whether or not [x] lies in
    its range (the exact match has priority); otherwise every node that
    [findEntryNode] returns is an indexed node whose range
    [[pcStart, pcEnd]] (both non-empty) contains [x], and, when no two indexed
    ranges overlap, it returns node [n] for every indexed [n] whose range
    contains [x].  Addresses are compared as Numbers ([hex_number]), which
    hold every integer up to 2^53 as it is.  In particular, with [f] on
    [0x1000-0x1010] and [g] on [0x2000-0x2040], ["0x1008"] resolves to [f] and
    ["0x2041"] to nothing. *)
Theorem resolve_entry_by_pc :
  (forall nodes x addr,
      address_query x addr ->
      sget (toLowerCase (trim x)) (byName (buildIndex nodes)) = None ->
      (forall m,
          last_with_pcStart (normalized x) nodes = Some m ->
          findEntryNode (buildIndex nodes) x = Some m
          /\ In m nodes /\ toLowerCase (pcStart m) = normalized x)
      /\ (last_with_pcStart (normalized x) nodes = None ->
          (forall n, findEntryNode (buildIndex nodes) x = Some n ->
                     In n nodes /\ covers n addr = true)
          /\ (ranges_disjoint nodes ->
              forall n, In n nodes -> covers n addr = true ->
                        findEntryNode (buildIndex nodes) x = Some n)))
  /\ (forall z, (Z.abs z <= 2 ^ 53)%Z -> to_double z = z)
  /\ findEntryNode (buildIndex [node_f; node_g]) "0x1008" = Some node_f
  /\ findEntryNode (buildIndex [node_f; node_g]) "0x2041" = None.
Proof.
  split; [exact findEntryNode_address|].
  split; [exact to_double_exact|].
  split; vm_compute; reflexivity.
Qed.

Lemma resolve_entry_by_pc_witness :
  findEntryNode (buildIndex [node_f; node_g]) "0x2010" = Some node_g.
Proof.
  destruct (proj1 resolve_entry_by_pc [node_f; node_g] "0x2010" 8208%Z) as [_ H].
  - unfold address_query. split; [discriminate | split; reflexivity].
  - reflexivity.
  - apply H.
    + reflexivity.
    + unfold ranges_disjoint. vm_compute. repeat constructor.
    + right. left. reflexivity.
    + reflexivity.
Defined.

End MatcherFacts.

(* ================================================================== *)
(** ** More about the parser *)

Module ParserMore.
Import JsString JsNum Parser ParserSpec ParserProps DictFacts.

(** *** Recognizing a directive by its prefix *)

Lemma starts_fl_classify cg t : startsWith "fl=" t = true -> classify cg t = Fl.
Proof.
  unfold startsWith.
  destruct t as [|c1 [|c2 [|c3 r]]]; cbn [String.prefix]; try discriminate;
    destruct (ascii_dec "f" c1) as [<-|]; try discriminate;
    try (destruct (ascii_dec "l" c2) as [<-|]; discriminate).
  destruct (ascii_dec "l" c2) as [<-|]; [|discriminate].
  destruct (ascii_dec "=" c3) as [<-|]; [|discriminate].
  intros _. destruct cg, r; reflexivity.
Qed.

Lemma starts_fn_classify cg t : startsWith "fn=" t = true -> classify cg t = Fn.
Proof.
  unfold startsWith.
  destruct t as [|c1 [|c2 [|c3 r]]]; cbn [String.prefix]; try discriminate;
    destruct (ascii_dec "f" c1) as [<-|]; try discriminate;
    try (destruct (ascii_dec "n" c2) as [<-|]; discriminate).
  destruct (ascii_dec "n" c2) as [<-|]; [|discriminate].
  destruct (ascii_dec "=" c3) as [<-|]; [|discriminate].
  intros _. destruct cg, r; reflexivity.
Qed.

Lemma classify_fl_starts cg t : classify cg t = Fl -> startsWith "fl=" t = true.
Proof.
  unfold classify.
  repeat match goal with
         | |- context [if ?c then _ else _] => destruct c eqn:?
         end; try discriminate; auto.
Qed.

(** *** Records that stay known *)

Lemma function_of_store_known st file fn f file2 fn2 :
  function_of st file2 fn2 <> None ->
  function_of (store_function st file fn f) file2 fn2 <> None.
Proof.
  unfold function_of, store_function.
  destruct (sget file (st_filesData st)) as [fi|] eqn:G; [|auto].
  cbn [st_filesData set_filesData].
  destruct (String.eqb file2 file) eqn:E.
  - apply String.eqb_eq in E. subst file2. rewrite G, sget_sput_same.
    cbn [functions]. apply sget_sput_known.
  - apply String.eqb_neq in E. now rewrite sget_sput_other.
Qed.

Lemma file_known_store st file fn f :
  file_known st -> file_known (store_function st file fn f).
Proof.
  unfold file_known, store_function.
  destruct (sget file (st_filesData st)) as [fi|] eqn:G; [|auto].
  cbn [currentFile set_filesData st_filesData].
  destruct (truthy_str (currentFile st)); auto using sget_sput_known.
Qed.

Lemma function_known_store st file fn f :
  function_known st -> function_known (store_function st file fn f).
Proof.
  intros K file2 fn2 Hf Hn.
  apply function_of_store_known. apply K.
  - unfold store_function in Hf.
    now destruct (sget file (st_filesData st)).
  - unfold store_function in Hn.
    now destruct (sget file (st_filesData st)).
Qed.

(** A turn that touches neither the records nor the current file and
    function keeps what is known. *)
Lemma known_same_records st st' :
  st_filesData st' = st_filesData st ->
  currentFile st' = currentFile st ->
  currentFunction st' = currentFunction st ->
  file_known st -> function_known st ->
  file_known st' /\ function_known st'.
Proof.
  intros Hd Hf Hn Kf Kn. split.
  - unfold file_known in *. now rewrite Hf, Hd.
  - intros file fn. rewrite Hf, Hn. unfold function_of. rewrite Hd.
    apply Kn.
Qed.

Lemma do_fl_known st t :
  inherited (drop 3 t) = false -> file_known (do_fl st t).
Proof.
  unfold file_known, do_fl.
  generalize (drop 3 t) as file. intros file Hinh. rewrite Hinh.
  cbn [currentFile set_currentFile set_scope st_filesData set_filesData].
  destruct file as [|c r]; [exact I|].
  cbn [truthy_str]. set (file := String c r) in *.
  destruct (sget file (st_filesData st)) eqn:G.
  - destruct (truthy_str (st_currentObjectFile st)).
    + now rewrite sget_sput_same.
    + now rewrite G.
  - now rewrite sget_sput_same.
Qed.

Lemma function_of_store_same st file fn f :
  sget file (st_filesData st) <> None ->
  function_of (store_function st file fn f) file fn = Some f.
Proof.
  unfold function_of, store_function.
  destruct (sget file (st_filesData st)) as [fi|] eqn:G; [|congruence].
  intros _. cbn [st_filesData set_filesData].
  rewrite sget_sput_same. cbn [functions]. apply sget_sput_same.
Qed.

Lemma truthy_some o s : truthy_str o = Some s -> o = Some s /\ s <> "".
Proof.
  destruct o as [[|c r]|]; simpl; try discriminate.
  intros [= <-]. split; [reflexivity | discriminate].
Qed.

(** The [fn=] line alone. *)
Lemma do_fn_known st t :
  file_known st ->
  exists st', do_fn st t = Ok st' /\ file_known st' /\ function_known st'.
Proof.
  intros Kf. unfold do_fn. unfold file_known in Kf.
  set (fn := drop 3 t).
  set (st1 := set_currentFunction st (Some fn)).
  destruct (truthy_str (currentFile st)) as [file|] eqn:F.
  - destruct (truthy_str (Some fn)) as [fn'|] eqn:N.
    + destruct (sget file (st_filesData st)) as [fi|] eqn:G; [|congruence].
      eexists. split; [reflexivity|]. split.
      * apply file_known_store. unfold file_known, st1. cbn. rewrite F. congruence.
      * intros file2 fn2 Hf Hn.
        assert (currentFile (store_function st1 file fn (fresh_function st))
                = currentFile st) as Ecf
            by (unfold store_function; now destruct (sget file (st_filesData st1))).
        assert (currentFunction (store_function st1 file fn (fresh_function st))
                = Some fn) as Ecn
            by (unfold store_function; now destruct (sget file (st_filesData st1))).
        rewrite Ecf, F in Hf. rewrite Ecn in Hn.
        inversion Hf. subst file2.
        apply truthy_some in Hn as [Hn _]. inversion Hn. subst fn2.
        rewrite function_of_store_same; [discriminate|].
        unfold st1. cbn. congruence.
    + eexists. split; [reflexivity|]. split.
      * unfold file_known, st1. cbn. rewrite F. exact Kf.
      * intros file2 fn2 _ Hn. unfold st1 in Hn. cbn in Hn.
        change (truthy_str (Some fn) = Some fn2) in Hn. congruence.
  - eexists. split; [reflexivity|]. split.
    + unfold file_known, st1. cbn. now rewrite F.
    + intros file2 fn2 Hf _. unfold st1 in Hf. cbn in Hf. congruence.
Qed.

(** *** Texts on which [parse] raises nothing *)

Lemma step_safe st t next :
  file_known st -> function_known st ->
  startsWith "fl=" t && inherited (drop 3 t) = false ->
  exists st' b,
    step st t next = Ok (st', b)
    /\ file_known st'
    /\ (function_known st' \/ (b = false /\ startsWith "fl=" t = true)).
Proof.
  intros Kf Kn Hfl. unfold step.
  destruct (classify (st_isCallgrind st) t) eqn:C;
    try (eexists; eexists; split; [reflexivity|];
         split; [|left];
         apply (known_same_records st); auto; reflexivity).
  - (* fl= *)
    pose proof (classify_fl_starts _ _ C) as Hs. rewrite Hs in Hfl.
    eexists; eexists; split; [reflexivity|]. split; [now apply do_fl_known|].
    right. now split.
  - (* fn= *)
    destruct (do_fn_known st t Kf) as (st' & -> & Kf' & Kn').
    eexists; eexists; split; [reflexivity|]. auto.
  - (* calls= *)
    unfold do_calls. destruct next as [nl|].
    2:{ eexists; eexists; split; [reflexivity|]. auto. }
    destruct (match_pc (trim nl)) as [pc|].
    2:{ eexists; eexists; split; [reflexivity|]. auto. }
    destruct (truthy_str (currentFunction st)) as [fn|] eqn:N.
    2:{ eexists; eexists; split; [reflexivity|]. auto. }
    destruct (truthy_str (currentFile st)) as [file|] eqn:F.
    2:{ eexists; eexists; split; [reflexivity|]. auto. }
    destruct (function_of st file fn) as [f|] eqn:G; [|now destruct (Kn file fn F N)].
    assert (K : forall f',
               file_known (set_pending (store_function st file fn f') None None)
               /\ function_known
                    (set_pending (store_function st file fn f') None None)).
    { intros f'. apply (known_same_records (store_function st file fn f'));
        try reflexivity.
      - now apply file_known_store.
      - now apply function_known_store. }
    eexists; eexists; split; [reflexivity|]. split; [|left]; apply K.
  - (* a data row *)
    eexists; eexists; split; [reflexivity|].
    unfold do_data_row.
    destruct (truthy_str (currentFile st)) as [file|]; auto.
    destruct (truthy_str (currentFunction st)) as [fn|]; auto.
    destruct (function_of st file fn);
      repeat match goal with
             | |- context [if ?c then _ else _] => destruct c
             end; auto using file_known_store, function_known_store.
Qed.

Lemma fl_then_fn_tail l rest : fl_then_fn (l :: rest) = true -> fl_then_fn rest = true.
Proof.
  destruct rest as [|x r]; [reflexivity|].
  cbn [fl_then_fn]. intros H. now apply andb_true_iff in H.
Qed.

Lemma loop_safe n :
  forall ls st,
    (length ls <= n)%nat ->
    fl_then_fn ls = true -> has_inherited_file ls = false ->
    file_known st ->
    function_known st
    \/ (exists l r, ls = l :: r /\ startsWith "fn=" (trim l) = true) ->
    exists st', loop st ls = Ok st'.
Proof.
  induction n as [|n IH]; intros ls st Hlen Hp Hi Kf Kn.
  { destruct ls; [now exists st | simpl in Hlen; lia]. }
  destruct ls as [|l rest]; [now exists st|].
  simpl in Hlen. cbn [has_inherited_file existsb] in Hi.
  apply orb_false_iff in Hi as [Hil Hirest].
  pose proof (fl_then_fn_tail _ _ Hp) as Hprest.
  assert (Hstep : exists st1 b,
             step st (trim l) (hd_error rest) = Ok (st1, b)
             /\ file_known st1
             /\ (function_known st1
                 \/ (b = false /\ startsWith "fl=" (trim l) = true))).
  { destruct Kn as [Kn | (l0 & r0 & E & Hfn)].
    - now apply step_safe.
    - inversion E. subst l0 r0.
      unfold step. rewrite (starts_fn_classify _ _ Hfn).
      destruct (do_fn_known st (trim l) Kf) as (st' & -> & Kf' & Kn').
      eexists; eexists; split; [reflexivity|]. auto. }
  destruct Hstep as (st1 & b & S & Kf1 & Kn1).
  cbn [loop]. rewrite S. destruct b.
  - destruct rest as [|x r]; [now exists st1|].
    destruct Kn1 as [Kn1 | [? _]]; [|discriminate].
    apply (IH r st1); auto.
    + simpl in Hlen. lia.
    + now apply fl_then_fn_tail in Hprest.
    + cbn [existsb] in Hirest. now apply orb_false_iff in Hirest.
  - destruct rest as [|x r]; [now exists st1|].
    apply (IH (x :: r) st1); auto; [lia|].
    destruct Kn1 as [Kn1 | [_ Hfl]]; [now left|].
    right. exists x, r. split; [reflexivity|].
    cbn [fl_then_fn] in Hp. apply andb_true_iff in Hp as [Hp _].
    rewrite Hfl in Hp. exact Hp.
Qed.


(** X1: a text in which every [fl=] line is directly followed by an [fn=]
    line, and no [fl=] line names a property inherited from
    [Object.prototype], is parsed without any exception: [parse] returns a
    profile, whatever the [calls=] lines and the rows are. *)
Theorem parse_returns_on_paired_text (content : string) :
  fl_then_fn (split_char LF content) = true ->
  has_inherited_file (split_char LF content) = false ->
  exists d, parse content = Ok d.
Proof.
  intros Hp Hi. unfold parse, parse_lines.
  set (ls := split_char LF content) in *.
  destruct (loop_safe (length ls) ls (initial (String.eqb (trim (nth_str 0 ls))
                                                          "# callgrind format"))
                      (le_n _) Hp Hi) as [st L].
  - exact I.
  - left. intros file fn Hf. discriminate Hf.
  - rewrite L. now eexists.
Qed.

Lemma parse_returns_on_paired_text_witness :
  exists d, parse (unlines paired_text) = Ok d.
Proof.
  apply (parse_returns_on_paired_text (unlines paired_text)); reflexivity.
Defined.

(** *** The kind of analysis *)

Lemma store_function_scope st file fn f : same_scope st (store_function st file fn f).
Proof.
  unfold same_scope, store_function.
  destruct (sget file (st_filesData st)); cbn; auto.
Qed.

Lemma step_same_kind st t next st' b :
  step st t next = Ok (st', b) -> st_isCallgrind st' = st_isCallgrind st.
Proof.
  unfold step.
  destruct (classify (st_isCallgrind st) t);
    try (intros [= <- <-]; reflexivity).
  - unfold do_fn.
    destruct (truthy_str (currentFile st)) as [file|];
      [destruct (truthy_str (Some (drop 3 t)));
       [destruct (sget file (st_filesData st))|]|];
      intros [= <- <-]; try reflexivity.
    apply (store_function_scope (set_currentFunction st _)).
  - unfold do_calls.
    destruct next as [nl|]; [|intros [= <- <-]; reflexivity].
    destruct (match_pc (trim nl)), (truthy_str (currentFunction st)) as [fn|],
      (truthy_str (currentFile st)) as [file|];
      try (intros [= <- <-]; reflexivity).
    destruct (function_of st file fn); intros [= <- <-].
    apply (store_function_scope st).
  - intros [= <- <-]. unfold do_data_row.
    destruct (truthy_str (currentFile st)) as [file|]; auto.
    destruct (truthy_str (currentFunction st)) as [fn|]; auto.
    destruct (function_of st file fn);
      repeat match goal with
             | |- context [if ?c then _ else _] => destruct c
             end; auto; apply (store_function_scope st).
Qed.

Lemma loop_same_kind n :
  forall ls st st', (length ls <= n)%nat ->
    loop st ls = Ok st' -> st_isCallgrind st' = st_isCallgrind st.
Proof.
  induction n as [|n IH]; intros ls st st' Hlen.
  { destruct ls; [now intros [= <-] | simpl in Hlen; lia]. }
  destruct ls as [|l rest]; [now intros [= <-]|].
  simpl in Hlen. cbn [loop].
  destruct (step st (trim l) (hd_error rest)) as [[st1 b]|] eqn:S; [|discriminate].
  apply step_same_kind in S. rewrite <- S.
  destruct b.
  - destruct rest as [|x r]; [now intros [= <-]|].
    apply IH. simpl in Hlen. lia.
  - apply IH. lia.
Qed.

(** X2: the kind of analysis is decided by the first line alone: the
    profile that [parse] returns is a callgrind profile exactly when the first
    line, trimmed, is [# callgrind format]; no later line ([ob=],
    [positions:], a row that starts with a PC) changes it. *)
Theorem kind_decided_by_first_line (content : string) (d : CachegrindData) :
  parse content = Ok d ->
  isCallgrind d
  = String.eqb (trim (nth_str 0 (split_char LF content))) "# callgrind format".
Proof.
  unfold parse, parse_lines.
  destruct (loop _ _) as [st|] eqn:L; [|discriminate].
  intros [= <-]. cbn [finish isCallgrind].
  now rewrite (loop_same_kind _ _ _ _ (le_n _) L).
Qed.

Lemma kind_decided_by_first_line_witness :
  exists d, parse (unlines ["version: 1"; "positions: instr line"; "events: Ir";
                            "ob=a.out"; "fl=a.c"; "fn=f"; "0x1000 10 2"]) = Ok d
            /\ isCallgrind d = false.
Proof.
  eexists. split; [vm_compute; reflexivity|].
  match goal with
  | |- isCallgrind ?d = _ =>
      rewrite (kind_decided_by_first_line
                 (unlines ["version: 1"; "positions: instr line"; "events: Ir";
                           "ob=a.out"; "fl=a.c"; "fn=f"; "0x1000 10 2"]) d)
  end; reflexivity.
Defined.

(** *** A function that starts again *)

Lemma from_entries_zero e evs : forall idx acc,
  (forall k v, sget k acc = Some v -> v = Int 0) ->
  In e evs \/ sget e acc <> None ->
  sget e (from_entries_aux idx (fun _ => Int 0) evs acc) = Some (Int 0).
Proof.
  induction evs as [|x r IH]; intros idx acc Hz Hin; cbn [from_entries_aux].
  - destruct Hin as [[] | Hin].
    destruct (sget e acc) as [v|] eqn:G; [|congruence].
    now rewrite (Hz e v G).
  - apply IH.
    + intros k v. destruct (String.eqb k x) eqn:E.
      * apply String.eqb_eq in E. subst. rewrite sget_sput_same. congruence.
      * apply String.eqb_neq in E. rewrite sget_sput_other by exact E. apply Hz.
    + destruct Hin as [[-> | Hin] | Hin].
      * right. rewrite sget_sput_same. discriminate.
      * now left.
      * right. now apply sget_sput_known.
Qed.

(** X3: an [fn=NAME] line inside a file starts the record of [NAME] afresh:
    whatever rows and calls an earlier block of the same function had
    recorded, the record now has no line, no call, no PC, and the total 0
    for every event of the vocabulary. *)
Theorem fn_line_starts_afresh (st : state) (t : string) (next : option string)
        (file : string) :
  classify (st_isCallgrind st) t = Fn ->
  truthy_str (currentFile st) = Some file ->
  sget file (st_filesData st) <> None ->
  drop 3 t <> "" ->
  exists st' f,
    step st t next = Ok (st', false)
    /\ currentFunction st' = Some (drop 3 t)
    /\ function_of st' file (drop 3 t) = Some f
    /\ lines f = [] /\ calls f = None
    /\ pcData f = (if st_isCallgrind st then Some [] else None)
    /\ forall e, In e (st_events st) -> sget e (totals f) = Some (Int 0).
Proof.
  intros C F G Hne. unfold step. rewrite C. unfold do_fn. rewrite F.
  destruct (drop 3 t) as [|c r] eqn:D; [congruence|].
  cbn [truthy_str].
  destruct (sget file (st_filesData st)) as [fi|] eqn:G'; [|congruence].
  exists (store_function (set_currentFunction st (Some (String c r))) file
                         (String c r) (fresh_function st)),
         (fresh_function st).
  split; [reflexivity|]. split; [|split; [|repeat split]].
  - unfold store_function. cbn. now rewrite G'.
  - apply function_of_store_same. cbn. congruence.
  - intros e He. unfold fresh_function, from_entries. cbn [totals].
    apply from_entries_zero; [discriminate | now left].
Qed.

Lemma fn_line_starts_afresh_witness :
  exists st' f,
    step inside_f "fn=f" None = Ok (st', false)
    /\ currentFunction st' = Some "f"
    /\ function_of st' "a.c" "f" = Some f
    /\ lines f = [] /\ calls f = None
    /\ pcData f = Some []
    /\ forall e, In e ["Ir"; "Cy"] -> sget e (totals f) = Some (Int 0).
Proof.
  apply (fn_line_starts_afresh inside_f "fn=f" None "a.c");
    [reflexivity | reflexivity | discriminate | discriminate].
Defined.

(** *** The line after [calls=] *)

Lemma function_of_store_counts st file fn f f' :
  function_of st file fn = Some f -> counts_of f' = counts_of f ->
  same_counts st (store_function st file fn f').
Proof.
  intros G Hc file2 fn2. unfold function_of, store_function in *.
  destruct (sget file (st_filesData st)) as [fi|] eqn:Gf; [|discriminate].
  cbn [st_filesData set_filesData].
  destruct (String.eqb file2 file) eqn:E.
  - apply String.eqb_eq in E. subst file2. rewrite Gf, sget_sput_same.
    cbn [functions].
    destruct (String.eqb fn2 fn) eqn:E2.
    + apply String.eqb_eq in E2. subst fn2.
      rewrite sget_sput_same, G. cbn. now rewrite Hc.
    + apply String.eqb_neq in E2. now rewrite sget_sput_other.
  - apply String.eqb_neq in E. now rewrite sget_sput_other.
Qed.

(** X4: the line that follows a [calls=] line is always consumed with it,
    whatever it is (a row, or a directive such as [fn=]): unless the [calls=]
    branch raises its [TypeError], parsing goes on after that line from a
    state with the same vocabulary, mode, current file and current function,
    and with the same lines, totals and PC records in every function. *)
Theorem calls_line_consumes_next (st : state) (l next : string) (rest : list string) :
  classify (st_isCallgrind st) (trim l) = Calls ->
  loop st (l :: next :: rest) = Throw TypeError
  \/ exists st',
      same_scope st st' /\ same_counts st st'
      /\ loop st (l :: next :: rest) = loop st' rest.
Proof.
  intros C. cbn [loop hd_error]. unfold step. rewrite C. unfold do_calls.
  assert (Hst : same_scope st st /\ same_counts st st)
    by (split; [unfold same_scope; auto | now intros file fn]).
  destruct (match_pc (trim next)) as [pc|];
    [|right; exists st; split; [|split]; tauto || reflexivity].
  destruct (truthy_str (currentFunction st)) as [fn|];
    [|right; exists st; split; [|split]; tauto || reflexivity].
  destruct (truthy_str (currentFile st)) as [file|];
    [|right; exists st; split; [|split]; tauto || reflexivity].
  destruct (function_of st file fn) as [f|] eqn:G; [|now left].
  right. eexists. split; [|split; [|reflexivity]].
  - pose proof (store_function_scope st file fn
                  (push_call f (mkCallInfo (st_pendingCallFile st)
                                           (st_pendingCallFunction st)
                                           (call_count (split_ws (drop 6 (trim l))))
                                           pc))) as S.
    unfold same_scope in *. cbn. tauto.
  - intros file2 fn2.
    exact (function_of_store_counts st file fn f
             (push_call f (mkCallInfo (st_pendingCallFile st)
                                      (st_pendingCallFunction st)
                                      (call_count (split_ws (drop 6 (trim l))))
                                      pc))
             G eq_refl file2 fn2).
Qed.

Lemma calls_line_consumes_next_witness :
  exists st',
    same_scope inside_f st' /\ same_counts inside_f st'
    /\ loop inside_f ["calls=2 0x10"; "fn=g"; "0x1000 10 1 1"]
       = loop st' ["0x1000 10 1 1"].
Proof.
  destruct (calls_line_consumes_next inside_f "calls=2 0x10" "fn=g"
              ["0x1000 10 1 1"] eq_refl) as [H | H].
  - vm_compute in H. discriminate H.
  - exact H.
Defined.

(** *** The counts of a row *)

Lemma for_each_assign_other evs e : forall counts idx d,
  (forall j, (idx <= j < idx + length counts)%nat -> event_at evs j <> e) ->
  sget e (for_each_count assign evs idx counts d) = sget e d.
Proof.
  induction counts as [|c r IH]; intros idx d Hne; [reflexivity|].
  cbn [for_each_count]. rewrite IH.
  - apply sget_sput_other. intros ->. apply (Hne idx); [simpl; lia | reflexivity].
  - intros j Hj. apply Hne. simpl. lia.
Qed.

Lemma for_each_assign_at evs e i :
  NoDup evs -> nth_error evs i = Some e ->
  forall counts idx d,
    (idx <= i < idx + length counts)%nat ->
    (idx + length counts <= length evs)%nat ->
    sget e (for_each_count assign evs idx counts d)
    = Some (nth (i - idx) counts (Int 0)).
Proof.
  intros Hnd Hi.
  assert (He : forall j, (j < length evs)%nat -> j <> i -> event_at evs j <> e).
  { intros j Hj Hji Heq. apply Hji.
    apply (proj1 (NoDup_nth_error evs) Hnd j i Hj).
    rewrite Hi. unfold event_at in Heq.
    rewrite (nth_error_nth' evs "undefined" Hj). now rewrite Heq. }
  induction counts as [|c r IH]; intros idx d Hrange Hlen; [simpl in Hrange; lia|].
  cbn [for_each_count]. simpl in Hrange, Hlen.
  destruct (Nat.eq_dec i idx) as [-> | Hneq].
  - rewrite for_each_assign_other.
    + assert (event_at evs idx = e) as ->.
      { unfold event_at. apply nth_error_nth. exact Hi. }
      rewrite sget_sput_same. now rewrite Nat.sub_diag.
    + intros j Hj. apply He; lia.
  - rewrite IH by lia.
    replace (i - idx)%nat with (S (i - S idx)) by lia. reflexivity.
Qed.

Lemma record_of_row_counts (evs : list string) (t : string) (i : nat) (e : string) :
  NoDup evs -> nth_error evs i = Some e ->
  sget e (events (record_of_row evs t))
  = Some (nth i (written_counts t) (Int 0)).
Proof.
  intros Hnd Hi. unfold record_of_row, written_counts. cbn [events].
  assert (Hlt : (i < length evs)%nat) by (apply nth_error_Some; congruence).
  assert (Hlen : length (fill_counts evs (map parseInt (skipn 2 (split_ws t))))
                 = length evs).
  { unfold fill_counts. now rewrite length_map, length_seq. }
  rewrite (for_each_assign_at evs e i Hnd Hi) by (rewrite ?Hlen; lia).
  rewrite Nat.sub_0_r. unfold fill_counts.
  apply f_equal. apply nth_error_nth.
  rewrite nth_error_map, (nth_error_nth' (seq 0 (length evs)) 0%nat)
    by (rewrite length_seq; exact Hlt).
  now rewrite seq_nth by exact Hlt.
Qed.

(** X5: in instruction-level callgrind mode, the turn of the loop on a data
    row of the current function stores, under the PC of the row, a PC record
    with an entry for every event of the vocabulary (a vocabulary without
    repetition): the [i]-th event gets the [i]-th count written on the row,
    and the count 0 when the row writes fewer counts than there are
    events. *)
Theorem row_counts_follow_vocabulary
        (st : state) (file fn : string) (f : FunctionData)
        (d : list (string * PcLineData)) (t p : string) (next : option string)
        (i : nat) (e : string) :
  instr_mode st ->
  currentFile st = Some file -> file <> "" ->
  currentFunction st = Some fn -> fn <> "" ->
  function_of st file fn = Some f -> pcData f = Some d ->
  pc_row t p ->
  NoDup (st_events st) -> nth_error (st_events st) i = Some e ->
  exists st' f' r,
    step st t next = Ok (st', false)
    /\ function_of st' file fn = Some f'
    /\ pc_record f' p = Some r
    /\ pc r = p
    /\ sget e (events r) = Some (nth i (written_counts t) (Int 0)).
Proof.
  intros Hm Hfile Hf Hfn Hn Hfun Hd Hrow Hnd Hi.
  exists (store_function st file fn (callgrind_row (st_events st) (split_ws t) f)),
         (callgrind_row (st_events st) (split_ws t) f),
         (record_of_row (st_events st) t).
  split; [now apply (ParserFacts.pc_row_step st file fn f t p next)|].
  split; [eapply ParserFacts.function_of_store; eauto|].
  destruct Hrow as (_ & <- & _).
  split; [now apply (ParserFacts.pc_record_callgrind_row _ _ f d)|].
  split; [reflexivity|].
  now apply record_of_row_counts.
Qed.

Lemma row_counts_follow_vocabulary_witness :
  exists st' f' r,
    step (set_events inside_f ["Ir"; "Cy"; "Dr"]) "0x1000 10 7" None = Ok (st', false)
    /\ function_of st' "a.c" "f" = Some f'
    /\ pc_record f' "0x1000" = Some r
    /\ pc r = "0x1000"
    /\ sget "Cy" (events r) = Some (nth 1 (written_counts "0x1000 10 7") (Int 0)).
Proof.
  apply (row_counts_follow_vocabulary
           (set_events inside_f ["Ir"; "Cy"; "Dr"]) "a.c" "f"
           (mkFunctionData [] [("Ir", Int 0); ("Cy", Int 0)] (Some []) None)
           [] "0x1000 10 7" "0x1000" None 1 "Cy");
    try reflexivity; try discriminate.
  - split; reflexivity.
  - repeat split; try reflexivity; vm_compute; lia.
  - repeat constructor; simpl; intuition discriminate.
Defined.

End ParserMore.

(* ================================================================== *)
(** ** More about the call tree *)

Module CallTreeMore.
Import JsString JsNum CallTree CallTreeSpec CallTreeProps.

(** *** The ids of a materialized tree *)

Lemma ids_with_callCount n c : ids (with_callCount n c) = ids n.
Proof. now destruct n. Qed.

Lemma seq_join a b c :
  (a <= b)%nat -> (b <= c)%nat -> seq a (b - a) ++ seq b (c - b) = seq a (c - a).
Proof.
  intros Hab Hbc. replace (c - a)%nat with ((b - a) + (c - b))%nat by lia.
  rewrite seq_app. now replace (a + (b - a))%nat with b by lia.
Qed.

Lemma each_call_numbers rec pf :
  numbers_in_order rec ->
  forall cs nid acc kids nid',
    each_call rec pf cs nid acc = Some (kids, nid') ->
    (nid <= nid')%nat
    /\ map id_num (flat_map ids kids)
       = map id_num (flat_map ids acc) ++ seq nid (nid' - nid).
Proof.
  intros Hrec. induction cs as [|call rest IH]; intros nid acc kids nid'.
  - cbn [each_call]. intros [= <- <-]. split; [lia|].
    now rewrite Nat.sub_diag, app_nil_r.
  - cbn [each_call].
    destruct (Parser.truthy_str (Parser.targetFunction call)) as [tfn|];
      [|apply IH].
    match goal with
    | |- context [rec ?k nid] => destruct (rec k nid) as [[r n1]|] eqn:R
    end; [|discriminate].
    apply Hrec in R. destruct r as [child|].
    + destruct R as [Hlt Hids]. intros E. apply IH in E as [Hle E].
      split; [lia|]. rewrite E, flat_map_app, map_app. cbn [flat_map].
      rewrite app_nil_r, ids_with_callCount, Hids, <- app_assoc.
      now rewrite seq_join by lia.
    + subst n1. intros E. apply IH in E as [Hle E].
      split; [lia|]. rewrite E, flat_map_app, map_app. cbn.
      rewrite <- app_assoc. cbn [app].
      change (nid :: seq (S nid) (nid' - S nid)) with (seq nid (S (nid' - S nid))).
      now replace (S (nid' - S nid)) with (nid' - nid)%nat by lia.
Qed.

Lemma buildTreeFromNode_numbers fm :
  forall fuel visited, numbers_in_order (fun k n => buildTreeFromNode fm fuel k visited n).
Proof.
  induction fuel as [|fuel IH]; intros visited k n r n'; [discriminate|].
  cbn [buildTreeFromNode].
  destruct (mem k visited); [now intros [= <- <-]|].
  destruct (sget k fm) as [info|]; [|now intros [= <- <-]].
  cbn [createNode].
  destruct (each_call _ _ _ _ _) as [[kids n2]|] eqn:E; [|discriminate].
  intros [= <- <-].
  apply (each_call_numbers _ _ (IH (k :: visited))) in E as [Hle E].
  split; [lia|]. cbn in *. rewrite E.
  change (n :: seq (S n) (n2 - S n)) with (seq n (S (n2 - S n))).
  now replace (S (n2 - S n)) with (n2 - n)%nat by lia.
Qed.

(** X6: the nodes of a materialized tree are numbered from the counter on,
    consecutively, each node before its children and the children in order
    (stubs included); in particular no two nodes of the tree have the same
    id, and the counter that is returned is the next free number. *)
Theorem subtree_ids_consecutive (fm : list (string * FuncInfo)) (entry : string)
        (nid nid' : nat) (tree : CallTreeNode) :
  subtree_from fm entry nid = Some (Some tree, nid') ->
  map id_num (ids tree) = seq nid (nid' - nid)
  /\ (nid < nid')%nat
  /\ NoDup (ids tree).
Proof.
  unfold subtree_from. intros H.
  apply (buildTreeFromNode_numbers fm) in H as [Hlt Hids].
  split; [exact Hids|]. split; [exact Hlt|].
  apply (NoDup_map_inv id_num). rewrite Hids. apply seq_NoDup.
Qed.

Lemma subtree_ids_consecutive_witness :
  exists tree nid',
    subtree_from two_calls_map "a.c:f" 7 = Some (Some tree, nid')
    /\ map id_num (ids tree) = seq 7 (nid' - 7)
    /\ (7 < nid')%nat
    /\ NoDup (ids tree).
Proof.
  eexists. eexists. split; [vm_compute; reflexivity|].
  apply (subtree_ids_consecutive two_calls_map "a.c:f" 7).
  vm_compute. reflexivity.
Defined.

(** *** The children of a node *)

Lemma each_call_counts rec pf :
  forall cs nid acc kids nid',
    each_call rec pf cs nid acc = Some (kids, nid') ->
    map callCount kids
    = map callCount acc
      ++ map (fun c => count_or_one (Parser.count c)) (targeted cs).
Proof.
  induction cs as [|call rest IH]; intros nid acc kids nid'.
  - cbn. intros [= <- <-]. now rewrite app_nil_r.
  - cbn [each_call targeted filter].
    destruct (Parser.truthy_str (Parser.targetFunction call)) as [tfn|];
      [|apply IH].
    match goal with
    | |- context [rec ?k nid] => destruct (rec k nid) as [[[child|] n1]|]
    end; try discriminate;
      intros E; apply IH in E; rewrite E, map_app, <- app_assoc;
      f_equal; cbn; f_equal; now destruct child.
Qed.

(** X7: the entry of a subtree is materialized exactly when its key is in
    the function map (otherwise the result is null and the counter is not
    touched); the node then carries the name and the file of the function,
    the id made from the counter, and one child per call that names a target
    function, in the order of the calls, with the count of the call as its
    call count (1 when the count is 0). *)
Theorem subtree_root_and_children (fm : list (string * FuncInfo)) (entry : string)
        (nid : nat) :
  match sget entry fm with
  | None => subtree_from fm entry nid = Some (None, nid)
  | Some info =>
      exists tree nid',
        subtree_from fm entry nid = Some (Some tree, nid')
        /\ id tree = node_ nid
        /\ functionName tree = fi_funcName info
        /\ fileName tree = fi_fileName info
        /\ map callCount (children tree)
           = map (fun c => count_or_one (Parser.count c))
                 (targeted (calls_or_empty (funcData info)))
  end.
Proof.
  unfold subtree_from, enough_fuel. cbn [buildTreeFromNode mem existsb].
  destruct (sget entry fm) as [info|] eqn:G; [|reflexivity].
  cbn [createNode].
  destruct (CallTreeFacts.each_call_returns
              (fun k n => buildTreeFromNode fm (length fm) k [entry] n)
              (fi_fileName info) (unvisited fm [entry])) with
    (cs := calls_or_empty (funcData info)) (nid := S nid) (acc := @nil CallTreeNode)
    as (kids & nid' & E & _).
  - intros k n. apply CallTreeFacts.buildTreeFromNode_returns.
    pose proof (CallTreeFacts.unvisited_decreases fm entry [] info G eq_refl) as Hd.
    assert (unvisited fm [] <= length fm)%nat; [|lia].
    unfold unvisited. apply filter_length_le.
  - constructor.
  - rewrite E. exists (with_children
                         (fst (createNode (fi_fileName info) (fi_funcName info)
                                          (funcData info) nid)) kids), nid'.
    split; [reflexivity|]. repeat split.
    cbn [children with_children]. apply each_call_counts in E. exact E.
Qed.

End CallTreeMore.

(* ================================================================== *)
(** ** The roots and the node map *)

Module CallForestFacts.
Import JsString JsNum CallTree CallTreeSpec CallTreeProps CallForest DictFacts.

(** *** Keys of a dictionary that is filled *)

Lemma keys_sput {V : Type} k k' (v : V) m :
  In k (Dict.keys (sput k' v m)) <-> k = k' \/ In k (Dict.keys m).
Proof.
  unfold Dict.keys, sput. induction m as [|[k0 v0] m IH]; simpl.
  - intuition.
  - destruct (String.eqb k' k0) eqn:E; simpl.
    + apply String.eqb_eq in E. subst. intuition.
    + rewrite IH. intuition.
Qed.

Lemma keys_sget {V : Type} k (m : list (string * V)) :
  In k (Dict.keys m) <-> sget k m <> None.
Proof.
  unfold Dict.keys, sget. induction m as [|[k0 v0] m IH]; simpl.
  - intuition.
  - destruct (String.eqb k k0) eqn:E.
    + apply String.eqb_eq in E. subst. intuition discriminate.
    + apply String.eqb_neq in E. rewrite <- IH. intuition congruence.
Qed.

Lemma fold_keys {A M : Type} (keysM : M -> list string) (f : M -> A -> M)
      (P : A -> Prop) (k : string) :
  (forall m x, In k (keysM (f m x)) <-> In k (keysM m) \/ P x) ->
  forall l m,
    In k (keysM (fold_left f l m)) <-> In k (keysM m) \/ exists x, In x l /\ P x.
Proof.
  intros Hstep. induction l as [|x l IH]; intros m; cbn [fold_left].
  - split; [auto | intros [H | (x & [] & _)]; exact H].
  - rewrite IH, Hstep. split.
    + intros [[H | H] | (y & Hy & Py)]; auto.
      * right. exists x. split; [now left | exact H].
      * right. exists y. split; [now right | exact Py].
    + intros [H | (y & [<- | Hy] & Py)]; auto.
      right. exists y. auto.
Qed.

(** *** The roots *)

Lemma keys_note_call filename pk m call k :
  In k (Dict.keys (note_call filename pk m call))
  <-> In k (Dict.keys m)
      \/ exists tfn, Parser.truthy_str (Parser.targetFunction call) = Some tfn
                     /\ k = key_of (target_file call filename) tfn.
Proof.
  unfold note_call.
  destruct (Parser.truthy_str (Parser.targetFunction call)) as [tfn|].
  - rewrite keys_sput. split.
    + intros [-> | H]; [right; now exists tfn | now left].
    + intros [H | (t & [= <-] & ->)]; auto.
  - split; [auto | intros [H | (t & [=] & _)]; exact H].
Qed.

Lemma keys_childToParentMap d k :
  In k (Dict.keys (childToParentMap d)) <-> called d k.
Proof.
  unfold childToParentMap, called.
  rewrite (fold_keys (@Dict.keys string (list string)) _
             (fun p => exists funcName fd call tfn,
                  In (funcName, fd) (Parser.functions (snd p))
                  /\ In call (calls_or_empty fd)
                  /\ Parser.truthy_str (Parser.targetFunction call) = Some tfn
                  /\ k = key_of (target_file call (fst p)) tfn)).
  - split.
    + intros [[] | ([filename fileData] & Hin & funcName & fd & call & tfn & H)].
      exists filename, fileData, funcName, fd, call, tfn. cbn in H. tauto.
    + intros (filename & fileData & funcName & fd & call & tfn & Hin & H).
      right. exists (filename, fileData). split; [exact Hin|].
      exists funcName, fd, call, tfn. exact H.
  - intros m [filename fileData]. cbn [fst snd].
    rewrite (fold_keys (@Dict.keys string (list string)) _
               (fun q => exists call tfn,
                    In call (calls_or_empty (snd q))
                    /\ Parser.truthy_str (Parser.targetFunction call) = Some tfn
                    /\ k = key_of (target_file call filename) tfn)).
    + split.
      * intros [H | ([funcName fd] & Hin & call & tfn & H)]; [now left|].
        right. exists funcName, fd, call, tfn. cbn in H. tauto.
      * intros [H | (funcName & fd & call & tfn & Hin & H)]; [now left|].
        right. exists (funcName, fd). split; [exact Hin|].
        exists call, tfn. exact H.
    + intros m' [funcName fd]. cbn [fst snd].
      rewrite (fold_keys (@Dict.keys string (list string)) _
                 (fun call => exists tfn,
                      Parser.truthy_str (Parser.targetFunction call) = Some tfn
                      /\ k = key_of (target_file call filename) tfn)).
      * split.
        -- intros [H | (call & Hin & tfn & H)]; [now left|].
           right. exists call, tfn. tauto.
        -- intros [H | (call & tfn & Hin & H)]; [now left|].
           right. exists call. split; [exact Hin|]. now exists tfn.
      * intros m'' call. apply keys_note_call.
Qed.

Lemma keys_functionMap_of d k :
  In k (Dict.keys (functionMap_of d)) <-> profiled d k.
Proof.
  unfold functionMap_of, profiled.
  rewrite (fold_keys (@Dict.keys string FuncInfo) _
             (fun p => exists funcName fd,
                  In (funcName, fd) (Parser.functions (snd p))
                  /\ k = key_of (fst p) funcName)).
  - split.
    + intros [[] | ([filename fileData] & Hin & funcName & fd & H)].
      exists filename, fileData, funcName, fd. cbn in H. tauto.
    + intros (filename & fileData & funcName & fd & Hin & H).
      right. exists (filename, fileData). split; [exact Hin|].
      exists funcName, fd. exact H.
  - intros m [filename fileData]. cbn [fst snd].
    rewrite (fold_keys (@Dict.keys string FuncInfo) _
               (fun q => k = key_of filename (fst q))).
    + split.
      * intros [H | ([funcName fd] & Hin & H)]; [now left|].
        right. exists funcName, fd. cbn in H. tauto.
      * intros [H | (funcName & fd & Hin & H)]; [now left|].
        right. exists (funcName, fd). split; [exact Hin | exact H].
    + intros m' [funcName fd]. cbn [fst]. rewrite keys_sput. tauto.
Qed.

(** X8: a key is a root of the call tree exactly when it is the key of a
    function of the profile and no call of the profile targets it (a call
    without target file targets the file of its caller).  In particular a
    function that calls itself is never a root. *)
Theorem root_iff_never_called (d : Parser.CachegrindData) (key : string) :
  In key (rootFunctionKeys d) <-> profiled d key /\ ~ called d key.
Proof.
  unfold rootFunctionKeys. rewrite filter_In, keys_functionMap_of.
  rewrite <- keys_childToParentMap. unfold mem.
  split; intros [Hp Hc]; split; auto.
  - intros Hin. apply negb_true_iff in Hc.
    assert (existsb (String.eqb key) (Dict.keys (childToParentMap d)) = true);
      [|congruence].
    apply existsb_exists. exists key. split; [exact Hin | apply String.eqb_refl].
  - apply negb_true_iff. apply not_true_is_false. intros H.
    apply existsb_exists in H as (x & Hx & E).
    apply String.eqb_eq in E. now subst x.
Qed.

(** In the profile where [main] calls [work] and [work] calls itself, the
    only root is [main]. *)
Example recursive_profile_roots : rootFunctionKeys recursive_data = ["a.c:main"].
Proof. vm_compute. reflexivity. Qed.

(** *** The trees of the roots *)

Lemma add_root_ok fm roots st key :
  In key roots -> forest_ok fm roots st -> forest_ok fm roots (add_root fm st key).
Proof.
  intros Hkey (Hall & Hnd & Hlt). unfold add_root, forest_ok.
  destruct (subtree_from fm key (snd st)) as [[[t|] nid']|] eqn:E.
  - pose proof (CallTreeMore.buildTreeFromNode_numbers fm _ _ _ _ _ _ E)
      as [Hless Hids].
    destruct (0 <? selfTime t)%Z eqn:Hs.
    + apply Z.ltb_lt in Hs. cbn [fst snd]. split; [|split].
      * intros t' Ht'. apply in_app_or in Ht' as [Ht' | [<- | []]]; [now apply Hall|].
        split; [exact Hs|]. now exists key, (snd st), nid'.
      * rewrite flat_map_app, map_app. cbn [flat_map]. rewrite app_nil_r, Hids.
        apply NoDup_app; [exact Hnd | apply seq_NoDup |].
        intros x Hx Hseq. apply in_seq in Hseq. apply Hlt in Hx. lia.
      * intros x. rewrite flat_map_app, map_app. cbn [flat_map].
        rewrite app_nil_r, Hids.
        intros Hx. apply in_app_or in Hx as [Hx | Hx].
        -- apply Hlt in Hx. lia.
        -- apply in_seq in Hx. lia.
    + cbn [fst snd]. split; [exact Hall | split; [exact Hnd|]].
      intros x Hx. apply Hlt in Hx. lia.
  - pose proof (CallTreeMore.buildTreeFromNode_numbers fm _ _ _ _ _ _ E) as Heq.
    cbn in Heq. subst nid'. cbn [fst snd]. auto.
  - auto.
Qed.

Lemma fold_roots_ok fm roots : forall l st,
  (forall k, In k l -> In k roots) ->
  forest_ok fm roots st -> forest_ok fm roots (fold_left (add_root fm) l st).
Proof.
  induction l as [|k l IH]; intros st Hsub Hst; [exact Hst|].
  cbn [fold_left]. apply IH.
  - intros k' Hk'. apply Hsub. now right.
  - apply add_root_ok; [apply Hsub; now left | exact Hst].
Qed.

Lemma build_roots_ok fm roots : forest_ok fm roots (build_roots fm roots).
Proof.
  unfold build_roots. apply fold_roots_ok; [auto|].
  unfold forest_ok. cbn. split; [intros t [] | split; [constructor | intros x []]].
Qed.

(** X9: every tree of the call tree is the materialized subtree of a root
    function whose self time is positive (a root with self time 0 is left out
    with all that it calls), and no two nodes of the whole call tree, stubs
    included, have the same id. *)
Theorem call_tree_of_roots (fm : list (string * FuncInfo)) (roots : list string) :
  (forall t, In t (fst (build_roots fm roots)) ->
             (0 < selfTime t)%Z
             /\ exists key nid nid',
                 In key roots /\ subtree_from fm key nid = Some (Some t, nid'))
  /\ NoDup (flat_map ids (fst (build_roots fm roots))).
Proof.
  destruct (build_roots_ok fm roots) as (Hall & Hnd & _).
  split; [exact Hall|]. now apply (NoDup_map_inv id_num).
Qed.

Lemma call_tree_of_roots_witness :
  exists t,
    callTreeData recursive_data = [t]
    /\ (0 < selfTime t)%Z
    /\ exists key nid nid',
        In key (rootFunctionKeys recursive_data)
        /\ subtree_from (functionMap_of recursive_data) key nid = Some (Some t, nid').
Proof.
  eexists. split; [vm_compute; reflexivity|].
  apply (proj1 (call_tree_of_roots (functionMap_of recursive_data)
                                   (rootFunctionKeys recursive_data))).
  vm_compute. left. reflexivity.
Defined.

(** *** The node map *)

Lemma map_ok_nil m : map_ok [] m m.
Proof. unfold map_ok. split; [auto | split; [auto | intros x []]]. Qed.

Lemma map_ok_trans ns1 ns2 m1 m2 m3 :
  map_ok ns1 m1 m2 -> map_ok ns2 m2 m3 -> map_ok (ns1 ++ ns2) m1 m3.
Proof.
  intros (K1 & S1 & C1) (K2 & S2 & C2). split; [|split].
  - intros k Hk. rewrite K2; [now apply K1|]. rewrite K1; auto.
  - intros k v Hv. apply S2 in Hv as [Hv | [Hin Hk]].
    + apply S1 in Hv as [Hv | [Hin Hk]]; [now left|].
      right. split; [apply in_or_app; now left | exact Hk].
    + right. split; [apply in_or_app; now right | exact Hk].
  - intros x Hx. apply in_app_or in Hx as [Hx | Hx].
    + rewrite K2; now apply C1.
    + now apply C2.
Qed.

Lemma fold_addToNodeMap_ok kids :
  Forall (fun c => forall m, map_ok (nodes_of c) m (addToNodeMap c m)) kids ->
  forall m, map_ok (flat_map nodes_of kids) m
                   (fold_left (fun acc child => addToNodeMap child acc) kids m).
Proof.
  induction 1 as [|c r Hc _ IH]; intros m; [apply map_ok_nil|].
  cbn [fold_left flat_map]. eapply map_ok_trans; [apply Hc | apply IH].
Qed.

Lemma addToNodeMap_ok n : forall m, map_ok (nodes_of n) m (addToNodeMap n m).
Proof.
  induction n as [i fn file ps pe cc tt stime kids cs IH]
    using SearchFacts.node_induction.
  intros m. cbn [addToNodeMap nodes_of].
  set (n := mkNode i fn file ps pe cc tt stime kids cs).
  change (n :: flat_map nodes_of kids) with ([n] ++ flat_map nodes_of kids).
  eapply map_ok_trans; [|apply fold_addToNodeMap_ok; exact IH].
  change (key_of file fn) with (node_key n).
  destruct (sget (node_key n) m) as [v|] eqn:G.
  - split; [auto | split; [auto|]].
    intros x [<- | []]. congruence.
  - split; [|split].
    + intros k Hk. apply sget_sput_other. intros ->. congruence.
    + intros k v Hv. destruct (String.eqb k (node_key n)) eqn:E.
      * apply String.eqb_eq in E. subst k. rewrite sget_sput_same in Hv.
        inversion Hv. subst v. right. split; [now left | reflexivity].
      * apply String.eqb_neq in E. rewrite sget_sput_other in Hv by exact E.
        now left.
    + intros x [<- | []]. rewrite sget_sput_same. discriminate.
Qed.

(** X10: the node map holds one node for every function key that occurs in
    the call tree, and nothing else: whatever it holds under a key is a node
    of the call tree with that very key, and every node of the call tree,
    stubs included, finds a node of its key in the map (the first one met,
    roots in order, each node before its children). *)
Theorem node_map_covers_call_tree (roots : list CallTreeNode) :
  (forall k v, sget k (nodeMap_of roots) = Some v ->
               k = node_key v /\ In v (flat_map nodes_of roots))
  /\ (forall x, In x (flat_map nodes_of roots) ->
                exists v, sget (node_key x) (nodeMap_of roots) = Some v
                          /\ node_key v = node_key x).
Proof.
  assert (H : map_ok (flat_map nodes_of roots) [] (nodeMap_of roots)).
  { apply fold_addToNodeMap_ok. apply Forall_forall. intros c _.
    apply addToNodeMap_ok. }
  destruct H as (_ & S & C).
  assert (S' : forall k v, sget k (nodeMap_of roots) = Some v ->
                           k = node_key v /\ In v (flat_map nodes_of roots)).
  { intros k v Hv. apply S in Hv as [Hv | [Hin Hk]]; [discriminate | auto]. }
  split; [exact S'|].
  intros x Hx. destruct (sget (node_key x) (nodeMap_of roots)) as [v|] eqn:G.
  - exists v. split; [reflexivity|]. now destruct (S' _ _ G) as [<- _].
  - now destruct (C x Hx).
Qed.

Lemma node_map_covers_call_tree_witness :
  exists v, sget "a.c:work" (nodeMap_of (callTreeData recursive_data)) = Some v
            /\ node_key v = "a.c:work".
Proof.
  apply (proj2 (node_map_covers_call_tree (callTreeData recursive_data))
               (stub 2 "work" "a.c" 1)).
  vm_compute. right. right. left. reflexivity.
Defined.

End CallForestFacts.

(* ================================================================== *)
(** ** Strings *)

Module StringFacts.
Import JsString StringSpec.
Local Open Scope string_scope.

Lemma sapp_nil_r s : s ++ "" = s.
Proof. induction s as [|c r IH]; simpl; [reflexivity | now rewrite IH]. Qed.

Lemma sapp_assoc a b c : (a ++ b) ++ c = a ++ (b ++ c).
Proof. induction a as [|x r IH]; simpl; [reflexivity | now rewrite IH]. Qed.

Lemma startsWith_iff p : forall s, startsWith p s = true <-> exists b, s = p ++ b.
Proof.
  unfold startsWith. induction p as [|a p IH]; intros s.
  - split; [intros _; now exists s | intros _; now destruct s].
  - destruct s as [|c s]; cbn [String.prefix].
    + split; [discriminate | intros (b & H); discriminate H].
    + destruct (ascii_dec a c) as [<- | Hne].
      * rewrite IH. split; intros (b & H); exists b.
        -- now rewrite H.
        -- simpl in H. now inversion H.
      * split; [discriminate | intros (b & H)]. simpl in H. inversion H. congruence.
Qed.

Lemma part_of_refl s : part_of s s.
Proof. exists "", "". simpl. now rewrite sapp_nil_r. Qed.

Lemma part_of_trans a b c : part_of a b -> part_of b c -> part_of a c.
Proof.
  intros (x & y & ->) (u & v & ->).
  exists (u ++ x), (y ++ v). now rewrite !sapp_assoc.
Qed.

Lemma part_of_cons t c s : part_of t s -> part_of t (String c s).
Proof. intros (a & b & ->). now exists (String c a), b. Qed.

Lemma includes_iff q : forall s, includes q s = true <-> part_of q s.
Proof.
  induction s as [|c r IH].
  - cbn [includes]. rewrite orb_false_r, startsWith_iff. split.
    + intros (b & H). exists "", b. exact H.
    + intros (a & b & H). destruct a; [now exists b | discriminate].
  - cbn [includes]. rewrite orb_true_iff, startsWith_iff, IH. split.
    + intros [(b & H) | H]; [exists "", b; exact H | now apply part_of_cons].
    + intros (a & b & H). destruct a as [|x a].
      * left. now exists b.
      * right. simpl in H. inversion H. now exists a, b.
Qed.

Lemma take_drop n : forall s, take n s ++ drop n s = s.
Proof.
  induction n as [|n IH]; intros s; [reflexivity|].
  destruct s as [|c r]; [reflexivity|]. simpl. now rewrite IH.
Qed.

Lemma part_of_take n s : part_of (take n s) s.
Proof. exists "", (drop n s). simpl. now rewrite take_drop. Qed.

Lemma part_of_drop n s : part_of (drop n s) s.
Proof. exists (take n s), "". now rewrite sapp_nil_r, take_drop. Qed.

Lemma part_of_slice a len s : part_of (slice a len s) s.
Proof.
  unfold slice. eapply part_of_trans; [apply part_of_take | apply part_of_drop].
Qed.

Lemma toLowerCase_append a b : toLowerCase (a ++ b) = toLowerCase a ++ toLowerCase b.
Proof. induction a as [|c r IH]; simpl; [reflexivity | now rewrite IH]. Qed.

Lemma part_of_toLowerCase t s : part_of t s -> part_of (toLowerCase t) (toLowerCase s).
Proof.
  intros (a & b & ->). exists (toLowerCase a), (toLowerCase b).
  now rewrite !toLowerCase_append.
Qed.

(** *** Pieces between separators *)

Lemma all_chars_app p a b :
  all_chars p (a ++ b) = all_chars p a && all_chars p b.
Proof.
  induction a as [|c r IH]; simpl; [reflexivity|].
  now rewrite IH, andb_assoc.
Qed.

(** A piece of [split_runs] is made of characters that are no separators,
    and is a part of the string: either it continues [cur] with a prefix of
    what is left, or it lies within what is left. *)
Lemma split_runs_aux_piece is_sep : forall s in_sep cur w,
  all_chars (fun c => negb (is_sep c)) cur = true ->
  In w (split_runs_aux is_sep in_sep cur s) ->
  all_chars (fun c => negb (is_sep c)) w = true
  /\ ((exists pre b, w = cur ++ pre /\ s = pre ++ b) \/ part_of w s).
Proof.
  induction s as [|c r IH]; intros in_sep cur w Hcur; cbn [split_runs_aux].
  - intros [<- | []]. split; [exact Hcur|]. left. exists "", "".
    now rewrite sapp_nil_r.
  - destruct (is_sep c) eqn:Sep.
    + assert (Hrec : In w (split_runs_aux is_sep true "" r) ->
                     all_chars (fun c => negb (is_sep c)) w = true
                     /\ part_of w (String c r)).
      { intros Hin. apply IH in Hin as [Hw [(pre & b & -> & ->) | Hp]];
          [| | reflexivity].
        - split; [exact Hw|]. exists (String c ""), b. reflexivity.
        - split; [exact Hw | now apply part_of_cons]. }
      destruct in_sep.
      * intros Hin. destruct (Hrec Hin); auto.
      * intros [<- | Hin].
        -- split; [exact Hcur|]. left. exists "", (String c r).
           now rewrite sapp_nil_r.
        -- destruct (Hrec Hin); auto.
    + intros Hin. apply IH in Hin as [Hw [(pre & b & -> & ->) | Hp]].
      * split; [exact Hw|]. left. exists (String c pre), b.
        now rewrite sapp_assoc.
      * split; [exact Hw | right; now apply part_of_cons].
      * rewrite all_chars_app, Hcur. simpl. now rewrite Sep.
Qed.

Lemma split_runs_piece is_sep s w :
  In w (split_runs is_sep s) ->
  all_chars (fun c => negb (is_sep c)) w = true /\ part_of w s.
Proof.
  intros Hin. apply split_runs_aux_piece in Hin as [Hw [(pre & b & -> & ->) | Hp]];
    [| | reflexivity]; split; auto.
  exists "", b. reflexivity.
Qed.

(** *** Blanks that were put in *)

Lemma spaced_prefix p s s' :
  spaced s s' -> p " "%char = false ->
  forall w b, all_chars p w = true -> s' = w ++ b -> exists b', s = w ++ b'.
Proof.
  intros Hsp Hblank. induction Hsp as [|c s s' Hs IH|c s s' Hs IH|s s' Hs IH];
    intros w b Hw E.
  - destruct w; [now exists "" | discriminate].
  - destruct w as [|x w]; [now eexists|].
    simpl in E. inversion E. subst x s'. simpl in Hw.
    apply andb_true_iff in Hw as [_ Hw].
    destruct (IH w b Hw eq_refl) as (b' & ->). now exists b'.
  - destruct w as [|x w]; [now eexists|].
    simpl in E. inversion E. subst x. simpl in Hw. now rewrite Hblank in Hw.
  - destruct w as [|x w]; [now eexists|].
    simpl in E. inversion E. subst x. simpl in Hw. now rewrite Hblank in Hw.
Qed.

Lemma spaced_part p s s' :
  spaced s s' -> p " "%char = false ->
  forall w, all_chars p w = true -> part_of w s' -> part_of w s.
Proof.
  intros Hsp Hblank. induction Hsp as [|c s s' Hs IH|c s s' Hs IH|s s' Hs IH];
    intros w Hw (a & b & E).
  - destruct a; [|discriminate]. destruct w; [|discriminate].
    apply part_of_refl.
  - destruct a as [|x a].
    + destruct (spaced_prefix p _ _ (spaced_keep c s s' Hs) Hblank w b Hw E)
        as (b' & ->).
      now exists "", b'.
    + simpl in E. inversion E. apply part_of_cons. apply IH; [exact Hw|].
      now exists a, b.
  - destruct a as [|x a].
    + destruct (spaced_prefix p _ _ (spaced_blank c s s' Hs) Hblank w b Hw E)
        as (b' & ->).
      now exists "", b'.
    + simpl in E. inversion E. apply part_of_cons. apply IH; [exact Hw|].
      now exists a, b.
  - destruct a as [|x a].
    + destruct (spaced_prefix p _ _ (spaced_insert s s' Hs) Hblank w b Hw E)
        as (b' & ->).
      now exists "", b'.
    + simpl in E. inversion E. apply IH; [exact Hw|]. now exists a, b.
Qed.

End StringFacts.

(* ================================================================== *)
(** ** More about the search index *)

Module SearchMore.
Import JsString CallTree Search SearchSpec SearchProps StringSpec StringFacts DictFacts.

(** *** The terms of a name are parts of the name *)

Lemma spaced_split_camel n : forall s, (String.length s <= n)%nat -> spaced s (split_camel s).
Proof.
  induction n as [|n IH]; intros s Hlen.
  - destruct s; [constructor | simpl in Hlen; lia].
  - destruct s as [|a [|b r]]; cbn [split_camel].
    + constructor.
    + repeat constructor.
    + simpl in Hlen. destruct (is_lower a && is_upper b).
      * apply spaced_keep, spaced_insert, spaced_keep. apply IH. lia.
      * apply spaced_keep. apply IH. simpl. lia.
Qed.

Lemma spaced_underscores s s' : spaced s s' -> spaced s (underscores_to_spaces s').
Proof.
  induction 1 as [|c s s' Hs IH|c s s' Hs IH|s s' Hs IH];
    cbn [underscores_to_spaces].
  - constructor.
  - destruct (Ascii.eqb c "_"); [now apply spaced_blank | now apply spaced_keep].
  - change (Ascii.eqb " " "_") with false. cbn iota. now apply spaced_blank.
  - change (Ascii.eqb " " "_") with false. cbn iota. now apply spaced_insert.
Qed.

Lemma words_part_of name w : In w (words name) -> part_of w name.
Proof.
  unfold words. intros Hin. apply filter_In in Hin as [Hin _].
  apply split_runs_piece in Hin as [Hw Hp].
  apply (spaced_part (fun c => negb (negb (is_alnum c))) name
                     (underscores_to_spaces (split_camel name))); auto.
  apply spaced_underscores. now apply (spaced_split_camel (String.length name)).
Qed.

Lemma terms_of_part_of name t :
  In t (terms_of name) -> part_of t (toLowerCase name).
Proof.
  unfold terms_of. intros Hin.
  apply in_app_or in Hin as [[<- | []] | Hin]; [apply part_of_refl|].
  apply in_app_or in Hin as [Hin | Hin].
  { apply in_map_iff in Hin as (w & <- & Hw).
    apply part_of_toLowerCase. now apply words_part_of. }
  apply in_app_or in Hin as [Hin | Hin].
  { apply in_map_iff in Hin as (len & <- & _). apply part_of_take. }
  apply in_app_or in Hin as [Hin | Hin].
  { destruct (3 <? String.length (toLowerCase name))%nat; [|contradiction].
    apply in_map_iff in Hin as (len & <- & _). apply part_of_drop. }
  destruct (String.length (toLowerCase name) <=? 8)%nat; [|contradiction].
  apply in_flat_map in Hin as (start & _ & Hin).
  apply in_map_iff in Hin as (len & <- & _). apply part_of_slice.
Qed.

(** *** What the index lists *)

Lemma in_sput {V : Type} k (v : V) k' v' m :
  In (k, v) (sput k' v' m) -> (k = k' /\ v = v') \/ In (k, v) m.
Proof.
  unfold sput. induction m as [|[k0 v0] m IH]; simpl.
  - intros [[= <- <-] | []]. now left.
  - destruct (String.eqb k' k0) eqn:E; simpl.
    + apply String.eqb_eq in E. subst k0.
      intros [[= <- <-] | H]; [now left | right; now right].
    + intros [H | H]; [right; now left|].
      apply IH in H as [H | H]; [now left | right; now right].
Qed.

Lemma in_set_add x n s : In x (NodeSet.add n s) -> x = n \/ In x s.
Proof.
  unfold NodeSet.add. destruct (NodeSet.has s n); [now right|].
  intros H. apply in_app_or in H as [H | [<- | []]]; auto.
Qed.

Lemma in_add_all x from : forall acc,
  In x (NodeSet.add_all from acc) -> In x from \/ In x acc.
Proof.
  unfold NodeSet.add_all. induction from as [|y r IH]; intros acc; cbn [fold_left].
  - now right.
  - intros H. apply IH in H as [H | H]; [left; now right|].
    apply in_set_add in H as [-> | H]; [left; now left | now right].
Qed.

Lemma addToIndex_sound t n ix :
  terms_sound ix -> In t (terms_of (functionName n)) ->
  terms_sound (addToIndex t n ix).
Proof.
  intros Hs Ht t' s' m Hin Hm. unfold addToIndex in Hin. cbn [termToNodes] in Hin.
  apply in_sput in Hin as [[-> ->] | Hin]; [|now apply (Hs t' s')].
  apply in_set_add in Hm as [-> | Hm]; [exact Ht|].
  destruct (sget t (termToNodes ix)) as [s|] eqn:G; [|contradiction].
  apply (Hs t s); [now apply CallTreeFacts.sget_in | exact Hm].
Qed.

Lemma index_terms_sound n ix : terms_sound ix -> terms_sound (index_terms n ix).
Proof.
  unfold index_terms.
  assert (H : forall ts, (forall t, In t ts -> In t (terms_of (functionName n))) ->
                         forall ix, terms_sound ix ->
                                    terms_sound (fold_left (fun acc t => addToIndex t n acc)
                                                           ts ix)).
  { induction ts as [|t r IH]; intros Hts ix' Hs; [exact Hs|].
    cbn [fold_left]. apply IH; [intros t' Ht'; apply Hts; now right|].
    apply addToIndex_sound; [exact Hs | apply Hts; now left]. }
  apply H. auto.
Qed.

Lemma indexNode_sound n :
  forall depth st, terms_sound (snd st) -> terms_sound (snd (indexNode n depth st)).
Proof.
  induction n as [i fn file ps pe cc tt stime kids cs IH]
    using SearchFacts.node_induction.
  intros depth st J. cbn [indexNode].
  destruct ((100 <? depth)%nat || visited_has i (fst st)); [exact J|].
  set (st1 := (i :: fst st, index_terms _ (snd st))).
  assert (J1 : terms_sound (snd st1)) by (apply index_terms_sound; exact J).
  clearbody st1. revert st1 J1.
  induction IH as [|k r Hk _ IHr]; intros st1 J1; [exact J1|].
  cbn [fold_left]. apply IHr. now apply Hk.
Qed.

Lemma buildIndex_sound nodes : terms_sound (buildIndex nodes).
Proof.
  unfold buildIndex.
  assert (J0 : terms_sound (snd (@nil node_id, empty))) by (intros t s n []).
  revert J0. generalize (@nil node_id, empty).
  induction nodes as [|n r IH]; intros st J; [exact J|].
  cbn [fold_left]. apply IH. now apply indexNode_sound.
Qed.

(** *** What a search returns *)

Lemma in_collect sel ix x : forall acc,
  In x (collect sel ix acc) ->
  In x acc \/ exists t s, In (t, s) (termToNodes ix) /\ sel t = true /\ In x s.
Proof.
  unfold collect.
  induction (termToNodes ix) as [|[t s] r IH]; intros acc; cbn [fold_left].
  - now left.
  - intros H. apply IH in H as [H | (t' & s' & Hin & Hsel & Hx)].
    + destruct (sel t) eqn:Hsel; [|now left].
      apply in_add_all in H as [H | H]; [|now left].
      right. exists t, s. split; [now left | auto].
    + right. exists t', s'. split; [now right | auto].
Qed.

Lemma search_lists_term ix q n :
  In n (search ix q) ->
  exists t s, In (t, s) (termToNodes ix) /\ In n s
              /\ part_of (trim (toLowerCase q)) t.
Proof.
  unfold search.
  destruct (String.eqb q "" || String.eqb (trim q) ""); [intros []|].
  set (termLower := trim (toLowerCase q)).
  set (direct := match sget termLower (termToNodes ix) with
                 | Some s => NodeSet.add_all s []
                 | None => []
                 end).
  assert (Hd : forall x, In x direct ->
                         exists t s, In (t, s) (termToNodes ix) /\ In x s
                                     /\ part_of termLower t).
  { intros x Hx. unfold direct in Hx.
    destruct (sget termLower (termToNodes ix)) as [s|] eqn:G; [|contradiction].
    apply in_add_all in Hx as [Hx | []].
    exists termLower, s. split; [now apply CallTreeFacts.sget_in|].
    split; [exact Hx | apply part_of_refl]. }
  clearbody direct.
  set (withPrefix := if (length direct <? 10)%nat
                     then collect (fun t => startsWith termLower t) ix direct
                     else direct).
  assert (Hp : forall x, In x withPrefix ->
                         exists t s, In (t, s) (termToNodes ix) /\ In x s
                                     /\ part_of termLower t).
  { intros x Hx. unfold withPrefix in Hx.
    destruct (length direct <? 10)%nat; [|now apply Hd].
    apply in_collect in Hx as [Hx | (t & s & Hin & Hsel & Hxs)]; [now apply Hd|].
    exists t, s. split; [exact Hin|]. split; [exact Hxs|].
    apply startsWith_iff in Hsel as (b & ->). now exists "", b. }
  clearbody withPrefix.
  destruct (length withPrefix <? 5)%nat; [|apply Hp].
  intros Hx. apply in_collect in Hx as [Hx | (t & s & Hin & Hsel & Hxs)];
    [now apply Hp|].
  exists t, s. split; [exact Hin|]. split; [exact Hxs|].
  apply andb_true_iff in Hsel as [_ Hsel]. now apply includes_iff.
Qed.

(** X11: a search only returns functions whose name contains the query:
    for every node that [search] returns on a built index, the query, in
    lower case and trimmed, is a contiguous part of the function name in
    lower case. *)
Theorem search_results_contain_query (nodes : list CallTreeNode) (q : string)
        (n : CallTreeNode) :
  In n (search (buildIndex nodes) q) ->
  part_of (trim (toLowerCase q)) (toLowerCase (functionName n)).
Proof.
  intros Hin. apply search_lists_term in Hin as (t & s & Hts & Hn & Hq).
  eapply part_of_trans; [exact Hq|].
  apply terms_of_part_of. exact (buildIndex_sound nodes t s n Hts Hn).
Qed.

Lemma search_results_contain_query_witness :
  part_of (trim (toLowerCase " Timer ")) (toLowerCase "update_system_timers").
Proof.
  apply (search_results_contain_query scenario5_nodes " Timer "
                                      (leaf 2 "update_system_timers")).
  vm_compute. right. left. reflexivity.
Defined.

End SearchMore.

(* ================================================================== *)
(** ** The ancestors to expand *)

Module AncestorsFacts.
Import JsString CallTree Ancestors CallForest.

Lemma lookup_put_id {V : Type} c i (v : V) pm :
  Dict.lookup id_eqb c (Dict.put id_eqb i v pm)
  = if id_eqb c i then Some v else Dict.lookup id_eqb c pm.
Proof.
  induction pm as [|[k w] pm IH]; simpl.
  - reflexivity.
  - destruct (id_eqb i k) eqn:E; simpl.
    + apply SearchFacts.id_eqb_eq in E. subst k. now destruct (id_eqb c i).
    + rewrite IH. destruct (id_eqb c k) eqn:E2; [|reflexivity].
      apply SearchFacts.id_eqb_eq in E2. subst k.
      destruct (id_eqb c i) eqn:E3; [|reflexivity].
      apply SearchFacts.id_eqb_eq in E3. subst i.
      assert (id_eqb c c = true) by now apply SearchFacts.id_eqb_eq.
      congruence.
Qed.

Lemma nodes_of_self n : In n (nodes_of n).
Proof. destruct n. now left. Qed.

Lemma nodes_of_child n c x : In c (children n) -> In x (nodes_of c) -> In x (nodes_of n).
Proof.
  destruct n as [i fn file ps pe cc tt st kids cs]. cbn [children nodes_of].
  intros Hc Hx. right. apply in_flat_map. now exists c.
Qed.

(** *** The parent map *)

Lemma fold_buildParentMap_ok allNodes (parent : CallTreeNode) : forall l,
  Forall (fun c => forall parentId pm,
              (forall x, In x (nodes_of c) -> In x (flat_map nodes_of allNodes)) ->
              (forall p, parentId = Some p -> parent_id allNodes p) ->
              parents_ok allNodes pm ->
              parents_ok allNodes (buildParentMap c parentId pm)) l ->
  In parent (flat_map nodes_of allNodes) ->
  (forall c, In c l -> In c (children parent)) ->
  forall pm, parents_ok allNodes pm ->
             parents_ok allNodes
               (fold_left (fun acc child => buildParentMap child (Some (id parent)) acc)
                          l pm).
Proof.
  intros l Hl Hparent. induction Hl as [|c r Hc _ IH]; intros Hkids pm Hpm;
    [exact Hpm|].
  cbn [fold_left]. apply IH; [intros c' Hc'; apply Hkids; now right|].
  apply Hc; [| |exact Hpm].
  - intros x Hx. apply in_flat_map in Hparent as (root & Hroot & Hp).
    apply in_flat_map. exists root. split; [exact Hroot|].
    clear -Hx Hp Hkids. 
    assert (Hc : In c (children parent)) by (apply Hkids; now left).
    pose proof (nodes_of_child parent c x Hc Hx) as Hxp.
    revert Hxp Hp. generalize parent. clear.
    induction root as [i fn file ps pe cc tt st kids cs IH]
      using SearchFacts.node_induction.
    intros parent Hxp [<- | Hp]; [exact Hxp|].
    right. apply in_flat_map in Hp as (k & Hk & Hp).
    apply in_flat_map. exists k. split; [exact Hk|].
    rewrite Forall_forall in IH. now apply (IH k Hk parent).
  - intros p [= <-]. exists parent, c. split; [exact Hparent|].
    split; [apply Hkids; now left | reflexivity].
Qed.

Lemma buildParentMap_ok allNodes n :
  forall parentId pm,
    (forall x, In x (nodes_of n) -> In x (flat_map nodes_of allNodes)) ->
    (forall p, parentId = Some p -> parent_id allNodes p) ->
    parents_ok allNodes pm ->
    parents_ok allNodes (buildParentMap n parentId pm).
Proof.
  induction n as [i fn file ps pe cc tt stime kids cs IH]
    using SearchFacts.node_induction.
  intros parentId pm Hsub Hpar Hpm. cbn [buildParentMap].
  set (n := mkNode i fn file ps pe cc tt stime kids cs) in *.
  apply (fold_buildParentMap_ok allNodes n kids IH).
  - apply Hsub. apply nodes_of_self.
  - auto.
  - destruct parentId as [p|]; [|exact Hpm].
    intros c q. rewrite lookup_put_id. destruct (id_eqb c i).
    + intros [= <-]. now apply Hpar.
    + apply Hpm.
Qed.

Lemma parentMap_of_ok allNodes : parents_ok allNodes (parentMap_of allNodes).
Proof.
  unfold parentMap_of.
  assert (H : forall l pm,
             (forall r, In r l -> In r allNodes) ->
             parents_ok allNodes pm ->
             parents_ok allNodes
               (fold_left (fun acc root => buildParentMap root None acc) l pm)).
  { induction l as [|r l IH]; intros pm Hsub Hpm; [exact Hpm|].
    cbn [fold_left]. apply IH; [intros r' Hr'; apply Hsub; now right|].
    apply buildParentMap_ok; [|discriminate | exact Hpm].
    intros x Hx. apply in_flat_map. exists r. split; [apply Hsub; now left | exact Hx]. }
  apply H; [auto | intros c p H0; discriminate H0].
Qed.

(** *** The walk to the root *)

Lemma in_add_id x i s : In x (add_id i s) -> x = i \/ In x s.
Proof.
  unfold add_id. destruct (existsb (id_eqb i) s); [now right|].
  intros H. apply in_app_or in H as [H | [<- | []]]; auto.
Qed.

Lemma add_id_keeps x i s : In x s -> In x (add_id i s).
Proof.
  unfold add_id. destruct (existsb (id_eqb i) s); [auto|].
  intros H. apply in_or_app. now left.
Qed.

Lemma add_id_has i s : In i (add_id i s).
Proof.
  unfold add_id. destruct (existsb (id_eqb i) s) eqn:E.
  - apply existsb_exists in E as (y & Hy & E).
    apply SearchFacts.id_eqb_eq in E. now subst y.
  - apply in_or_app. right. now left.
Qed.

Lemma add_id_length i s : (length (add_id i s) <= S (length s))%nat.
Proof.
  unfold add_id. destruct (existsb (id_eqb i) s); [lia|].
  rewrite length_app. simpl. lia.
Qed.

Lemma walk_up_spec allNodes pm :
  parents_ok allNodes pm ->
  forall left cur acc,
    (forall x, In x acc -> parent_id allNodes x) ->
    (forall x, In x (walk_up pm left cur acc) -> parent_id allNodes x)
    /\ (length (walk_up pm left cur acc) <= length acc + left)%nat
    /\ (forall x, In x acc -> In x (walk_up pm left cur acc)).
Proof.
  intros Hpm. induction left as [|left IH]; intros cur acc Hacc; cbn [walk_up].
  - split; [exact Hacc | split; [lia | auto]].
  - destruct (Dict.lookup id_eqb cur pm) as [p|] eqn:L.
    2:{ split; [exact Hacc | split; [lia | auto]]. }
    destruct (IH p (add_id p acc)) as (H1 & H2 & H3).
    { intros x Hx. apply in_add_id in Hx as [-> | Hx]; [|now apply Hacc].
      exact (Hpm cur p L). }
    split; [exact H1|]. split.
    + pose proof (add_id_length p acc). lia.
    + intros x Hx. apply H3. now apply add_id_keeps.
Qed.

Lemma walk_up_parent pm left cur acc p :
  Dict.lookup id_eqb cur pm = Some p ->
  In p (walk_up pm (S left) cur acc).
Proof.
  intros L. cbn [walk_up]. rewrite L.
  assert (H : forall l c a, In p a -> In p (walk_up pm l c a)).
  { induction l as [|l IH]; intros c a Ha; cbn [walk_up]; [exact Ha|].
    destruct (Dict.lookup id_eqb c pm); [|exact Ha].
    apply IH. now apply add_id_keeps. }
  apply H. apply add_id_has.
Qed.

Lemma fold_walk_spec allNodes pm :
  parents_ok allNodes pm ->
  forall ms acc,
    (forall x, In x acc -> parent_id allNodes x) ->
    (forall x, In x (fold_left (fun acc m => walk_up pm 20 (id m) acc) ms acc) ->
               parent_id allNodes x)
    /\ (length (fold_left (fun acc m => walk_up pm 20 (id m) acc) ms acc)
        <= length acc + 20 * length ms)%nat
    /\ (forall x, In x acc ->
                  In x (fold_left (fun acc m => walk_up pm 20 (id m) acc) ms acc))
    /\ (forall m p, In m ms -> Dict.lookup id_eqb (id m) pm = Some p ->
                    In p (fold_left (fun acc m => walk_up pm 20 (id m) acc) ms acc)).
Proof.
  intros Hpm. induction ms as [|m ms IH]; intros acc Hacc; cbn [fold_left].
  - split; [exact Hacc|]. split; [simpl; lia|]. split; [auto|]. intros m p [].
  - destruct (walk_up_spec allNodes pm Hpm 20 (id m) acc Hacc) as (W1 & W2 & W3).
    destruct (IH (walk_up pm 20 (id m) acc) W1) as (H1 & H2 & H3 & H4).
    split; [exact H1|]. split; [cbn [length]; lia|]. split; [auto|].
    intros m' p [<- | Hm'] L.
    + apply H3. now apply walk_up_parent.
    + now apply (H4 m').
Qed.

(** X12: the ids that [getAncestorsToExpand] returns are ids of nodes of
    the given trees that have a child (never a leaf); there are at most 600
    of them (30 matches, 20 levels each); and the parent of each of the first
    30 matches, when the parent map has one, is among them. *)
Theorem ancestors_are_parents (matches allNodes : list CallTreeNode) :
  (forall i, In i (getAncestorsToExpand matches allNodes) -> parent_id allNodes i)
  /\ (length (getAncestorsToExpand matches allNodes) <= 600)%nat
  /\ (forall m p, In m (firstn 30 matches) ->
                  Dict.lookup id_eqb (id m) (parentMap_of allNodes) = Some p ->
                  In p (getAncestorsToExpand matches allNodes)).
Proof.
  unfold getAncestorsToExpand.
  destruct (fold_walk_spec allNodes (parentMap_of allNodes)
              (parentMap_of_ok allNodes) (firstn 30 matches) [])
    as (H1 & H2 & _ & H4); [intros x []|].
  split; [exact H1|]. split; [|exact H4].
  pose proof (firstn_le_length 30 matches). cbn [length] in H2. lia.
Qed.

End AncestorsFacts.

(* ================================================================== *)
(** ** More about the entry-point matcher *)

Module MatcherMore.
Import JsString JsNum CallTree Matcher MatcherSpec Suggestions DictFacts.

(** *** What the index holds *)

Lemma byName_fold_in nodes : forall ix k v,
  In (k, v) (byName (fold_left index_node nodes ix)) ->
  In (k, v) (byName ix) \/ (In v nodes /\ names_node k v).
Proof.
  induction nodes as [|n r IH]; intros ix k v H; [now left|].
  cbn [fold_left] in H. apply IH in H as [H | [Hin Hk]].
  2:{ right. split; [now right | exact Hk]. }
  unfold index_node in H. cbn [byName] in H.
  destruct (String.eqb _ _).
  - apply SearchMore.in_sput in H as [[-> ->] | H]; [|now left].
    right. split; [now left | now left].
  - apply SearchMore.in_sput in H as [[-> ->] | H].
    + right. split; [now left | now right].
    + apply SearchMore.in_sput in H as [[-> ->] | H]; [|now left].
      right. split; [now left | now left].
Qed.

Lemma byName_fold_known nodes : forall ix k,
  sget k (byName ix) <> None
  \/ (exists n, In n nodes /\ k = toLowerCase (functionName n)) ->
  sget k (byName (fold_left index_node nodes ix)) <> None.
Proof.
  induction nodes as [|n r IH]; intros ix k H; cbn [fold_left].
  - destruct H as [H | (n & [] & _)]. exact H.
  - apply IH.
    assert (Hstep : forall k', sget k' (byName ix) <> None
                               \/ k' = toLowerCase (functionName n) ->
                               sget k' (byName (index_node ix n)) <> None).
    { intros k' Hk'. unfold index_node. cbn [byName].
      assert (sget k' (sput (toLowerCase (functionName n)) n (byName ix)) <> None).
      { destruct Hk' as [Hk' | ->]; [now apply sget_sput_known|].
        rewrite sget_sput_same. discriminate. }
      destruct (String.eqb _ _); [assumption | now apply sget_sput_known]. }
    destruct H as [H | (m & [<- | Hm] & ->)].
    + left. apply Hstep. now left.
    + left. apply Hstep. now right.
    + right. now exists m.
Qed.

Lemma in_add_partial k s v key n m :
  In (k, s) (add_partial key n m) -> In v s ->
  v = n \/ exists s', In (k, s') m /\ In v s'.
Proof.
  unfold add_partial. intros H Hv.
  apply SearchMore.in_sput in H as [[-> ->] | H].
  - apply SearchMore.in_set_add in Hv as [-> | Hv]; [now left|].
    destruct (sget key m) as [s'|] eqn:G; [|contradiction].
    right. exists s'. split; [now apply CallTreeFacts.sget_in | exact Hv].
  - right. now exists s.
Qed.

Lemma in_add_partials n ks : forall m k s v,
  In (k, s) (add_partials ks n m) -> In v s ->
  v = n \/ exists s', In (k, s') m /\ In v s'.
Proof.
  unfold add_partials. induction ks as [|key r IH]; intros m k s v H Hv;
    cbn [fold_left] in H.
  - right. now exists s.
  - destruct (IH _ _ _ _ H Hv) as [-> | (s' & Hs' & Hv')]; [now left|].
    now apply (in_add_partial k s' v key n m).
Qed.

Lemma byPartialName_fold_in nodes : forall ix k s v,
  In (k, s) (byPartialName (fold_left index_node nodes ix)) -> In v s ->
  In v nodes \/ exists s', In (k, s') (byPartialName ix) /\ In v s'.
Proof.
  induction nodes as [|n r IH]; intros ix k s v H Hv.
  - right. now exists s.
  - cbn [fold_left] in H. destruct (IH _ _ _ _ H Hv) as [Hin | (s' & Hs' & Hv')].
    + left. now right.
    + unfold index_node in Hs'. cbn [byPartialName] in Hs'.
      destruct (in_add_partials _ _ _ _ _ _ Hs' Hv') as [-> | Hex].
      * left. now left.
      * now right.
Qed.

(** X13: [findEntryNode] never makes a node up: whatever string it is
    asked, the node it returns on a built index is one of the nodes that were
    indexed. *)
Theorem findEntryNode_returns_indexed (nodes : list CallTreeNode) (x : string)
        (n : CallTreeNode) :
  findEntryNode (buildIndex nodes) x = Some n -> In n nodes.
Proof.
  assert (Hname : forall k v, sget k (byName (buildIndex nodes)) = Some v ->
                              In v nodes).
  { intros k v G. apply CallTreeFacts.sget_in in G.
    unfold buildIndex in G. cbn [byName] in G.
    apply byName_fold_in in G as [[] | [Hin _]]. exact Hin. }
  assert (Hpartial : forall t, find_partial (buildIndex nodes) t = Some n ->
                               In n nodes).
  { intros t. unfold find_partial.
    destruct (3 <=? String.length t)%nat; [|discriminate].
    assert (Hfirst : first_starting_with t (byName (buildIndex nodes)) = Some n ->
                     In n nodes).
    { unfold first_starting_with.
      destruct (filter _ _) as [|[k v] r] eqn:F; [discriminate|].
      intros [= ->].
      assert (Hin : In (k, n) (filter (fun kv => startsWith t (fst kv))
                                      (byName (buildIndex nodes))))
        by (rewrite F; now left).
      apply filter_In in Hin as [Hin _].
      unfold buildIndex in Hin. cbn [byName] in Hin.
      apply byName_fold_in in Hin as [[] | [Hn _]]. exact Hn. }
    destruct (sget t (byPartialName (buildIndex nodes))) as [[|first rest]|] eqn:G;
      try exact Hfirst.
    intros [= ->]. apply CallTreeFacts.sget_in in G.
    unfold buildIndex in G. cbn [byPartialName] in G.
    destruct (byPartialName_fold_in nodes empty t (n :: rest) n G (or_introl eq_refl))
      as [Hin | (s' & [] & _)].
    exact Hin. }
  unfold findEntryNode.
  destruct (String.eqb x ""); [discriminate|].
  destruct (sget _ (byName _)) as [v|] eqn:G.
  { intros [= <-]. exact (Hname _ _ G). }
  destruct (looks_like_address (trim x)); [|apply Hpartial].
  destruct (sget _ (byPcStart _)) as [v|] eqn:P.
  { intros [= <-]. unfold buildIndex in P. cbn [byPcStart] in P.
    apply MatcherFacts.byPcStart_fold in P as [P | [Hin _]]; [discriminate | exact Hin]. }
  destruct (hex_number _); [apply Hpartial|].
  intros H. now apply MatcherFacts.findByPcRange_sound in H.
Qed.

Lemma findEntryNode_returns_indexed_witness :
  In node_g [node_f; node_g].
Proof.
  apply (findEntryNode_returns_indexed [node_f; node_g] "2010" node_g).
  vm_compute. reflexivity.
Defined.

(** X14: the name of an indexed function always resolves: for every
    indexed node whose function name is not empty and has no white space at
    either end, [findEntryNode] on that name returns an indexed node that
    bears this name up to the case of the letters and to leading
    underscores (the node indexed last under it). *)
Theorem findEntryNode_resolves_names (nodes : list CallTreeNode) (n : CallTreeNode) :
  In n nodes ->
  functionName n <> "" ->
  trim (functionName n) = functionName n ->
  exists m,
    findEntryNode (buildIndex nodes) (functionName n) = Some m
    /\ In m nodes
    /\ names_node (toLowerCase (functionName n)) m.
Proof.
  intros Hin Hne Htrim. unfold findEntryNode.
  apply String.eqb_neq in Hne. rewrite Hne, Htrim.
  destruct (sget (toLowerCase (functionName n)) (byName (buildIndex nodes)))
    as [m|] eqn:G.
  - exists m. split; [reflexivity|].
    apply CallTreeFacts.sget_in in G. unfold buildIndex in G. cbn [byName] in G.
    apply byName_fold_in in G as [[] | H]. exact H.
  - exfalso. unfold buildIndex in G. cbn [byName] in G.
    apply (byName_fold_known nodes empty (toLowerCase (functionName n)));
      [|exact G].
    right. now exists n.
Qed.

Lemma findEntryNode_resolves_names_witness :
  exists m,
    findEntryNode (buildIndex [node_f; node_g]) "g" = Some m
    /\ In m [node_f; node_g]
    /\ names_node (toLowerCase "g") m.
Proof.
  apply (findEntryNode_resolves_names [node_f; node_g] node_g).
  - right. left. reflexivity.
  - discriminate.
  - reflexivity.
Defined.

(** *** Suggestions *)

Lemma byPcStart_fold_in nodes : forall ix k v,
  In (k, v) (byPcStart (fold_left index_node nodes ix)) ->
  In (k, v) (byPcStart ix) \/ In v nodes.
Proof.
  induction nodes as [|n r IH]; intros ix k v H; [now left|].
  cbn [fold_left] in H. apply IH in H as [H | Hin]; [|right; now right].
  unfold index_node in H. cbn [byPcStart] in H.
  destruct (String.eqb (pcStart n) ""); [now left|].
  apply SearchMore.in_sput in H as [[-> ->] | H]; [right; now left | now left].
Qed.

Lemma suggest_from_spec limit q make (S : list CallTreeNode) :
  forall entries acc,
    (forall k v, In (k, v) entries -> In v S) ->
    (forall k v, node (make k v) = v) ->
    (forall s, In s acc -> In (node s) S) ->
    (forall s, In s (suggest_from limit q make entries acc) -> In (node s) S)
    /\ (length (suggest_from limit q make entries acc)
        <= Nat.max limit (length acc))%nat.
Proof.
  induction entries as [|[k v] rest IH]; intros acc Hent Hmake Hacc;
    cbn [suggest_from].
  - split; [exact Hacc | lia].
  - destruct (limit <=? length acc)%nat eqn:L.
    + split; [exact Hacc | lia].
    + apply Nat.leb_gt in L.
      destruct (IH (if includes q k then acc ++ [make k v] else acc)) as [H1 H2].
      * intros k' v' H. apply (Hent k' v'). now right.
      * exact Hmake.
      * destruct (includes q k); [|exact Hacc].
        intros s Hs. apply in_app_or in Hs as [Hs | [<- | []]]; [now apply Hacc|].
        rewrite Hmake. apply (Hent k v). now left.
      * split; [exact H1|].
        destruct (includes q k); [|lia].
        rewrite length_app in H2. simpl in H2. lia.
Qed.

(** X15: [getSuggestions] never returns more than [limit] suggestions
    (none for the limit 0 or the empty input), and every suggestion, by name
    or by PC, carries an indexed node. *)
Theorem suggestions_within_limit (nodes : list CallTreeNode) (partial : string)
        (limit : nat) :
  (length (getSuggestions (buildIndex nodes) partial limit) <= limit)%nat
  /\ forall s, In s (getSuggestions (buildIndex nodes) partial limit) ->
               In (node s) nodes.
Proof.
  unfold getSuggestions.
  destruct (String.eqb partial ""); [split; [simpl; lia | intros s []]|].
  set (q := trim (toLowerCase partial)).
  destruct (suggest_from_spec limit q
              (fun _ n => mkSuggestion (functionName n)
                                       (functionName n ++ " (function)")%string n)
              nodes (byName (buildIndex nodes)) []) as [N1 N2].
  { intros k v H. unfold buildIndex in H. cbn [byName] in H.
    apply byName_fold_in in H as [[] | [Hin _]]. exact Hin. }
  { reflexivity. }
  { intros s []. }
  change (length (@nil Suggestion)) with 0%nat in N2. rewrite Nat.max_0_r in N2.
  destruct (looks_like_address partial); [|split; [exact N2 | exact N1]].
  match goal with
  | |- context [suggest_from limit q ?mk ?ents ?acc] =>
      destruct (suggest_from_spec limit q mk nodes ents acc) as [P1 P2]
  end.
  - intros k v H. unfold buildIndex in H. cbn [byPcStart] in H.
    apply byPcStart_fold_in in H as [[] | Hin]. exact Hin.
  - reflexivity.
  - exact N1.
  - split; [lia | exact P1].
Qed.

(** *** The array of the binary search *)

Lemma insert_range_start_sorted r l :
  StronglySorted start_le l -> StronglySorted start_le (insert_range r l).
Proof.
  induction 1 as [|x l Sl IH Hx]; cbn [insert_range].
  - constructor; constructor.
  - destruct (r_start x <=? r_start r)%Z eqn:L.
    + apply Z.leb_le in L. constructor; [exact IH|].
      apply Forall_forall. intros y Hy.
      apply MatcherFacts.in_insert_range in Hy as [-> | Hy]; [exact L|].
      rewrite Forall_forall in Hx. now apply Hx.
    + apply Z.leb_gt in L. constructor; [now constructor|].
      constructor; [unfold start_le; lia|].
      apply Forall_forall. intros y Hy. rewrite Forall_forall in Hx.
      specialize (Hx y Hy). unfold start_le in *. lia.
Qed.

Lemma insert_range_perm r l : Permutation (r :: l) (insert_range r l).
Proof.
  induction l as [|x l IH]; cbn [insert_range]; [reflexivity|].
  destruct (r_start x <=? r_start r)%Z; [|reflexivity].
  rewrite perm_swap. now constructor.
Qed.

Lemma fold_insert_spec rs : forall acc,
  StronglySorted start_le acc ->
  StronglySorted start_le (fold_left (fun acc r => insert_range r acc) rs acc)
  /\ Permutation (rs ++ acc) (fold_left (fun acc r => insert_range r acc) rs acc).
Proof.
  induction rs as [|r rs IH]; intros acc Hs; cbn [fold_left].
  - split; [exact Hs | reflexivity].
  - destruct (IH (insert_range r acc) (insert_range_start_sorted r acc Hs))
      as [H1 H2].
    split; [exact H1|].
    rewrite <- H2. cbn [app]. rewrite <- insert_range_perm.
    apply Permutation_middle.
Qed.

(** X16: whatever the order of the nodes, [buildIndex] leaves the array of
    PC ranges sorted by start address, and the array holds exactly the ranges
    of the nodes that have one (both ends non-empty and hexadecimal, the end
    not below the start), each as often as it occurs. *)
Theorem pcRanges_sorted_by_start (nodes : list CallTreeNode) :
  StronglySorted start_le (pcRanges (buildIndex nodes))
  /\ Permutation (ranges_of nodes) (pcRanges (buildIndex nodes)).
Proof.
  rewrite MatcherFacts.buildIndex_pcRanges. unfold sort_ranges.
  destruct (fold_insert_spec (ranges_of nodes) [] (SSorted_nil _)) as [H1 H2].
  split; [exact H1|]. now rewrite app_nil_r in H2.
Qed.

End MatcherMore.

(* ================================================================== *)
(** ** The source resolver *)

Module PathUtilsFacts.
Import JsString PathUtils.

(** *** Splitting and joining at slashes *)

Lemma slash_free_app a b :
  slash_free a = true -> slash_free b = true -> slash_free (a ++ b) = true.
Proof.
  unfold slash_free. induction a as [|c a IH]; simpl; [auto|].
  intros H Hb. apply andb_true_iff in H as [-> H]. simpl. auto.
Qed.

Lemma split_char_aux_free cur w rest :
  slash_free w = true ->
  split_char_aux "/" cur (w ++ rest) = split_char_aux "/" (cur ++ w) rest.
Proof.
  unfold slash_free. revert cur.
  induction w as [|c w IH]; simpl; intros cur H.
  - now rewrite StringFacts.sapp_nil_r.
  - apply andb_true_iff in H as [Hc H].
    apply negb_true_iff in Hc. rewrite Hc, (IH _ H).
    now rewrite StringFacts.sapp_assoc.
Qed.

Lemma split_char_aux_join cur x l :
  Forall (fun s => slash_free s = true) (x :: l) ->
  split_char_aux "/" cur (join (x :: l)) = (cur ++ x)%string :: l.
Proof.
  unfold join. revert cur x.
  induction l as [|y l IH]; intros cur x H.
  - simpl. inversion H as [|? ? Hx _]; subst.
    rewrite <- (StringFacts.sapp_nil_r x) at 1.
    now rewrite (split_char_aux_free cur x "" Hx).
  - inversion H as [|? ? Hx Hl]; subst.
    change (String.concat "/" (x :: y :: l))
      with (x ++ String "/" (String.concat "/" (y :: l)))%string.
    rewrite (split_char_aux_free cur x _ Hx).
    cbn [split_char_aux]. rewrite Ascii.eqb_refl.
    now rewrite (IH "" y Hl).
Qed.

(** Joining components that have no slash loses nothing. *)
Lemma join_injective l1 l2 :
  l1 <> [] -> l2 <> [] ->
  Forall (fun s => slash_free s = true) l1 ->
  Forall (fun s => slash_free s = true) l2 ->
  join l1 = join l2 -> l1 = l2.
Proof.
  intros N1 N2 F1 F2 E.
  destruct l1 as [|x1 l1]; [congruence|].
  destruct l2 as [|x2 l2]; [congruence|].
  pose proof (split_char_aux_join "" x1 l1 F1) as S1.
  pose proof (split_char_aux_join "" x2 l2 F2) as S2.
  rewrite E, S2 in S1. simpl in S1. congruence.
Qed.

Lemma split_char_aux_pieces s : forall cur,
  slash_free cur = true ->
  Forall (fun p => slash_free p = true) (split_char_aux "/" cur s).
Proof.
  induction s as [|c s IH]; simpl; intros cur H.
  - now constructor.
  - destruct (Ascii.eqb c "/") eqn:E.
    + constructor; [exact H|]. now apply IH.
    + apply IH. apply slash_free_app; [exact H|].
      unfold slash_free. simpl. now rewrite E.
Qed.

Lemma path_parts_free p :
  Forall (fun s => slash_free s = true) (path_parts p).
Proof.
  unfold path_parts. apply Forall_forall. intros x Hx.
  apply filter_In in Hx as [Hx _].
  pose proof (split_char_aux_pieces p "" eq_refl) as F.
  rewrite Forall_forall in F. now apply F.
Qed.

Lemma last_skipn {A : Type} (d : A) (l : list A) : forall n,
  (n < length l)%nat -> last (skipn n l) d = last l d.
Proof.
  induction l as [|x l IH]; intros n H; [simpl in H; lia|].
  destruct n as [|n]; [reflexivity|].
  simpl in H. change (skipn (S n) (x :: l)) with (skipn n l).
  rewrite IH by lia.
  destruct l as [|y l]; [simpl in H; lia|reflexivity].
Qed.

Lemma last_parts_facts (m : nat) (l : list string) :
  (1 <= m <= length l)%nat ->
  Forall (fun s => slash_free s = true) l ->
  last_parts m l <> []
  /\ Forall (fun s => slash_free s = true) (last_parts m l)
  /\ last (last_parts m l) "" = last l "".
Proof.
  intros H F. unfold last_parts. split; [|split].
  - intros E. apply (f_equal (@length string)) in E.
    rewrite length_skipn in E. simpl in E. lia.
  - apply Forall_forall. intros x Hx. rewrite Forall_forall in F.
    apply F. revert Hx. generalize (length l - m)%nat as n.
    clear. induction l as [|y l IH]; intros [|n]; simpl; auto.
    intros Hx. right. exact (IH n Hx).
  - apply last_skipn. lia.
Qed.

(** The comparison of the last two or more components holds only for a key
    that has the last component of the path. *)
Lemma suffix_matches_name (p key : string) :
  suffix_matches (path_parts p) (path_parts key) = true ->
  name_matches (last (path_parts p) "") (path_parts key) = true.
Proof.
  pose proof (path_parts_free p) as FP.
  pose proof (path_parts_free key) as FK.
  generalize dependent (path_parts key). generalize dependent (path_parts p).
  intros P FP K FK H. unfold suffix_matches in H.
  apply andb_true_iff in H as [_ H].
  apply existsb_exists in H as (m & Hm & E).
  apply in_seq in Hm. apply String.eqb_eq in E.
  assert (HP : (1 <= m <= length P)%nat) by lia.
  assert (HK : (1 <= m <= length K)%nat) by lia.
  destruct (last_parts_facts m P HP FP) as (NP & FP' & LP).
  destruct (last_parts_facts m K HK FK) as (NK & FK' & LK).
  pose proof (join_injective _ _ NP NK FP' FK' E) as EQ.
  rewrite EQ, LK in LP.
  unfold name_matches, base_name.
  destruct K as [|k K]; [simpl in HK; lia|].
  rewrite LP. apply String.eqb_refl.
Qed.

Lemma key_matches_name (p key : string) :
  key_matches (path_parts p) (last (path_parts p) "") key
  = name_matches (last (path_parts p) "") (path_parts key).
Proof.
  unfold key_matches.
  destruct (name_matches _ _) eqn:N; [reflexivity|]. simpl.
  destruct (suffix_matches _ _) eqn:S; [|reflexivity].
  apply suffix_matches_name in S. congruence.
Qed.

Lemma base_name_last (parts : list string) (filename : string) :
  base_name parts = Some filename -> filename = last parts "".
Proof. destruct parts; simpl; [discriminate|]. now intros [= <-]. Qed.

(** *** What is returned *)

Lemma truthy_content_in files k c :
  truthy_content files k = Some c -> In (k, c) files.
Proof.
  unfold truthy_content. intros H. apply CallTreeFacts.sget_in.
  destruct (sget k files) as [[|a r]|]; congruence.
Qed.

Lemma first_hit_in files candidates c :
  first_hit files candidates = Some c -> exists k, In (k, c) files.
Proof.
  induction candidates as [|k rest IH]; simpl; [discriminate|].
  destruct (truthy_content files k) as [c'|] eqn:E; [|exact IH].
  intros [= <-]. exists k. now apply truthy_content_in.
Qed.

Lemma resolve_by_parts_in dir p files c :
  resolve_by_parts dir p files = Content c -> exists k, In (k, c) files.
Proof.
  unfold resolve_by_parts.
  destruct (base_name (path_parts p)) as [filename|]; [|discriminate].
  destruct (first_hit files _) as [c'|] eqn:E.
  - intros [= <-]. now apply first_hit_in in E.
  - destruct (filter _ files) as [|[k c'] rest] eqn:F; [discriminate|].
    intros [= <-]. exists k.
    assert (I : In (k, c') (filter (fun kv => key_matches (path_parts p) filename (fst kv)) files))
      by (rewrite F; now left).
    now apply filter_In in I as [I _].
Qed.

(** X17.  A content that [resolveSourcePath] returns is the content of one
    of the given source files: the resolver never makes a text up. *)
Theorem resolved_content_is_a_file
        (srcSubdir : option string) (filePath : string)
        (files : list (string * string)) (c : string) :
  resolveSourcePath srcSubdir filePath (Some files) = Content c ->
  exists key, In (key, c) files.
Proof.
  unfold resolveSourcePath.
  destruct (sget filePath files) as [[|a r]|] eqn:E.
  - apply resolve_by_parts_in.
  - intros [= <-]. exists filePath. now apply CallTreeFacts.sget_in.
  - destruct (Parser.inherited filePath); [discriminate|].
    apply resolve_by_parts_in.
Qed.

Lemma resolved_content_is_a_file_witness :
  resolveSourcePath (Some "sub") "/abs/proj/src/sub/main.c" (Some scenario6_files)
  = Content "int main(void);"
  /\ exists key, In (key, "int main(void);") scenario6_files.
Proof.
  split; [reflexivity|].
  apply (resolved_content_is_a_file (Some "sub") "/abs/proj/src/sub/main.c").
  reflexivity.
Defined.

Lemma filter_head_find {A B : Type} (f : A -> bool) (l : list A)
      (some : A -> B) (none : B) :
  match filter f l with x :: _ => some x | [] => none end
  = match find f l with Some x => some x | None => none end.
Proof.
  induction l as [|x l IH]; simpl; [reflexivity|].
  destruct (f x); [reflexivity|exact IH].
Qed.

Lemma resolve_by_parts_base_name dir p files :
  Parser.truthy_str dir = None ->
  resolve_by_parts dir p files = by_base_name p files.
Proof.
  intros D. unfold resolve_by_parts, by_base_name, probes. rewrite D.
  destruct (base_name (path_parts p)) as [filename|] eqn:B; [|reflexivity].
  apply base_name_last in B. subst filename. simpl first_hit.
  rewrite (filter_ext _ (fun kv => name_matches (last (path_parts p) "")
                                     (path_parts (fst kv))))
    by (intros kv; apply key_matches_name).
  rewrite (filter_head_find _ files
             (fun kv : string * string => let (_, content) := kv in Content content)
             Absent).
  destruct (find _ files) as [[k c]|]; reflexivity.
Qed.

(** X18.  Without a chosen directory (as on the server), a path that is no
    key of the source files resolves to the first file that has the same
    last component: the comparison of the last two or more components
    (lines 70-80) never decides. *)
Theorem only_base_name_decides
        (srcSubdir : option string) (filePath : string)
        (files : list (string * string)) :
  Parser.truthy_str srcSubdir = None ->
  truthy_content files filePath = None ->
  Parser.inherited filePath = false ->
  resolveSourcePath srcSubdir filePath (Some files) = by_base_name filePath files.
Proof.
  intros D T I. unfold resolveSourcePath. unfold truthy_content in T.
  destruct (sget filePath files) as [[|a r]|]; [|discriminate|rewrite I];
    now apply resolve_by_parts_base_name.
Qed.

Lemma only_base_name_decides_witness :
  resolveSourcePath None "/x/y/main.c" (Some scenario6_files)
  = by_base_name "/x/y/main.c" scenario6_files.
Proof.
  apply (only_base_name_decides None "/x/y/main.c" scenario6_files);
    reflexivity.
Defined.

(** X19.  A path is resolved as soon as one of the source files has its last
    component, whatever the directories are. *)
Theorem same_base_name_resolves
        (srcSubdir : option string) (filePath : string)
        (files : list (string * string)) (key content filename : string) :
  In (key, content) files ->
  base_name (path_parts key) = Some filename ->
  base_name (path_parts filePath) = Some filename ->
  resolveSourcePath srcSubdir filePath (Some files) <> Absent.
Proof.
  intros Hin BK BP.
  assert (R : resolve_by_parts srcSubdir filePath files <> Absent).
  { unfold resolve_by_parts. rewrite BP.
    destruct (first_hit files _); [discriminate|].
    destruct (filter _ files) as [|[k c] rest] eqn:F; [|discriminate].
    exfalso.
    assert (I : In (key, content)
                   (filter (fun kv => key_matches (path_parts filePath) filename (fst kv)) files)).
    { apply filter_In. split; [exact Hin|]. simpl.
      unfold key_matches, name_matches. rewrite BK, String.eqb_refl.
      reflexivity. }
    rewrite F in I. exact I. }
  unfold resolveSourcePath.
  destruct (sget filePath files) as [[|a r]|]; [exact R|discriminate|].
  destruct (Parser.inherited filePath); [discriminate|exact R].
Qed.

Lemma same_base_name_resolves_witness :
  resolveSourcePath None "/x/y/main.c" (Some scenario6_files) <> Absent.
Proof.
  apply (same_base_name_resolves None "/x/y/main.c" scenario6_files
           "sub/main.c" "int main(void);" "main.c");
    [now left|reflexivity|reflexivity].
Defined.

End PathUtilsFacts.

(* ================================================================== *)
(** ** The coverage figures *)

Module CoverageFacts.
Import JsString JsNum Parser PathUtils Coverage.






(** *** The entries of a record of lines *)




(** *** The loop over the lines of a function *)















(** *** The post-processing after the loop *)

Lemma store_function_own_names st file fn f :
  own_names (st_filesData st) ->
  own_names (st_filesData (store_function st file fn f)).
Proof.
  intros H. unfold store_function.
  destruct (sget file (st_filesData st)) as [fi|] eqn:E; [|exact H].
  cbn. intros k Hk. apply CallForestFacts.keys_sput in Hk as [->|Hk].
  - apply H. apply CallForestFacts.keys_sget. congruence.
  - now apply H.
Qed.

Lemma do_fl_own_names st t :
  own_names (st_filesData st) -> own_names (st_filesData (do_fl st t)).
Proof.
  intros H. unfold do_fl, set_currentFile, set_filesData.
  generalize (drop 3 t). intros file. cbn [st_filesData].
  destruct (inherited file) eqn:I; [exact H|].
  destruct (sget file (st_filesData st)) as [fi|].
  - destruct (truthy_str (st_currentObjectFile st)); [|exact H].
    intros k Hk. apply CallForestFacts.keys_sput in Hk as [->|Hk];
      [exact I|now apply H].
  - intros k Hk. apply CallForestFacts.keys_sput in Hk as [->|Hk];
      [exact I|now apply H].
Qed.

Lemma step_own_names st t next st' b :
  step st t next = Ok (st', b) ->
  own_names (st_filesData st) -> own_names (st_filesData st').
Proof.
  unfold step.
  destruct (classify (st_isCallgrind st) t);
    try (intros [= <- <-] H; exact H).
  - intros [= <- <-]. apply do_fl_own_names.
  - unfold do_fn.
    destruct (truthy_str (currentFile st)) as [file|];
      [destruct (truthy_str (Some (drop 3 t)));
       [destruct (sget file (st_filesData st))|]|];
      intros [= <- <-] H; try exact H.
    now apply (store_function_own_names (set_currentFunction st _)).
  - unfold do_calls.
    destruct next as [nl|]; [|intros [= <- <-] H; exact H].
    destruct (match_pc (trim nl)), (truthy_str (currentFunction st)) as [fn|],
      (truthy_str (currentFile st)) as [file|];
      try (intros [= <- <-] H; exact H).
    destruct (function_of st file fn); intros [= <- <-] H.
    now apply (store_function_own_names st).
  - intros [= <- <-] H. unfold do_data_row.
    destruct (truthy_str (currentFile st)) as [file|]; auto.
    destruct (truthy_str (currentFunction st)) as [fn|]; auto.
    destruct (function_of st file fn);
      repeat match goal with
             | |- context [if ?c then _ else _] => destruct c
             end; auto; now apply (store_function_own_names st).
Qed.

Lemma loop_own_names n :
  forall ls st st', (length ls <= n)%nat ->
    loop st ls = Ok st' ->
    own_names (st_filesData st) -> own_names (st_filesData st').
Proof.
  induction n as [|n IH]; intros ls st st' Hlen.
  { destruct ls; [now intros [= <-] | simpl in Hlen; lia]. }
  destruct ls as [|l rest]; [now intros [= <-]|].
  simpl in Hlen. cbn [loop].
  destruct (step st (trim l) (hd_error rest)) as [[st1 b]|] eqn:S; [|discriminate].
  intros L H. apply (step_own_names _ _ _ _ _ S) in H.
  destruct b.
  - destruct rest as [|x r]; [now injection L as <-|].
    apply (IH r st1); [simpl in Hlen; lia|exact L|exact H].
  - apply (IH rest st1); [lia|exact L|exact H].
Qed.

Lemma file_coverage_returns dir files path fi :
  inherited path = false -> exists fc, file_coverage dir files (path, fi) = Ok fc.
Proof.
  intros I. unfold file_coverage. destruct (scan_file fi) as [sc fcs].
  assert (R : resolveSourcePath dir path (Some files) <> BuiltIn).
  { unfold resolveSourcePath, resolve_by_parts. rewrite I.
    destruct (sget path files) as [[|a r]|]; try discriminate;
      destruct (base_name (path_parts path)); try discriminate;
      destruct (first_hit files _); try discriminate;
      destruct (filter _ files) as [|[k c] l]; discriminate. }
  destruct (resolveSourcePath dir path (Some files)) as [[|a r]| |];
    [eexists; reflexivity|eexists; reflexivity|congruence|eexists; reflexivity].
Qed.

Lemma post_process_fold dir files (fd : list (string * FileInfo)) : forall p,
  own_names fd ->
  totalProjectLines p = list_sum (map (fun e => compiledLines (snd e)) (project_files p)) ->
  totalProjectCoveredLines p
  = list_sum (map (fun e => coveredLines (snd e)) (project_files p)) ->
  exists q,
    fold_left (add_file dir files) fd (Ok p) = Ok q
    /\ map fst (project_files q) = map fst (project_files p) ++ map fst fd
    /\ totalProjectLines q
       = list_sum (map (fun e => compiledLines (snd e)) (project_files q))
    /\ totalProjectCoveredLines q
       = list_sum (map (fun e => coveredLines (snd e)) (project_files q)).
Proof.
  induction fd as [|[path fi] fd IH]; intros p H T C.
  - exists p. simpl. rewrite app_nil_r. auto.
  - cbn [fold_left]. unfold add_file at 2.
    destruct (file_coverage_returns dir files path fi) as (fc & F).
    { apply H. now left. }
    rewrite F. cbn [fst].
    destruct (IH (mkProjectCoverage (project_files p ++ [(path, fc)])
                                    (totalProjectLines p + compiledLines fc)
                                    (totalProjectCoveredLines p + coveredLines fc)))
      as (q & Q & K & T' & C').
    + intros k Hk. apply H. now right.
    + cbn. rewrite map_app, list_sum_app, T. simpl. lia.
    + cbn. rewrite map_app, list_sum_app, C. simpl. lia.
    + exists q. split; [exact Q|]. split; [|auto].
      rewrite K. cbn. now rewrite map_app, <- app_assoc.
Qed.

(** X23.  When the loop over the lines has gone through, the
    post-processing goes through as well, whatever source files are at hand:
    it gives one coverage entry per file of the profile, in the same order,
    and the totals of the project are the sums of the compiled and of the
    covered lines of the files. *)
Theorem post_processing_returns
        (content : string) (d : CachegrindData)
        (srcSubdir : option string) (sourceFiles : list (string * string)) :
  parse content = Ok d ->
  exists p,
    post_process srcSubdir sourceFiles (fileCoverage d) = Ok p
    /\ map fst (project_files p) = map fst (fileCoverage d)
    /\ filesAnalyzed p = length (fileCoverage d)
    /\ totalProjectLines p
       = list_sum (map (fun e => compiledLines (snd e)) (project_files p))
    /\ totalProjectCoveredLines p
       = list_sum (map (fun e => coveredLines (snd e)) (project_files p)).
Proof.
  unfold parse, parse_lines.
  destruct (loop _ _) as [st|] eqn:L; [|discriminate].
  intros [= <-]. cbn [finish fileCoverage].
  assert (H : own_names (st_filesData st)).
  { apply (loop_own_names _ _ _ _ (le_n _) L). intros k []. }
  destruct (post_process_fold srcSubdir sourceFiles (st_filesData st)
                              (mkProjectCoverage [] 0 0) H eq_refl eq_refl)
    as (q & Q & K & T & C).
  exists q. split; [exact Q|]. split; [exact K|].
  split; [|split; assumption].
  unfold filesAnalyzed. rewrite <- (length_map fst), K. apply length_map.
Qed.

Lemma post_processing_returns_witness :
  exists d,
    parse ParserSpec.scenario1 = Ok d
    /\ exists p,
         post_process None [] (fileCoverage d) = Ok p
         /\ map fst (project_files p) = map fst (fileCoverage d)
         /\ filesAnalyzed p = length (fileCoverage d)
         /\ totalProjectLines p
            = list_sum (map (fun e => compiledLines (snd e)) (project_files p))
         /\ totalProjectCoveredLines p
            = list_sum (map (fun e => coveredLines (snd e)) (project_files p)).
Proof.
  eexists. split; [vm_compute; reflexivity|].
  apply (post_processing_returns ParserSpec.scenario1 _ None []).
  vm_compute; reflexivity.
Defined.

End CoverageFacts.
